(** * Commit of a pending object: reconciliation of the client's segment list
      with the segments table (satellite/metainfo/metabase/commit_object.go).

    The development embeds [CommitObjectWithSegments] and its helpers as Rocq
    functions over an explicit store (the [objects] and [segments] tables) and
    proves the properties the specification states about them. *)

From Stdlib Require Import String ZArith List Bool Lia Sorted Permutation.
Import ListNotations.
Local Open Scope Z_scope.

(* ================================================================== *)
(** ** Machine integers *)

(** Go's [int64(x)]: the value of [x] wrapped into the signed 64-bit range. *)
Definition int64 (x : Z) : Z := (x + 2 ^ 63) mod 2 ^ 64 - 2 ^ 63.

(** Go's [int32(x)]: the value of [x] wrapped into the signed 32-bit range. *)
Definition int32 (x : Z) : Z := (x + 2 ^ 31) mod 2 ^ 32 - 2 ^ 31.

Definition is_int32 (x : Z) : Prop := - 2 ^ 31 <= x < 2 ^ 31.
Definition is_int64 (x : Z) : Prop := - 2 ^ 63 <= x < 2 ^ 63.
Definition is_uint32 (x : Z) : Prop := 0 <= x < 2 ^ 32.

(* ================================================================== *)
(** ** Segment positions *)

(** Modelled from the spec: the type [SegmentPosition] is declared outside
    commit_object.go.  The spec gives it as a pair of a major part number and
    a minor index within the part. *)
Record SegmentPosition := mkPos { Part : Z; Index : Z }.

Definition valid_position (p : SegmentPosition) : Prop :=
  is_uint32 (Part p) /\ is_uint32 (Index p).

(** Go's [==] on the struct: both fields equal. *)
Definition pos_eqb (a b : SegmentPosition) : bool :=
  (Part a =? Part b) && (Index a =? Index b).

(** Modelled from the spec: the method [SegmentPosition.Less] is declared
    outside commit_object.go; the order is [(part, index)] lexicographic. *)
Definition Less (a b : SegmentPosition) : bool :=
  (Part a <? Part b) || ((Part a =? Part b) && (Index a <? Index b)).

(** Modelled from the spec: the method [SegmentPosition.Encode] is declared
    outside commit_object.go; a position is encoded as a single integer with
    the part as the major component. *)
Definition Encode (p : SegmentPosition) : Z := Part p * 2 ^ 32 + Index p.

(** The key the statements of this file send to the store:
    [int64(p.Encode())]. *)
Definition position_key (p : SegmentPosition) : Z := int64 (Encode p).

(* ================================================================== *)
(** ** Errors *)

(** The errors [CommitObjectWithSegments] can return.  Format strings are
    kept as constructors carrying the formatted values. *)
Inductive error : Type :=
  (** whatever [ObjectStream.Verify] reports *)
| ErrInvalidRequest (msg : string)
  (** "segments not in ascending order, got %v before %v" *)
| ErrSegmentsNotAscending (last next : SegmentPosition)
  (** "segments and database does not match: %v", with the group of
      "%v: segment not committed" errors *)
| ErrSegmentsMismatch (invalidSegments : list SegmentPosition)
  (** "not all segments were updated, expected %d got %d" *)
| ErrNotAllUpdated (expected got : Z)
  (** [storj.ErrObjectNotFound] wrapping "object with specified version and
      pending status is missing" *)
| ErrObjectNotFound.

(* ================================================================== *)
(** ** verifySegmentOrder *)

(** The loop of [verifySegmentOrder] over [positions[1:]]. *)
Fixpoint verifySegmentOrder_loop (last : SegmentPosition)
         (rest : list SegmentPosition) : option error :=
  match rest with
  | [] => None
  | next :: rest' =>
      if negb (Less last next) then Some (ErrSegmentsNotAscending last next)
      else verifySegmentOrder_loop next rest'
  end.

Definition verifySegmentOrder (positions : list SegmentPosition) : option error :=
  match positions with
  | [] => None
  | first :: rest => verifySegmentOrder_loop first rest
  end.

(* ================================================================== *)
(** ** Reconciliation *)

(** [segmentInfoForCommit] is database state prior to deleting objects. *)
Record segmentInfoForCommit := mkInfo {
  Position      : SegmentPosition;
  EncryptedSize : Z;   (* int32 *)
  PlainOffset   : Z;   (* int64 *)
  PlainSize     : Z    (* int32 *)
}.

Record segmentToCommit := mkCommit {
  cPosition       : SegmentPosition;
  cOldPlainOffset : Z; (* int64 *)
  cPlainSize      : Z; (* int32 *)
  cEncryptedSize  : Z  (* int32 *)
}.

Section Diff.
Context {S : Type}.
(** The callback: a [nil] pointer is [None]. *)
Variable cb : option SegmentPosition -> option segmentInfoForCommit -> S -> S.

(** [for i := range as { cb(&as[i], nil) }] *)
Definition drain_as (as_ : list SegmentPosition) (s : S) : S :=
  fold_left (fun s a => cb (Some a) None s) as_ s.

(** [for i := range bs { cb(nil, &bs[i]) }] *)
Definition drain_bs (bs : list segmentInfoForCommit) (s : S) : S :=
  fold_left (fun s b => cb None (Some b) s) bs s.

(** [diffSegmentsWithDatabase] matches up segment positions with their
    database information.  The first loop runs while both slices are
    non-empty; the two trailing loops drain what is left. *)
Fixpoint diffSegmentsWithDatabase (as_ : list SegmentPosition)
         (bs : list segmentInfoForCommit) (s : S) {struct as_} : S :=
  match as_ with
  | [] => drain_bs bs (drain_as [] s)
  | a :: as' =>
      (fix walk_bs (bs : list segmentInfoForCommit) (s : S) {struct bs} : S :=
         match bs with
         | [] => drain_bs [] (drain_as (a :: as') s)
         | b :: bs' =>
             if pos_eqb a (Position b) then
               diffSegmentsWithDatabase as' bs' (cb (Some a) (Some b) s)
             else if Less a (Position b) then
               diffSegmentsWithDatabase as' (b :: bs') (cb (Some a) None s)
             else
               walk_bs bs' (cb None (Some b) s)
         end) bs s
  end.
End Diff.

(** The variables [determineCommitActions] closes over. *)
Record commitActions := mkActions {
  invalidSegments : list SegmentPosition;  (* errs.Group *)
  commit          : list segmentToCommit;
  toDelete        : list SegmentPosition
}.

(** The callback [determineCommitActions] passes to the walk. *)
Definition commitCallback (a : option SegmentPosition)
           (b : option segmentInfoForCommit) (s : commitActions) : commitActions :=
  match b with
  | None =>
      match a with
      | Some a => mkActions (invalidSegments s ++ [a]) (commit s) (toDelete s)
      | None => s (* never called with two nil pointers *)
      end
  | Some b =>
      match a with
      | None => mkActions (invalidSegments s) (commit s) (toDelete s ++ [Position b])
      | Some a =>
          mkActions (invalidSegments s)
                    (commit s ++ [mkCommit a (PlainOffset b) (PlainSize b) (EncryptedSize b)])
                    (toDelete s)
      end
  end.

(** State of the three accumulators when the walk has ended. *)
Definition commitWalk (segments : list SegmentPosition)
           (segmentsInDatabase : list segmentInfoForCommit) : commitActions :=
  diffSegmentsWithDatabase commitCallback segments segmentsInDatabase
                           (mkActions [] [] []).

(** [determineCommitActions] detects how should the database be updated and
    which segments should be deleted. *)
Definition determineCommitActions (segments : list SegmentPosition)
           (segmentsInDatabase : list segmentInfoForCommit)
  : error + (list segmentToCommit * list SegmentPosition) :=
  let s := commitWalk segments segmentsInDatabase in
  match invalidSegments s with
  | [] => inr (commit s, toDelete s)
  | _ :: _ => inl (ErrSegmentsMismatch (invalidSegments s))
  end.

(* ================================================================== *)
(** ** The store *)

Definition UUID := Z.       (* uuid.UUID, 16 bytes *)
Definition PieceID := Z.    (* storj.PieceID, 32 bytes *)
Definition bytes := list Byte.byte.

(** A remote piece: piece number and storage node. *)
Record Piece := mkPiece { Number : Z; StorageNode : Z }.
Definition Pieces := list Piece.

(** A row of the [segments] table, with the columns the statements of this
    file read or write.  The [position] column holds the key of a segment
    position; the row keeps the position itself and the statements that
    take keys compare through [position_key]. *)
Record segmentRow := mkSegmentRow {
  seg_stream_id      : UUID;
  seg_position       : SegmentPosition;
  seg_encrypted_size : Z;
  seg_plain_offset   : Z;
  seg_plain_size     : Z;
  seg_root_piece_id  : PieceID;
  seg_remote_pieces  : Pieces
}.

(** Modelled from the spec: the constants [pendingStatus] and
    [committedStatus] are declared outside commit_object.go; an object is
    either Pending or Committed. *)
Inductive ObjectStatus := Pending | Committed.

Definition status_eqb (a b : ObjectStatus) : bool :=
  match a, b with
  | Pending, Pending | Committed, Committed => true
  | _, _ => false
  end.

(** A row of the [objects] table. *)
Record objectRow := mkObjectRow {
  obj_project_id  : UUID;
  obj_bucket_name : string;
  obj_object_key  : string;
  obj_version     : Z;
  obj_stream_id   : UUID;
  obj_status      : ObjectStatus;
  obj_segment_count : Z;
  obj_encrypted_metadata_nonce         : bytes;
  obj_encrypted_metadata               : bytes;
  obj_encrypted_metadata_encrypted_key : bytes;
  obj_total_plain_size     : Z;
  obj_total_encrypted_size : Z;
  obj_fixed_segment_size   : Z;
  obj_zombie_deletion_deadline : option Z;
  obj_created_at : Z;
  obj_expires_at : option Z;
  obj_encryption : Z
}.

Record Store := mkStore {
  objects  : list objectRow;
  segments : list segmentRow
}.

(** Code that runs inside a transaction: it reads and writes the tables and
    either fails or returns a value. *)
Definition Tx (A : Type) : Type := Store -> (error + A) * Store.

Definition tx_ret {A} (a : A) : Tx A := fun tx => (inr a, tx).

Definition tx_fail {A} (e : error) : Tx A := fun tx => (inl e, tx).

Definition tx_bind {A B} (m : Tx A) (k : A -> Tx B) : Tx B :=
  fun tx =>
    match m tx with
    | (inl e, tx') => (inl e, tx')
    | (inr a, tx') => k a tx'
    end.

Definition tx_lift {A} (r : error + A) : Tx A :=
  match r with
  | inl e => tx_fail e
  | inr a => tx_ret a
  end.

Notation "x <- m ;; k" := (tx_bind m (fun x => k))
  (at level 61, m at next level, right associativity).
Notation "' p <- m ;; k" := (tx_bind m (fun x => let p := x in k))
  (at level 61, p pattern, m at next level, right associativity).

(** Modelled from the spec: [txutil.WithTx] lives outside commit_object.go.
    It is a scoped transaction: the writes of the function become visible
    when it returns without error, and are all rolled back when it fails. *)
Definition WithTx {A} (db : Store) (fn : Tx A) : (error + A) * Store :=
  match fn db with
  | (inr a, tx) => (inr a, tx)
  | (inl e, _) => (inl e, db)
  end.

(* ------------------------------------------------------------------ *)
(** *** fetchSegmentsForCommit *)

(** [ORDER BY position]: the column [position] is an INT8 and holds the key
    [int64(p.Encode())] (the statements below send that key and compare the
    column with it), so the store orders the rows by the signed key, not by
    [Less].  The two orders differ once a part number reaches [2 ^ 31],
    where the key turns negative.  The sort is an insertion sort on the
    key. *)
Fixpoint insert_by_position (r : segmentRow) (l : list segmentRow) : list segmentRow :=
  match l with
  | [] => [r]
  | x :: l' =>
      if position_key (seg_position x) <? position_key (seg_position r)
      then x :: insert_by_position r l'
      else r :: x :: l'
  end.

Definition order_by_position (l : list segmentRow) : list segmentRow :=
  fold_right insert_by_position [] l.

(** [rows.Scan(&segment.Position, &segment.EncryptedSize,
               &segment.PlainOffset, &segment.PlainSize)] *)
Definition scan_segment (r : segmentRow) : segmentInfoForCommit :=
  mkInfo (seg_position r) (seg_encrypted_size r) (seg_plain_offset r) (seg_plain_size r).

(** [SELECT position, encrypted_size, plain_offset, plain_size FROM segments
     WHERE stream_id = $1 ORDER BY position] *)
Definition select_segments (streamID : UUID) (rows : list segmentRow) : list segmentRow :=
  order_by_position (filter (fun r => seg_stream_id r =? streamID) rows).

(** [fetchSegmentsForCommit] loads information necessary for validating
    segment existence and offsets. *)
Definition fetchSegmentsForCommit (streamID : UUID) : Tx (list segmentInfoForCommit) :=
  fun tx => (inr (map scan_segment (select_segments streamID (segments tx))), tx).

(* ------------------------------------------------------------------ *)
(** *** updateSegmentOffsets *)

(** The local [update] struct of [updateSegmentOffsets]. *)
Record offsetUpdate := mkOffsetUpdate {
  Positions    : list Z;
  PlainOffsets : list Z
}.

(** The loop over [updates], from a given [expectedOffset] and [update]. *)
Fixpoint offsets_loop (updates : list segmentToCommit) (expectedOffset : Z)
         (update : offsetUpdate) : offsetUpdate :=
  match updates with
  | [] => update
  | u :: rest =>
      let update' :=
        if negb (cOldPlainOffset u =? expectedOffset) then
          mkOffsetUpdate (Positions update ++ [position_key (cPosition u)])
                         (PlainOffsets update ++ [expectedOffset])
        else update in
      offsets_loop rest (int64 (expectedOffset + int64 (cPlainSize u))) update'
  end.

Definition offsetUpdates (updates : list segmentToCommit) : offsetUpdate :=
  offsets_loop updates 0 (mkOffsetUpdate [] []).

(** The derived table [P(position, plain_offset)] built from the two arrays
    by [SELECT unnest($2::INT8[]), unnest($3::INT8[])]. *)
Definition unnest2 (u : offsetUpdate) : list (Z * Z) :=
  combine (Positions u) (PlainOffsets u).

(** The first row of [P] with the given position. *)
Fixpoint P_find (key : Z) (P : list (Z * Z)) : option Z :=
  match P with
  | [] => None
  | (k, o) :: P' => if k =? key then Some o else P_find key P'
  end.

(** The row of [segments] joined with [P], if any:
    [segments.stream_id = $1 AND segments.position = P.position]. *)
Definition offset_for (streamID : UUID) (P : list (Z * Z)) (r : segmentRow) : option Z :=
  if seg_stream_id r =? streamID
  then P_find (position_key (seg_position r)) P
  else None.

Definition set_plain_offset (r : segmentRow) (o : Z) : segmentRow :=
  mkSegmentRow (seg_stream_id r) (seg_position r) (seg_encrypted_size r)
               o (seg_plain_size r) (seg_root_piece_id r) (seg_remote_pieces r).

(** The row after [SET plain_offset = P.plain_offset]; a row that joins
    with no row of [P] is left as it is. *)
Definition apply_offset (streamID : UUID) (P : list (Z * Z)) (r : segmentRow) : segmentRow :=
  match offset_for streamID P r with
  | Some o => set_plain_offset r o
  | None => r
  end.

Definition joins (streamID : UUID) (P : list (Z * Z)) (r : segmentRow) : bool :=
  match offset_for streamID P r with
  | Some _ => true
  | None => false
  end.

(** [UPDATE segments SET plain_offset = P.plain_offset FROM ... AS P
     WHERE segments.stream_id = $1 AND segments.position = P.position]:
    the new rows and the number of rows affected. *)
Definition exec_update_offsets (streamID : UUID) (P : list (Z * Z))
           (rows : list segmentRow) : list segmentRow * Z :=
  (map (apply_offset streamID P) rows,
   Z.of_nat (length (filter (joins streamID P) rows))).

(** [updateSegmentOffsets] updates segment offsets that didn't match the
    database state. *)
Definition updateSegmentOffsets (streamID : UUID) (updates : list segmentToCommit)
  : Tx unit :=
  fun tx =>
    match updates with
    | [] => (inr tt, tx)
    | _ :: _ =>
        let update := offsetUpdates updates in
        match Positions update with
        | [] => (inr tt, tx)
        | _ :: _ =>
            let '(rows, affected) :=
              exec_update_offsets streamID (unnest2 update) (segments tx) in
            let tx' := mkStore (objects tx) rows in
            if negb (affected =? Z.of_nat (length (Positions update))) then
              (inl (ErrNotAllUpdated (Z.of_nat (length (Positions update))) affected), tx')
            else (inr tt, tx')
        end
    end.

(* ------------------------------------------------------------------ *)
(** *** deleteSegmentsNotInCommit *)

Record DeletedSegmentInfo := mkDeleted {
  RootPieceID : PieceID;
  DeletedPieces : Pieces
}.

(** [storj.PieceID.IsZero] *)
Definition IsZero (id : PieceID) : bool := id =? 0.

(** [stream_id = $1 AND position = ANY($2)] *)
Definition delete_matches (streamID : UUID) (positions : list Z) (r : segmentRow) : bool :=
  (seg_stream_id r =? streamID) &&
  existsb (fun k => position_key (seg_position r) =? k) positions.

(** The loop over the rows the [DELETE ... RETURNING root_piece_id,
    remote_pieces] statement returns. *)
Fixpoint scan_deleted (rows : list segmentRow) (deletedSegments : list DeletedSegmentInfo)
  : list DeletedSegmentInfo :=
  match rows with
  | [] => deletedSegments
  | r :: rows' =>
      let deleted := mkDeleted (seg_root_piece_id r) (seg_remote_pieces r) in
      (* we don't need to report info about inline segments *)
      if IsZero (RootPieceID deleted) then scan_deleted rows' deletedSegments
      else scan_deleted rows' (deletedSegments ++ [deleted])
  end.

(** [deleteSegmentsNotInCommit] deletes the listed segments inside the tx. *)
Definition deleteSegmentsNotInCommit (streamID : UUID) (segs : list SegmentPosition)
  : Tx (list DeletedSegmentInfo) :=
  fun tx =>
    match segs with
    | [] => (inr [], tx)
    | _ :: _ =>
        let positions := map position_key segs in
        let returned := filter (delete_matches streamID positions) (segments tx) in
        let kept := filter (fun r => negb (delete_matches streamID positions r)) (segments tx) in
        (inr (scan_deleted returned []), mkStore (objects tx) kept)
    end.

(* ------------------------------------------------------------------ *)
(** *** CommitObjectWithSegments *)

(** Modelled from the spec: the type [ObjectStream] is declared outside
    commit_object.go; it is the identity
    {project id, bucket name, object key, version, stream id}. *)
Record ObjectStream := mkObjectStream {
  ProjectID  : UUID;
  BucketName : string;
  ObjectKey  : string;
  Version    : Z;
  StreamID   : UUID
}.

(** [CommitObjectWithSegments] (the struct) contains arguments necessary for
    committing an object. *)
Record CommitObjectWithSegmentsOpts := mkOpts {
  Stream : ObjectStream;
  EncryptedMetadata             : bytes;
  EncryptedMetadataNonce        : bytes;
  EncryptedMetadataEncryptedKey : bytes;
  Segments : list SegmentPosition
}.

(** Modelled from the spec: the type [Object] is declared outside
    commit_object.go; these are the fields the function fills in. *)
Record Object := mkObject {
  oStream : ObjectStream;
  oCreatedAt : Z;
  oExpiresAt : option Z;
  oStatus : ObjectStatus;
  oSegmentCount : Z;  (* int32 *)
  oEncryptedMetadataNonce        : bytes;
  oEncryptedMetadata             : bytes;
  oEncryptedMetadataEncryptedKey : bytes;
  oTotalPlainSize     : Z;  (* int64 *)
  oTotalEncryptedSize : Z;  (* int64 *)
  oFixedSegmentSize   : Z;  (* int32 *)
  oEncryption : Z
}.

(** The loop [for i, seg := range finalSegments] that computes
    [fixedSegmentSize], from index [i] on; [n] is [len(finalSegments)]. *)
Fixpoint fixedSegmentSize_loop (n : Z) (i : Z) (fixedSegmentSize : Z)
         (rest : list segmentToCommit) : Z :=
  match rest with
  | [] => fixedSegmentSize
  | seg :: rest' =>
      if negb (Part (cPosition seg) =? 0) then -1
      else if (i <? n - 1) && negb (cEncryptedSize seg =? fixedSegmentSize) then -1
      else fixedSegmentSize_loop n (i + 1) fixedSegmentSize rest'
  end.

Definition fixedSegmentSize (finalSegments : list segmentToCommit) : Z :=
  match finalSegments with
  | [] => 0
  | first :: _ =>
      fixedSegmentSize_loop (Z.of_nat (length finalSegments)) 0
                            (cEncryptedSize first) finalSegments
  end.

(** [totalPlainSize] and [totalEncryptedSize] after the second loop. *)
Definition totalSizes (finalSegments : list segmentToCommit) : Z * Z :=
  fold_left (fun '(totalPlainSize, totalEncryptedSize) seg =>
               (int64 (totalPlainSize + int64 (cPlainSize seg)),
                int64 (totalEncryptedSize + int64 (cEncryptedSize seg))))
            finalSegments (0, 0).

(** The [WHERE] clause of the final update. *)
Definition pending_object (s : ObjectStream) (o : objectRow) : bool :=
  (obj_project_id o =? ProjectID s) &&
  String.eqb (obj_bucket_name o) (BucketName s) &&
  String.eqb (obj_object_key o) (ObjectKey s) &&
  (obj_version o =? Version s) &&
  (obj_stream_id o =? StreamID s) &&
  status_eqb (obj_status o) Pending.

(** The [SET] clause of the final update. *)
Definition set_committed (opts : CommitObjectWithSegmentsOpts)
           (segment_count totalPlainSize totalEncryptedSize fixedSize : Z)
           (o : objectRow) : objectRow :=
  mkObjectRow (obj_project_id o) (obj_bucket_name o) (obj_object_key o)
              (obj_version o) (obj_stream_id o)
              Committed
              segment_count
              (EncryptedMetadataNonce opts)
              (EncryptedMetadata opts)
              (EncryptedMetadataEncryptedKey opts)
              totalPlainSize totalEncryptedSize fixedSize
              None
              (obj_created_at o) (obj_expires_at o) (obj_encryption o).

(** [UPDATE objects SET ... WHERE ... AND status = pending
     RETURNING created_at, expires_at, encryption], read with
    [QueryRow(...).Scan]: the first returned row, or [sql.ErrNoRows],
    which the caller turns into [storj.ErrObjectNotFound]. *)
Definition updateObject (opts : CommitObjectWithSegmentsOpts)
           (segment_count totalPlainSize totalEncryptedSize fixedSize : Z)
  : Tx (Z * option Z * Z) :=
  fun tx =>
    let rows :=
      map (fun o => if pending_object (Stream opts) o
                    then set_committed opts segment_count totalPlainSize
                                       totalEncryptedSize fixedSize o
                    else o) (objects tx) in
    let tx' := mkStore rows (segments tx) in
    match filter (pending_object (Stream opts)) (objects tx) with
    | [] => (inl ErrObjectNotFound, tx')
    | o :: _ => (inr (obj_created_at o, obj_expires_at o, obj_encryption o), tx')
    end.

(** The part of the transaction that works on the [segments] table:
    snapshot, reconciliation, offset rewrite and deletion. *)
Definition stageSegments (opts : CommitObjectWithSegmentsOpts)
  : Tx (list segmentToCommit * list DeletedSegmentInfo) :=
  segmentsInDatabase <- fetchSegmentsForCommit (StreamID (Stream opts)) ;;
  '(finalSegments, segmentsToDelete) <-
     tx_lift (determineCommitActions (Segments opts) segmentsInDatabase) ;;
  _ <- updateSegmentOffsets (StreamID (Stream opts)) finalSegments ;;
  deletedSegments <- deleteSegmentsNotInCommit (StreamID (Stream opts)) segmentsToDelete ;;
  tx_ret (finalSegments, deletedSegments).

(** The rest of the transaction: the aggregates, the conditional update of
    the object row and the returned [Object]. *)
Definition finishCommit (opts : CommitObjectWithSegmentsOpts)
           (finalSegments : list segmentToCommit) : Tx Object :=
  let fixedSize := fixedSegmentSize finalSegments in
  let '(totalPlainSize, totalEncryptedSize) := totalSizes finalSegments in
  '(created_at, expires_at, encryption) <-
     updateObject opts (Z.of_nat (length finalSegments))
                  totalPlainSize totalEncryptedSize fixedSize ;;
  tx_ret (mkObject (Stream opts) created_at expires_at Committed
                   (int32 (Z.of_nat (length finalSegments)))
                   (EncryptedMetadataNonce opts)
                   (EncryptedMetadata opts)
                   (EncryptedMetadataEncryptedKey opts)
                   totalPlainSize totalEncryptedSize fixedSize
                   encryption).

(** The function [CommitObjectWithSegments] runs inside the transaction. *)
Definition commitTx (opts : CommitObjectWithSegmentsOpts)
  : Tx (Object * list DeletedSegmentInfo) :=
  '(finalSegments, deletedSegments) <- stageSegments opts ;;
  object <- finishCommit opts finalSegments ;;
  tx_ret (object, deletedSegments).

(** [CommitObjectWithSegments] commits pending object to the database.
    [Verify] stands for the method [ObjectStream.Verify], which is declared
    outside commit_object.go. *)
Definition CommitObjectWithSegments (Verify : ObjectStream -> option error)
           (db : Store) (opts : CommitObjectWithSegmentsOpts)
  : (error + (Object * list DeletedSegmentInfo)) * Store :=
  match Verify (Stream opts) with
  | Some err => (inl err, db)
  | None =>
      match verifySegmentOrder (Segments opts) with
      | Some err => (inl err, db)
      | None => WithTx db (commitTx opts)
      end
  end.

(* ================================================================== *)
(** ** Vocabulary of the statements *)

(** A list of positions in ascending order: every element is [Less] than
    every later one. *)
Definition ascending (l : list SegmentPosition) : Prop :=
  StronglySorted (fun a b => Less a b = true) l.

(** The positions of a snapshot. *)
Definition positions (bs : list segmentInfoForCommit) : list SegmentPosition :=
  map Position bs.

Definition mem_pos (p : SegmentPosition) (l : list SegmentPosition) : bool :=
  existsb (pos_eqb p) l.

(** The commit entry a snapshot row gives. *)
Definition toCommit (b : segmentInfoForCommit) : segmentToCommit :=
  mkCommit (Position b) (PlainOffset b) (PlainSize b) (EncryptedSize b).

Definition sumZ (l : list Z) : Z := fold_right Z.add 0 l.

(** What the walk appends to the three accumulators, for ascending inputs:
    the client positions the snapshot lacks, the snapshot rows the client
    lists, and the snapshot positions the client does not list. *)
Definition missing_positions (as_ : list SegmentPosition)
           (bs : list segmentInfoForCommit) : list SegmentPosition :=
  filter (fun a => negb (mem_pos a (positions bs))) as_.

Definition kept_rows (as_ : list SegmentPosition)
           (bs : list segmentInfoForCommit) : list segmentInfoForCommit :=
  filter (fun b => mem_pos (Position b) as_) bs.

Definition orphan_positions (as_ : list SegmentPosition)
           (bs : list segmentInfoForCommit) : list SegmentPosition :=
  filter (fun p => negb (mem_pos p as_)) (positions bs).

(** Two neighbours of a list: the elements at indices [i] and [i + 1]. *)
Definition adjacent {A} (l : list A) (a b : A) : Prop :=
  exists i, nth_error l i = Some a /\ nth_error l (S i) = Some b.

(** The two reasons for which the sizes of a commit set vary: a segment in
    a part other than part 0, or a segment other than the last one whose
    encrypted size differs from the given size. *)
Definition multipart (l : list segmentToCommit) : Prop :=
  exists seg, In seg l /\ Part (cPosition seg) <> 0.

Definition nonlast_differs (size : Z) (l : list segmentToCommit) : Prop :=
  exists i seg, nth_error l i = Some seg /\ (S i < length l)%nat /\
                cEncryptedSize seg <> size.

(** The rows of a stream, in table order. *)
Definition stream_rows (streamID : UUID) (rows : list segmentRow) : list segmentRow :=
  filter (fun r => seg_stream_id r =? streamID) rows.

(** What the [segments] table guarantees for a stream: the primary key
    [(stream_id, position)] admits one row per position, and the stored
    positions are positions (two unsigned 32-bit numbers). *)
Definition segments_wf (streamID : UUID) (rows : list segmentRow) : Prop :=
  NoDup (map seg_position (stream_rows streamID rows)) /\
  Forall (fun r => valid_position (seg_position r)) (stream_rows streamID rows).

(** Rows in (weakly) ascending order of the key of their position. *)
Definition rows_ordered (l : list segmentRow) : Prop :=
  StronglySorted
    (fun x y => position_key (seg_position x) <= position_key (seg_position y)) l.

(** The expected plain offset of the segment at index [i] of a commit list:
    the sum of the plain sizes of the segments before it. *)
Definition expectedOffset (updates : list segmentToCommit) (i : nat) : Z :=
  sumZ (map cPlainSize (firstn i updates)).

Definition expectedOffsets (updates : list segmentToCommit) : list Z :=
  map (expectedOffset updates) (seq 0 (length updates)).

(** The values the variable [expectedOffset] of [updateSegmentOffsets] takes
    at the successive iterations, from a given start. *)
Fixpoint runningOffsets (updates : list segmentToCommit) (e : Z) : list Z :=
  match updates with
  | [] => []
  | u :: rest => e :: runningOffsets rest (int64 (e + int64 (cPlainSize u)))
  end.

(** A segment whose stored offset differs from the offset paired with it. *)
Definition stale (ue : segmentToCommit * Z) : bool :=
  negb (cOldPlainOffset (fst ue) =? snd ue).

(** The batch for a list of offsets: the stale segments, each as its key
    with the offset paired with it. *)
Definition batch_of (updates : list segmentToCommit) (offsets : list Z) : list (Z * Z) :=
  map (fun ue => (position_key (cPosition (fst ue)), snd ue))
      (filter stale (combine updates offsets)).

(** Plain sizes are 32-bit and the list is short enough for the running sum
    to stay within 64 bits. *)
Definition sizes_in_range (updates : list segmentToCommit) : Prop :=
  Forall (fun u => is_int32 (cPlainSize u)) updates /\
  Z.of_nat (length updates) <= 2 ^ 32.

(** Rows with their plain offsets replaced by the given ones, in order. *)
Definition set_offsets (rows : list segmentRow) (offsets : list Z) : list segmentRow :=
  map (fun re => set_plain_offset (fst re) (snd re)) (combine rows offsets).

(** The commit entry of a row of the table. *)
Definition row_toCommit (r : segmentRow) : segmentToCommit :=
  toCommit (scan_segment r).

(** What [fetchSegmentsForCommit] returns for a table. *)
Definition snapshot (streamID : UUID) (rows : list segmentRow) : list segmentInfoForCommit :=
  map scan_segment (select_segments streamID rows).

(** The rows of the stream the client lists, in the order of the snapshot. *)
Definition kept_segment_rows (streamID : UUID) (rows : list segmentRow)
           (A : list SegmentPosition) : list segmentRow :=
  filter (fun r => mem_pos (seg_position r) A) (select_segments streamID rows).

(** The key of a row's position. *)
Definition row_key (r : segmentRow) : Z := position_key (seg_position r).

(** The commit list and the delete list staging works with, for a table and
    a client list: the rows the client lists, and the positions of the
    snapshot it does not list. *)
Definition staged_commit (streamID : UUID) (rows : list segmentRow)
           (A : list SegmentPosition) : list segmentToCommit :=
  map row_toCommit (kept_segment_rows streamID rows A).

Definition staged_delete (streamID : UUID) (rows : list segmentRow)
           (A : list SegmentPosition) : list SegmentPosition :=
  orphan_positions A (snapshot streamID rows).

(** The reconciliation of a client list with the rows of a stream went
    through, with this commit list and this delete list. *)
Definition reconciled (streamID : UUID) (rows : list segmentRow)
           (A : list SegmentPosition) : Prop :=
  determineCommitActions A (snapshot streamID rows) =
  inr (staged_commit streamID rows A, staged_delete streamID rows A).

(** The batch staging sends to the store. *)
Definition staged_batch (streamID : UUID) (rows : list segmentRow)
           (A : list SegmentPosition) : list (Z * Z) :=
  let C := staged_commit streamID rows A in
  batch_of C (runningOffsets C 0).

(** The table after the offset rewrite and the deletion. *)
Definition staged_rows (streamID : UUID) (rows : list segmentRow)
           (A : list SegmentPosition) : list segmentRow :=
  filter (fun r => negb (delete_matches streamID
                           (map position_key (staged_delete streamID rows A)) r))
         (map (apply_offset streamID (staged_batch streamID rows A)) rows).

(** The rows the [DELETE] statement returns. *)
Definition staged_deleted_rows (streamID : UUID) (rows : list segmentRow)
           (A : list SegmentPosition) : list segmentRow :=
  filter (delete_matches streamID (map position_key (staged_delete streamID rows A)))
         (map (apply_offset streamID (staged_batch streamID rows A)) rows).

(** The rows of the stream at positions strictly lower than [p]. *)
Definition rows_below (streamID : UUID) (p : SegmentPosition)
           (rows : list segmentRow) : list segmentRow :=
  filter (fun x => (seg_stream_id x =? streamID) && Less (seg_position x) p) rows.

(** The plain sizes stored for a stream are 32-bit values. *)
Definition plain_sizes_int32 (streamID : UUID) (rows : list segmentRow) : Prop :=
  Forall (fun r => is_int32 (seg_plain_size r)) (stream_rows streamID rows).

(** *** A small store for the examples

    One pending object with stream id 7 and three segments at positions
    (0,0), (0,1) and (0,2), stored out of order and all with plain offset 0;
    the segment at (0,1) is remote in [example_store] and inline in
    [example_store_inline].  A segment of another stream sits in the same
    table. *)
Definition example_stream : ObjectStream := mkObjectStream 1 "bucket" "key" 1 7.

Definition example_object (status : ObjectStatus) : objectRow :=
  mkObjectRow 1 "bucket" "key" 1 7 status 0 [] [] [] 0 0 0 (Some 5) 100 None 3.

Definition example_segment (index plain_offset plain_size root : Z) : segmentRow :=
  mkSegmentRow 7 (mkPos 0 index) (plain_size + 16) plain_offset plain_size root
               [mkPiece 1 2].

Definition other_segment : segmentRow :=
  mkSegmentRow 8 (mkPos 0 1) 17 0 1 4 [].

Definition example_segments (root1 : Z) : list segmentRow :=
  [example_segment 2 0 10 9; example_segment 0 0 10 8; other_segment;
   example_segment 1 0 10 root1].

Definition example_store : Store :=
  mkStore [example_object Pending] (example_segments 5).

Definition example_store_inline : Store :=
  mkStore [example_object Pending] (example_segments 0).

Definition example_opts (segs : list SegmentPosition) : CommitObjectWithSegmentsOpts :=
  mkOpts example_stream [] [] [] segs.

(** A [Verify] that accepts every stream. *)
Definition verify_ok (s : ObjectStream) : option error := None.

(** The example store once its object has been committed. *)
Definition example_store_committed : Store :=
  mkStore [example_object Committed] (example_segments 5).

(** The row is one of the stream at one of the given positions. *)
Definition at_positions (streamID : UUID) (segs : list SegmentPosition)
           (r : segmentRow) : bool :=
  (seg_stream_id r =? streamID) && mem_pos (seg_position r) segs.

(** What is reported for a deleted row. *)
Definition deleted_info (r : segmentRow) : DeletedSegmentInfo :=
  mkDeleted (seg_root_piece_id r) (seg_remote_pieces r).

(** A remote segment: its root piece identifier is not zero. *)
Definition is_remote (r : segmentRow) : bool := negb (IsZero (seg_root_piece_id r)).

(** The stored plain offsets of a snapshot are already the running sums of
    the plain sizes before them. *)
Definition contiguous_offsets (bs : list segmentInfoForCommit) : Prop :=
  forall i b, nth_error bs i = Some b ->
              PlainOffset b = sumZ (map PlainSize (firstn i bs)).

(** Two segments uploaded one after the other, both stored with plain
    offset 0, under a pending object. *)
Definition fresh_upload_store : Store :=
  mkStore [example_object Pending]
          [example_segment 0 0 10 8; example_segment 1 0 10 5].

(** A row of the stream at a position the client does not list. *)
Definition orphan_row (streamID : UUID) (A : list SegmentPosition)
           (r : segmentRow) : bool :=
  (seg_stream_id r =? streamID) && negb (mem_pos (seg_position r) A).

(** A row with its plain offset left out. *)
Definition forget_offset (r : segmentRow) : segmentRow := set_plain_offset r 0.

(** *** The calls of the walk

    A call of the callback, as its two arguments, and the callback that
    only records its calls. *)
Definition callback_call : Type :=
  (option SegmentPosition * option segmentInfoForCommit)%type.

Definition record_call (a : option SegmentPosition) (b : option segmentInfoForCommit)
           (t : list callback_call) : list callback_call :=
  t ++ [(a, b)].

(** The calls [diffSegmentsWithDatabase] makes, in order. *)
Definition diff_calls (as_ : list SegmentPosition) (bs : list segmentInfoForCommit)
  : list callback_call :=
  diffSegmentsWithDatabase record_call as_ bs [].

(** Running a callback over recorded calls. *)
Definition replay {S} (cb : option SegmentPosition -> option segmentInfoForCommit -> S -> S)
           (t : list callback_call) (s : S) : S :=
  fold_left (fun s c => cb (fst c) (snd c) s) t s.

(** The non-nil first arguments, and the non-nil second arguments. *)
Definition client_args (t : list callback_call) : list SegmentPosition :=
  flat_map (fun c => match fst c with Some a => [a] | None => [] end) t.

Definition store_args (t : list callback_call) : list segmentInfoForCommit :=
  flat_map (fun c => match snd c with Some b => [b] | None => [] end) t.

(** A call the walk may make: a pair of equal positions, or one side only. *)
Definition aligned_call (c : callback_call) : Prop :=
  match c with
  | (Some a, Some b) => a = Position b
  | (Some _, None) | (None, Some _) => True
  | (None, None) => False
  end.

(** What the callback of [determineCommitActions] appends for a call: to the
    group of errors, to the commit list and to the delete list. *)
Definition call_invalid (c : callback_call) : list SegmentPosition :=
  match c with
  | (Some a, None) => [a]
  | _ => []
  end.

Definition call_commit (c : callback_call) : list segmentToCommit :=
  match c with
  | (Some a, Some b) => [mkCommit a (PlainOffset b) (PlainSize b) (EncryptedSize b)]
  | _ => []
  end.

Definition call_delete (c : callback_call) : list SegmentPosition :=
  match c with
  | (None, Some b) => [Position b]
  | _ => []
  end.

(** The rows the callback of [determineCommitActions] commits and the rows
    it puts on the delete list, call by call. *)
Definition call_kept (c : callback_call) : list segmentInfoForCommit :=
  match c with
  | (Some _, Some b) => [b]
  | _ => []
  end.

Definition call_dropped (c : callback_call) : list segmentInfoForCommit :=
  match c with
  | (None, Some b) => [b]
  | _ => []
  end.

(** Every position of the list has a row in the stream. *)
Definition all_uploaded (streamID : UUID) (rows : list segmentRow)
           (A : list SegmentPosition) : Prop :=
  forall p, In p A ->
            exists r, In r rows /\ seg_stream_id r = streamID /\ seg_position r = p.

(** Some object row is pending for the stream. *)
Definition has_pending (s : ObjectStream) (rows : list objectRow) : Prop :=
  exists o, In o rows /\ pending_object s o = true.

(** Every key of the batch is the key of a row of the stream. *)
Definition batch_rows_exist (streamID : UUID) (rows : list segmentRow)
           (keys : list Z) : Prop :=
  forall k, In k keys ->
            exists r, In r rows /\ seg_stream_id r = streamID /\ row_key r = k.

(** The columns of an object row the final update does not assign. *)
Definition object_kept_columns (o : objectRow)
  : UUID * string * string * Z * UUID * Z * option Z * Z :=
  (obj_project_id o, obj_bucket_name o, obj_object_key o, obj_version o,
   obj_stream_id o, obj_created_at o, obj_expires_at o, obj_encryption o).

(** A row of another stream. *)
Definition other_stream (streamID : UUID) (r : segmentRow) : bool :=
  negb (seg_stream_id r =? streamID).

(** The encrypted sizes stored for a stream are 32-bit values. *)
Definition encrypted_sizes_int32 (streamID : UUID) (rows : list segmentRow) : Prop :=
  Forall (fun r => is_int32 (seg_encrypted_size r)) (stream_rows streamID rows).

(** The example store with a second pending object, for stream 8. *)
Definition other_stream_object : objectRow :=
  mkObjectRow 1 "bucket" "other" 1 8 Pending 0 [] [] [] 0 0 0 None 200 None 3.

Definition two_stream_store : Store :=
  mkStore [example_object Pending; other_stream_object] (example_segments 5).

Definition other_stream_opts : CommitObjectWithSegmentsOpts :=
  mkOpts (mkObjectStream 1 "bucket" "other" 1 8) [] [] [] [mkPos 0 1].

(** A position with a part number from [2 ^ 31] on: the top bit of the
    part number is set and the key of the position is negative. *)
Definition high_part (p : SegmentPosition) : bool := 2 ^ 31 <=? Part p.

(** The order of the keys and the order [Less] disagree on a client list and
    the rows of a stream: the list holds a position with a part number below
    [2 ^ 31], and the stream a row with a part number from [2 ^ 31] on. *)
Definition order_conflict (streamID : UUID) (rows : list segmentRow)
           (A : list SegmentPosition) : Prop :=
  (exists p, In p A /\ high_part p = false) /\
  (exists r, In r rows /\ seg_stream_id r = streamID /\
             high_part (seg_position r) = true).

(** A stream with a segment in part [2 ^ 31] and a segment in part 0. *)
Definition high_part_store : Store :=
  mkStore [example_object Pending]
          [example_segment 0 0 10 8;
           mkSegmentRow 7 (mkPos (2 ^ 31) 0) 26 10 10 9 [mkPiece 1 2]].

(* ================================================================== *)
(** * Properties *)

(** ** Machine integers and the position order *)

Lemma int64_id x : is_int64 x -> int64 x = x.
Proof.
  unfold is_int64, int64. intros H.
  rewrite Z.mod_small; lia.
Qed.

Lemma int32_id x : is_int32 x -> int32 x = x.
Proof.
  unfold is_int32, int32. intros H.
  rewrite Z.mod_small; lia.
Qed.

Lemma is_int32_int64 x : is_int32 x -> is_int64 x.
Proof. unfold is_int32, is_int64. lia. Qed.

Lemma pos_eqb_eq a b : pos_eqb a b = true <-> a = b.
Proof.
  unfold pos_eqb. destruct a as [pa ia], b as [pb ib]; simpl.
  rewrite andb_true_iff, !Z.eqb_eq. split.
  - intros [-> ->]. reflexivity.
  - intros H. injection H as -> ->. auto.
Qed.

Lemma pos_eqb_refl a : pos_eqb a a = true.
Proof. apply pos_eqb_eq. reflexivity. Qed.

Lemma pos_eqb_neq a b : pos_eqb a b = false <-> a <> b.
Proof.
  rewrite <- pos_eqb_eq. destruct (pos_eqb a b); split; congruence.
Qed.

Lemma Less_spec a b :
  Less a b = true <->
  Part a < Part b \/ (Part a = Part b /\ Index a < Index b).
Proof.
  unfold Less.
  rewrite orb_true_iff, andb_true_iff, !Z.ltb_lt, Z.eqb_eq. tauto.
Qed.

Lemma Less_irrefl a : Less a a = false.
Proof.
  destruct (Less a a) eqn:E; [|reflexivity].
  apply Less_spec in E. lia.
Qed.

Lemma Less_trans a b c : Less a b = true -> Less b c = true -> Less a c = true.
Proof. rewrite !Less_spec. lia. Qed.

Lemma Less_asym a b : Less a b = true -> Less b a = false.
Proof.
  intros H. destruct (Less b a) eqn:E; [|reflexivity].
  apply Less_spec in H. apply Less_spec in E. lia.
Qed.

Lemma Less_total a b : Less a b = false -> a <> b -> Less b a = true.
Proof.
  intros H Hne. apply Less_spec.
  assert (N : ~ (Part a < Part b \/ (Part a = Part b /\ Index a < Index b))).
  { rewrite <- Less_spec. congruence. }
  destruct a as [pa ia], b as [pb ib]; simpl in *.
  assert (~ (pa = pb /\ ia = ib)) by (intros [-> ->]; congruence).
  lia.
Qed.

Lemma Less_neq a b : Less a b = true -> a <> b.
Proof. intros H ->. rewrite Less_irrefl in H. discriminate. Qed.

Lemma mem_pos_In p l : mem_pos p l = true <-> In p l.
Proof.
  unfold mem_pos. rewrite existsb_exists. split.
  - intros [x [Hx E]]. apply pos_eqb_eq in E. subst. assumption.
  - intros H. exists p. split; [assumption | apply pos_eqb_refl].
Qed.

Lemma mem_pos_not_In p l : mem_pos p l = false <-> ~ In p l.
Proof.
  rewrite <- mem_pos_In. destruct (mem_pos p l); split; congruence.
Qed.

Lemma ascending_inv a l :
  ascending (a :: l) -> ascending l /\ Forall (fun b => Less a b = true) l.
Proof. intros H. inversion H; subst. split; assumption. Qed.

Lemma ascending_above a l p :
  ascending (a :: l) -> In p l -> Less a p = true.
Proof.
  intros H Hin. apply ascending_inv in H as [_ H].
  rewrite Forall_forall in H. auto.
Qed.

Lemma ascending_not_In a l p :
  ascending (a :: l) -> Less p a = true \/ p = a -> ~ In p l.
Proof.
  intros H Hp Hin. pose proof (ascending_above _ _ _ H Hin) as L.
  destruct Hp as [Hp | ->].
  - apply Less_asym in Hp. congruence.
  - rewrite Less_irrefl in L. discriminate.
Qed.

Lemma ascending_NoDup l : ascending l -> NoDup l.
Proof.
  induction l as [|a l IH]; intros H; constructor.
  - eapply ascending_not_In; eauto.
  - apply IH. apply ascending_inv in H. tauto.
Qed.

Lemma ascending_filter f l : ascending l -> ascending (filter f l).
Proof.
  induction l as [|a l IH]; simpl; intros H; [constructor|].
  apply ascending_inv in H as [Hl Ha].
  destruct (f a); [|auto].
  constructor; [exact (IH Hl)|].
  apply Forall_forall. intros x Hx. apply filter_In in Hx.
  rewrite Forall_forall in Ha. apply Ha. tauto.
Qed.

(** ** The walk of [diffSegmentsWithDatabase] *)

Lemma drain_as_commit as_ s :
  drain_as commitCallback as_ s =
  mkActions (invalidSegments s ++ as_) (commit s) (toDelete s).
Proof.
  unfold drain_as. revert s.
  induction as_ as [|a as_ IH]; intros s; simpl.
  - rewrite app_nil_r. destruct s; reflexivity.
  - rewrite IH. simpl. rewrite <- app_assoc. reflexivity.
Qed.

Lemma drain_bs_commit bs s :
  drain_bs commitCallback bs s =
  mkActions (invalidSegments s) (commit s) (toDelete s ++ positions bs).
Proof.
  unfold drain_bs. revert s.
  induction bs as [|b bs IH]; intros s; simpl.
  - rewrite app_nil_r. destruct s; reflexivity.
  - rewrite IH. simpl. rewrite <- app_assoc. reflexivity.
Qed.

Lemma filter_none {A} (l : list A) : filter (fun _ => false) l = [].
Proof. induction l; simpl; auto. Qed.

Lemma filter_all {A} (l : list A) : filter (fun _ => true) l = l.
Proof. induction l; simpl; congruence. Qed.

Lemma filter_positions f bs :
  filter f (positions bs) = positions (filter (fun b => f (Position b)) bs).
Proof.
  induction bs as [|b bs IH]; simpl; [reflexivity|].
  destruct (f (Position b)); simpl; congruence.
Qed.

Lemma kept_rows_skip a as_ bs :
  ~ In a (positions bs) -> kept_rows (a :: as_) bs = kept_rows as_ bs.
Proof.
  intros H. unfold kept_rows. apply filter_ext_in. intros b Hb. simpl.
  destruct (pos_eqb (Position b) a) eqn:E; [|reflexivity].
  apply pos_eqb_eq in E. exfalso. apply H. subst a. apply in_map. assumption.
Qed.

Lemma orphan_positions_skip a as_ bs :
  ~ In a (positions bs) -> orphan_positions (a :: as_) bs = orphan_positions as_ bs.
Proof.
  intros H. unfold orphan_positions. apply filter_ext_in. intros p Hp. simpl.
  destruct (pos_eqb p a) eqn:E; [|reflexivity].
  apply pos_eqb_eq in E. subst. contradiction.
Qed.

Lemma missing_positions_skip b as_ bs :
  ~ In (Position b) as_ -> missing_positions as_ (b :: bs) = missing_positions as_ bs.
Proof.
  intros H. unfold missing_positions. apply filter_ext_in. intros p Hp. simpl.
  destruct (pos_eqb p (Position b)) eqn:E; [|reflexivity].
  apply pos_eqb_eq in E. subst. contradiction.
Qed.

Lemma missing_positions_cons a as_ bs :
  missing_positions (a :: as_) bs =
  if mem_pos a (positions bs) then missing_positions as_ bs
  else a :: missing_positions as_ bs.
Proof.
  unfold missing_positions. simpl. destruct (mem_pos a (positions bs)); reflexivity.
Qed.

Lemma kept_rows_cons as_ b bs :
  kept_rows as_ (b :: bs) =
  if mem_pos (Position b) as_ then b :: kept_rows as_ bs else kept_rows as_ bs.
Proof. reflexivity. Qed.

Lemma orphan_positions_cons as_ b bs :
  orphan_positions as_ (b :: bs) =
  if mem_pos (Position b) as_ then orphan_positions as_ bs
  else Position b :: orphan_positions as_ bs.
Proof.
  unfold orphan_positions. simpl. destruct (mem_pos (Position b) as_); reflexivity.
Qed.

Lemma diff_commit_ascending as_ : forall bs s,
  ascending as_ -> ascending (positions bs) ->
  diffSegmentsWithDatabase commitCallback as_ bs s =
  mkActions (invalidSegments s ++ missing_positions as_ bs)
            (commit s ++ map toCommit (kept_rows as_ bs))
            (toDelete s ++ orphan_positions as_ bs).
Proof.
  induction as_ as [|a as_ IHa]; intros bs s Ha Hb.
  - cbn [diffSegmentsWithDatabase]. rewrite drain_bs_commit, drain_as_commit. simpl.
    unfold kept_rows, orphan_positions; simpl.
    rewrite filter_none, filter_all. simpl. rewrite !app_nil_r. reflexivity.
  - revert s. induction bs as [|b bs IHb]; intros s.
    + cbn [diffSegmentsWithDatabase]. rewrite drain_bs_commit, drain_as_commit. simpl.
      rewrite !app_nil_r. unfold missing_positions. simpl.
      rewrite filter_all. reflexivity.
    + cbn [diffSegmentsWithDatabase].
      cbn [diffSegmentsWithDatabase] in IHb.
      pose proof (ascending_inv _ _ Ha) as [Ha' _].
      pose proof (ascending_inv _ _ Hb) as [Hb' _].
      destruct (pos_eqb a (Position b)) eqn:Eab.
      * apply pos_eqb_eq in Eab.
        assert (Na : ~ In (Position b) as_)
          by (rewrite <- Eab; eapply ascending_not_In; eauto).
        assert (Nb : ~ In a (positions bs))
          by (rewrite Eab; eapply ascending_not_In; eauto).
        rewrite IHa by assumption.
        cbn [invalidSegments commit toDelete commitCallback].
        rewrite missing_positions_cons, kept_rows_cons, orphan_positions_cons.
        replace (mem_pos a (positions (b :: bs))) with true
          by (symmetry; apply mem_pos_In; left; congruence).
        replace (mem_pos (Position b) (a :: as_)) with true
          by (symmetry; apply mem_pos_In; left; congruence).
        rewrite kept_rows_skip, orphan_positions_skip by assumption.
        rewrite missing_positions_skip by assumption.
        simpl. rewrite <- app_assoc. simpl. unfold toCommit at 2. rewrite <- Eab.
        reflexivity.
      * apply pos_eqb_neq in Eab.
        destruct (Less a (Position b)) eqn:Lab.
        -- assert (Nb : ~ In a (positions (b :: bs))).
           { simpl. intros [E | Hin]; [congruence|].
             pose proof (ascending_above _ _ _ Hb Hin) as L.
             pose proof (Less_trans _ _ _ Lab L) as L'.
             rewrite Less_irrefl in L'. discriminate. }
           rewrite IHa by assumption.
        cbn [invalidSegments commit toDelete commitCallback].
           rewrite kept_rows_skip, orphan_positions_skip by assumption.
           rewrite missing_positions_cons.
           apply mem_pos_not_In in Nb. rewrite Nb.
           rewrite <- app_assoc. reflexivity.
        -- assert (Lba : Less (Position b) a = true)
             by (apply Less_total; congruence).
           assert (Na : ~ In (Position b) (a :: as_)).
           { simpl. intros [E | Hin]; [congruence|].
             pose proof (ascending_above _ _ _ Ha Hin) as L.
             pose proof (Less_trans _ _ _ Lba L) as L'.
             rewrite Less_irrefl in L'. discriminate. }
           rewrite IHb by assumption.
           cbn [invalidSegments commit toDelete commitCallback].
           rewrite missing_positions_skip by assumption.
           rewrite kept_rows_cons, orphan_positions_cons.
           apply mem_pos_not_In in Na. rewrite Na.
           rewrite <- app_assoc. reflexivity.
Qed.

Lemma commitWalk_ascending as_ bs :
  ascending as_ -> ascending (positions bs) ->
  commitWalk as_ bs =
  mkActions (missing_positions as_ bs)
            (map toCommit (kept_rows as_ bs))
            (orphan_positions as_ bs).
Proof.
  intros Ha Hb. unfold commitWalk.
  rewrite diff_commit_ascending by assumption. reflexivity.
Qed.

Lemma map_cPosition_toCommit l : map cPosition (map toCommit l) = positions l.
Proof. rewrite map_map. reflexivity. Qed.

Lemma In_missing_positions p as_ bs :
  In p (missing_positions as_ bs) <-> In p as_ /\ ~ In p (positions bs).
Proof.
  unfold missing_positions. rewrite filter_In, negb_true_iff, mem_pos_not_In.
  reflexivity.
Qed.

Lemma In_kept_rows b as_ bs :
  In b (kept_rows as_ bs) <-> In b bs /\ In (Position b) as_.
Proof.
  unfold kept_rows. rewrite filter_In, mem_pos_In. reflexivity.
Qed.

Lemma In_orphan_positions p as_ bs :
  In p (orphan_positions as_ bs) <-> In p (positions bs) /\ ~ In p as_.
Proof.
  unfold orphan_positions. rewrite filter_In, negb_true_iff, mem_pos_not_In.
  reflexivity.
Qed.

Lemma In_positions_kept p as_ bs :
  In p (positions (kept_rows as_ bs)) <-> In p (positions bs) /\ In p as_.
Proof.
  unfold positions at 1. rewrite in_map_iff. split.
  - intros [b [<- Hb]]. apply In_kept_rows in Hb as [Hb Ha].
    split; [apply in_map; assumption | assumption].
  - intros [Hb Ha]. unfold positions in Hb. apply in_map_iff in Hb as [b [<- Hb]].
    exists b. split; [reflexivity|]. apply In_kept_rows. tauto.
Qed.

Lemma positions_kept_rows as_ bs :
  positions (kept_rows as_ bs) = filter (fun p => mem_pos p as_) (positions bs).
Proof. unfold kept_rows. rewrite filter_positions. reflexivity. Qed.

(** C1 (reconciliation classifies every position).  For a client list and a
    snapshot that are both in ascending position order, the walk puts every
    snapshot row whose position the client lists into the commit list, with
    the row's plain size, encrypted size and old plain offset; every client
    position the snapshot lacks into the group of mismatches; and every
    snapshot position the client does not list into the delete list.  No
    position gets two outcomes, nothing else is produced, the commit and
    delete lists are in ascending order, and [determineCommitActions]
    returns the two lists unless there is a mismatch. *)
Theorem C1_reconciliation_classifies as_ bs :
  ascending as_ -> ascending (positions bs) ->
  let s := commitWalk as_ bs in
  (forall b, In b bs -> In (Position b) as_ ->
     In (mkCommit (Position b) (PlainOffset b) (PlainSize b) (EncryptedSize b))
        (commit s) /\
     ~ In (Position b) (invalidSegments s) /\ ~ In (Position b) (toDelete s)) /\
  (forall a, In a as_ -> ~ In a (positions bs) ->
     In a (invalidSegments s) /\
     ~ In a (map cPosition (commit s)) /\ ~ In a (toDelete s)) /\
  (forall b, In b bs -> ~ In (Position b) as_ ->
     In (Position b) (toDelete s) /\
     ~ In (Position b) (invalidSegments s) /\
     ~ In (Position b) (map cPosition (commit s))) /\
  (forall p, In p (invalidSegments s) \/ In p (map cPosition (commit s)) \/
             In p (toDelete s) -> In p as_ \/ In p (positions bs)) /\
  ascending (invalidSegments s) /\
  ascending (map cPosition (commit s)) /\
  ascending (toDelete s) /\
  determineCommitActions as_ bs =
    match invalidSegments s with
    | [] => inr (commit s, toDelete s)
    | _ :: _ => inl (ErrSegmentsMismatch (invalidSegments s))
    end.
Proof.
  intros Ha Hb s.
  assert (Es : s = mkActions (missing_positions as_ bs)
                             (map toCommit (kept_rows as_ bs))
                             (orphan_positions as_ bs))
    by (apply commitWalk_ascending; assumption).
  rewrite Es. cbn [invalidSegments commit toDelete].
  rewrite map_cPosition_toCommit.
  assert (Hin : forall b, In b bs -> In (Position b) (positions bs))
    by (intros b0 Hb0; apply in_map; assumption).
  refine (conj _ (conj _ (conj _ (conj _ (conj _ (conj _ (conj _ _))))))).
  - intros b Hbs Hba. split; [|split].
    + change (In (toCommit b) (map toCommit (kept_rows as_ bs))).
      apply in_map. apply In_kept_rows. tauto.
    + rewrite In_missing_positions. specialize (Hin b Hbs). tauto.
    + rewrite In_orphan_positions. tauto.
  - intros a Haa Hab.
    rewrite In_missing_positions, In_positions_kept, In_orphan_positions. tauto.
  - intros b Hbs Hba. specialize (Hin b Hbs).
    rewrite In_missing_positions, In_positions_kept, In_orphan_positions. tauto.
  - intros p.
    rewrite In_missing_positions, In_positions_kept, In_orphan_positions. tauto.
  - apply ascending_filter. assumption.
  - rewrite positions_kept_rows. apply ascending_filter. assumption.
  - apply ascending_filter. assumption.
  - unfold determineCommitActions. fold s. rewrite Es. reflexivity.
Qed.

Lemma C1_reconciliation_classifies_witness :
  let as_ := [mkPos 0 0; mkPos 0 2; mkPos 1 3] in
  let bs := [mkInfo (mkPos 0 0) 11 0 10; mkInfo (mkPos 0 1) 12 5 10;
             mkInfo (mkPos 0 2) 13 7 10] in
  commitWalk as_ bs =
    mkActions [mkPos 1 3]
              [mkCommit (mkPos 0 0) 0 10 11; mkCommit (mkPos 0 2) 7 10 13]
              [mkPos 0 1] /\
  determineCommitActions as_ bs = inl (ErrSegmentsMismatch [mkPos 1 3]) /\
  ascending (toDelete (commitWalk as_ bs)).
Proof.
  intros as_ bs.
  assert (Ha : ascending as_) by (repeat constructor).
  assert (Hb : ascending (positions bs)) by (repeat constructor).
  pose proof (C1_reconciliation_classifies as_ bs Ha Hb) as H.
  split; [reflexivity|]. split; [reflexivity|].
  apply H.
Defined.

(** ** The calls of the walk *)

Lemma replay_app {S} (cb : option SegmentPosition -> option segmentInfoForCommit -> S -> S)
      t1 t2 s :
  replay cb (t1 ++ t2) s = replay cb t2 (replay cb t1 s).
Proof. unfold replay. apply fold_left_app. Qed.

Lemma drain_as_record as_ t :
  drain_as record_call as_ t = t ++ map (fun a => (Some a, None)) as_.
Proof.
  unfold drain_as. revert t. induction as_ as [|a as_ IH]; intros t; simpl.
  - rewrite app_nil_r. reflexivity.
  - rewrite IH. unfold record_call. rewrite <- app_assoc. reflexivity.
Qed.

Lemma drain_bs_record bs t :
  drain_bs record_call bs t = t ++ map (fun b => (None, Some b)) bs.
Proof.
  unfold drain_bs. revert t. induction bs as [|b bs IH]; intros t; simpl.
  - rewrite app_nil_r. reflexivity.
  - rewrite IH. unfold record_call. rewrite <- app_assoc. reflexivity.
Qed.

Lemma drain_as_replay {S}
      (cb : option SegmentPosition -> option segmentInfoForCommit -> S -> S) as_ s :
  drain_as cb as_ s = replay cb (map (fun a => (Some a, None)) as_) s.
Proof.
  unfold drain_as, replay. revert s. induction as_ as [|a as_ IH]; intros s; simpl;
    [reflexivity | apply IH].
Qed.

Lemma drain_bs_replay {S}
      (cb : option SegmentPosition -> option segmentInfoForCommit -> S -> S) bs s :
  drain_bs cb bs s = replay cb (map (fun b => (None, Some b)) bs) s.
Proof.
  unfold drain_bs, replay. revert s. induction bs as [|b bs IH]; intros s; simpl;
    [reflexivity | apply IH].
Qed.

(** The recorded calls extend the calls recorded so far. *)
Lemma diff_record_app as_ : forall bs t,
  diffSegmentsWithDatabase record_call as_ bs t = t ++ diff_calls as_ bs.
Proof.
  unfold diff_calls.
  induction as_ as [|a as_ IHa]; intros bs t.
  - cbn [diffSegmentsWithDatabase]. rewrite !drain_bs_record, !drain_as_record.
    simpl. rewrite app_nil_r. reflexivity.
  - revert t. induction bs as [|b bs IHb]; intros t.
    + cbn [diffSegmentsWithDatabase]. rewrite !drain_bs_record, !drain_as_record.
      simpl. rewrite !app_nil_r. reflexivity.
    + cbn [diffSegmentsWithDatabase]. cbn [diffSegmentsWithDatabase] in IHb.
      destruct (pos_eqb a (Position b)).
      * rewrite (IHa bs (record_call _ _ t)), (IHa bs (record_call _ _ [])).
        unfold record_call. rewrite <- !app_assoc. reflexivity.
      * destruct (Less a (Position b)).
        -- rewrite (IHa (b :: bs) (record_call _ _ t)),
             (IHa (b :: bs) (record_call _ _ [])).
           unfold record_call. rewrite <- !app_assoc. reflexivity.
        -- rewrite (IHb (record_call _ _ t)), (IHb (record_call _ _ [])).
           unfold record_call. rewrite <- !app_assoc. reflexivity.
Qed.

(** One step of the walk, on the recorded calls. *)
Lemma diff_calls_cons a as_ b bs :
  diff_calls (a :: as_) (b :: bs) =
  if pos_eqb a (Position b) then (Some a, Some b) :: diff_calls as_ bs
  else if Less a (Position b) then (Some a, None) :: diff_calls as_ (b :: bs)
       else (None, Some b) :: diff_calls (a :: as_) bs.
Proof.
  unfold diff_calls at 1. cbn [diffSegmentsWithDatabase].
  destruct (pos_eqb a (Position b)); [|destruct (Less a (Position b))].
  - rewrite diff_record_app. reflexivity.
  - rewrite diff_record_app. reflexivity.
  - change ((fix walk_bs (bs0 : list segmentInfoForCommit) (s : list callback_call)
               {struct bs0} : list callback_call := _) bs (record_call None (Some b) []))
      with (diffSegmentsWithDatabase record_call (a :: as_) bs
              (record_call None (Some b) [])).
    rewrite diff_record_app. reflexivity.
Qed.

Lemma diff_calls_nil_l bs : diff_calls [] bs = map (fun b => (None, Some b)) bs.
Proof.
  unfold diff_calls. cbn [diffSegmentsWithDatabase].
  rewrite drain_bs_record, drain_as_record. reflexivity.
Qed.

Lemma diff_calls_nil_r as_ : diff_calls as_ [] = map (fun a => (Some a, None)) as_.
Proof.
  unfold diff_calls. destruct as_; cbn [diffSegmentsWithDatabase];
    rewrite drain_bs_record, drain_as_record; simpl; rewrite ?app_nil_r; reflexivity.
Qed.

(** The walk with any callback is the callback run over the recorded calls. *)
Lemma diff_replay {S}
      (cb : option SegmentPosition -> option segmentInfoForCommit -> S -> S) as_ :
  forall bs s, diffSegmentsWithDatabase cb as_ bs s = replay cb (diff_calls as_ bs) s.
Proof.
  induction as_ as [|a as_ IHa]; intros bs s.
  - rewrite diff_calls_nil_l. cbn [diffSegmentsWithDatabase].
    rewrite drain_bs_replay, drain_as_replay. reflexivity.
  - revert s. induction bs as [|b bs IHb]; intros s.
    + rewrite diff_calls_nil_r. cbn [diffSegmentsWithDatabase].
      rewrite drain_bs_replay, drain_as_replay. reflexivity.
    + rewrite diff_calls_cons. cbn [diffSegmentsWithDatabase].
      cbn [diffSegmentsWithDatabase] in IHb.
      destruct (pos_eqb a (Position b)); [|destruct (Less a (Position b))].
      * rewrite IHa. reflexivity.
      * rewrite IHa. reflexivity.
      * rewrite IHb. reflexivity.
Qed.

Lemma diff_calls_args as_ : forall bs,
  client_args (diff_calls as_ bs) = as_ /\
  store_args (diff_calls as_ bs) = bs /\
  Forall aligned_call (diff_calls as_ bs).
Proof.
  induction as_ as [|a as_ IHa]; intros bs.
  - rewrite diff_calls_nil_l. repeat split.
    + induction bs; simpl; auto.
    + induction bs; simpl; congruence.
    + apply Forall_forall. intros c Hc. apply in_map_iff in Hc as [b [<- _]]. exact I.
  - induction bs as [|b bs IHb].
    + rewrite diff_calls_nil_r. repeat split.
      * generalize (a :: as_). intros l. induction l; simpl; congruence.
      * generalize (a :: as_). intros l. induction l; simpl; auto.
      * apply Forall_forall. intros c Hc. apply in_map_iff in Hc as [x [<- _]]. exact I.
    + rewrite diff_calls_cons.
      destruct (pos_eqb a (Position b)) eqn:E; [|destruct (Less a (Position b))].
      * destruct (IHa bs) as [H1 [H2 H3]]. apply pos_eqb_eq in E.
        repeat split; simpl; try congruence. constructor; assumption.
      * destruct (IHa (b :: bs)) as [H1 [H2 H3]].
        repeat split; simpl; try congruence. constructor; [exact I | assumption].
      * destruct IHb as [H1 [H2 H3]].
        repeat split; simpl; try congruence. constructor; [exact I | assumption].
Qed.


Lemma replay_commitCallback t : forall s,
  replay commitCallback t s =
  mkActions (invalidSegments s ++ flat_map call_invalid t)
            (commit s ++ flat_map call_commit t)
            (toDelete s ++ flat_map call_delete t).
Proof.
  unfold replay. induction t as [|[[a|] [b|]] t IH]; intros s; simpl.
  - rewrite !app_nil_r. destruct s; reflexivity.
  - rewrite IH. simpl. rewrite <- app_assoc. reflexivity.
  - rewrite IH. simpl. rewrite <- app_assoc. reflexivity.
  - rewrite IH. simpl. rewrite <- app_assoc. reflexivity.
  - apply IH.
Qed.

Lemma commitWalk_calls as_ bs :
  commitWalk as_ bs =
  mkActions (flat_map call_invalid (diff_calls as_ bs))
            (flat_map call_commit (diff_calls as_ bs))
            (flat_map call_delete (diff_calls as_ bs)).
Proof. unfold commitWalk. rewrite diff_replay, replay_commitCallback. reflexivity. Qed.

Lemma calls_accounting t :
  Forall aligned_call t ->
  (length (flat_map call_invalid t) + length (flat_map call_commit t) =
   length (client_args t))%nat /\
  (length (flat_map call_commit t) + length (flat_map call_delete t) =
   length (store_args t))%nat /\
  (forall c, In c (flat_map call_commit t) ->
             In (cPosition c) (client_args t) /\
             exists b, In b (store_args t) /\ c = toCommit b) /\
  (forall p, In p (flat_map call_invalid t) -> In p (client_args t)) /\
  (forall p, In p (flat_map call_delete t) -> In p (positions (store_args t))) /\
  (flat_map call_invalid t = [] ->
   map cPosition (flat_map call_commit t) = client_args t).
Proof.
  induction 1 as [|[[a|] [b|]] t Hc Ht IH]; simpl in *.
  - refine (conj eq_refl (conj eq_refl (conj _ (conj _ (conj _ _)))));
      try (intros ? []); reflexivity.
  - destruct IH as [H1 [H2 [H3 [H4 [H5 H6]]]]]. subst a.
    refine (conj _ (conj _ (conj _ (conj _ (conj _ _))))); try lia.
    + intros c [<- | H].
      * split; [left; reflexivity|]. exists b. split; [left|]; reflexivity.
      * destruct (H3 c H) as [Hp [b' [Hb' ->]]].
        split; [right; assumption|]. exists b'. split; [right|]; auto.
    + intros p Hp. right. apply H4. assumption.
    + intros p Hp. right. apply H5. assumption.
    + intros E. rewrite (H6 E). reflexivity.
  - destruct IH as [H1 [H2 [H3 [H4 [H5 H6]]]]].
    refine (conj _ (conj _ (conj _ (conj _ (conj _ _))))); try lia.
    + intros c H. destruct (H3 c H) as [Hp [b' [Hb' ->]]].
      split; [right; assumption|]. exists b'. auto.
    + intros p [<- | Hp]; [left; reflexivity | right; apply H4; assumption].
    + assumption.
    + discriminate.
  - destruct IH as [H1 [H2 [H3 [H4 [H5 H6]]]]].
    refine (conj _ (conj _ (conj _ (conj _ (conj _ _))))); try lia.
    + intros c H. destruct (H3 c H) as [Hp [b' [Hb' ->]]].
      split; [assumption|]. exists b'. split; [right|]; auto.
    + assumption.
    + intros p [<- | Hp]; [left; reflexivity | right; apply H5; assumption].
    + assumption.
  - contradiction.
Qed.

(** ** A reconciliation that goes through, whatever the order of the rows *)

Lemma calls_client_in_store t :
  Forall aligned_call t -> flat_map call_invalid t = [] ->
  incl (client_args t) (positions (store_args t)).
Proof.
  unfold positions.
  induction 1 as [|[[a|] [b|]] t Hc Ht IH]; simpl; intros E.
  - intros ? [].
  - simpl in Hc. subst a. intros p [<- | Hp]; [left; reflexivity | right; apply IH; assumption].
  - discriminate.
  - intros p Hp. right. apply IH; assumption.
  - contradiction.
Qed.

Lemma calls_delete_in_store t :
  Forall aligned_call t ->
  incl (flat_map call_delete t) (positions (store_args t)).
Proof.
  intros Ht p Hp.
  exact (proj1 (proj2 (proj2 (proj2 (proj2 (calls_accounting t Ht))))) p Hp).
Qed.

(** With one row per position, a position the walk puts on the delete list
    is not a position of the client. *)
Lemma calls_delete_not_client t :
  Forall aligned_call t -> flat_map call_invalid t = [] ->
  NoDup (positions (store_args t)) ->
  forall p, In p (flat_map call_delete t) -> ~ In p (client_args t).
Proof.
  induction 1 as [|[[a|] [b|]] t Hc Ht IH]; intros E Hnd p Hp.
  - contradiction.
  - simpl in Hc. subst a. unfold positions in Hnd. simpl in Hnd, E, Hp.
    inversion Hnd as [|? ? Hn Hnd']; subst.
    simpl. intros [<- | Hin].
    + apply Hn. apply (calls_delete_in_store t Ht). assumption.
    + exact (IH E Hnd' p Hp Hin).
  - discriminate.
  - unfold positions in Hnd. simpl in Hnd, E, Hp.
    inversion Hnd as [|? ? Hn Hnd']; subst. simpl.
    destruct Hp as [<- | Hp].
    + intros Hin. apply Hn. apply (calls_client_in_store t Ht E). assumption.
    + apply IH; assumption.
  - contradiction.
Qed.

Lemma calls_split (f : SegmentPosition -> bool) t :
  Forall aligned_call t -> flat_map call_invalid t = [] ->
  (forall a, In a (client_args t) -> f a = true) ->
  (forall p, In p (flat_map call_delete t) -> f p = false) ->
  flat_map call_commit t =
  map toCommit (filter (fun b => f (Position b)) (store_args t)) /\
  flat_map call_delete t = filter (fun p => negb (f p)) (positions (store_args t)).
Proof.
  unfold positions.
  induction 1 as [|[[a|] [b|]] t Hc Ht IH]; simpl; intros E Hc1 Hd1.
  - split; reflexivity.
  - simpl in Hc. subst a. destruct IH as [IH1 IH2]; auto.
    rewrite (Hc1 (Position b)) by (left; reflexivity). simpl.
    rewrite IH1, IH2. split; reflexivity.
  - discriminate.
  - destruct IH as [IH1 IH2]; auto.
    rewrite (Hd1 (Position b)) by (left; reflexivity). simpl.
    rewrite IH1, IH2. split; reflexivity.
  - contradiction.
Qed.

(** What [determineCommitActions] returns when it succeeds on rows with
    distinct positions, in whatever order the rows come: the rows the client
    lists, paired in the client's order, and the positions of the others. *)
Lemma determineCommitActions_success as_ bs finalSegments segmentsToDelete :
  NoDup (positions bs) ->
  determineCommitActions as_ bs = inr (finalSegments, segmentsToDelete) ->
  finalSegments = map toCommit (kept_rows as_ bs) /\
  segmentsToDelete = orphan_positions as_ bs /\
  map cPosition finalSegments = as_ /\
  incl as_ (positions bs).
Proof.
  intros Hnd Hd. unfold determineCommitActions in Hd.
  rewrite commitWalk_calls in Hd. cbn [invalidSegments commit toDelete] in Hd.
  destruct (flat_map call_invalid (diff_calls as_ bs)) eqn:Ei; [|discriminate].
  injection Hd as <- <-.
  destruct (diff_calls_args as_ bs) as [Ha [Hb Hal]].
  destruct (calls_split (fun p => mem_pos p as_) _ Hal Ei) as [H1 H2].
  - intros a Hin. rewrite Ha in Hin. apply mem_pos_In. assumption.
  - intros p Hp. apply mem_pos_not_In. rewrite <- Ha.
    apply calls_delete_not_client; try assumption. rewrite Hb. assumption.
  - rewrite Hb in H1, H2.
    refine (conj H1 (conj H2 (conj _ _))).
    + rewrite <- Ha at 2.
      apply (proj2 (proj2 (proj2 (proj2 (proj2 (calls_accounting _ Hal)))))).
      assumption.
    + intros a Hin. rewrite <- Hb. apply calls_client_in_store; try assumption.
      rewrite Ha. assumption.
Qed.

(** ** verifySegmentOrder *)

Lemma Less_false_iff a b : Less a b = false <-> a = b \/ Less b a = true.
Proof.
  split.
  - intros H. destruct (pos_eqb a b) eqn:E.
    + left. apply pos_eqb_eq. assumption.
    + right. apply Less_total; [assumption | apply pos_eqb_neq; assumption].
  - intros [-> | H]; [apply Less_irrefl | apply Less_asym; assumption].
Qed.

Lemma adjacent_cons {A} (x : A) l a b :
  adjacent (x :: l) a b <->
  (x = a /\ nth_error l 0 = Some b) \/ adjacent l a b.
Proof.
  unfold adjacent. split.
  - intros [[|i] [H1 H2]]; simpl in *.
    + left. split; congruence.
    + right. exists i. tauto.
  - intros [[-> H] | [i [H1 H2]]].
    + exists 0%nat. simpl. tauto.
    + exists (S i). simpl. tauto.
Qed.

Lemma verifySegmentOrder_loop_error last rest e :
  verifySegmentOrder_loop last rest = Some e ->
  exists a b, e = ErrSegmentsNotAscending a b /\
              adjacent (last :: rest) a b /\ Less a b = false.
Proof.
  revert last. induction rest as [|next rest IH]; intros last; simpl.
  - discriminate.
  - destruct (Less last next) eqn:L; simpl.
    + intros H. apply IH in H as [a [b [He [Hadj Hl]]]].
      exists a, b. repeat split; try assumption.
      apply adjacent_cons. right. assumption.
    + intros H. injection H as <-. exists last, next. repeat split; try assumption.
      exists 0%nat. simpl. tauto.
Qed.

Lemma verifySegmentOrder_loop_ok last rest :
  verifySegmentOrder_loop last rest = None ->
  forall a b, adjacent (last :: rest) a b -> Less a b = true.
Proof.
  revert last. induction rest as [|next rest IH]; intros last; simpl.
  - intros _ a b [i [H1 H2]]. destruct i; simpl in H2; [discriminate|].
    destruct i; discriminate.
  - destruct (Less last next) eqn:L; simpl; [|discriminate].
    intros H a b Hadj. apply adjacent_cons in Hadj as [[-> Hb] | Hadj].
    + simpl in Hb. congruence.
    + eapply IH; eassumption.
Qed.

Lemma verifySegmentOrder_loop_ascending last rest :
  verifySegmentOrder_loop last rest = None <-> ascending (last :: rest).
Proof.
  revert last. induction rest as [|next rest IH]; intros last; simpl.
  - split; [intros _; repeat constructor | reflexivity].
  - destruct (Less last next) eqn:L; simpl.
    + rewrite IH. split.
      * intros H. constructor; [assumption|].
        constructor; [assumption|].
        apply ascending_inv in H as [_ H].
        eapply Forall_impl; [|exact H]. simpl.
        intros x Hx. eapply Less_trans; eassumption.
      * intros H. apply ascending_inv in H. tauto.
    + split; [discriminate|]. intros H.
      apply ascending_inv in H as [_ H]. inversion H; subst. congruence.
Qed.

Lemma verifySegmentOrder_ascending l :
  verifySegmentOrder l = None <-> ascending l.
Proof.
  destruct l as [|a l]; simpl.
  - split; [intros _; constructor | reflexivity].
  - apply verifySegmentOrder_loop_ascending.
Qed.

(** C7 (input validation).  [verifySegmentOrder] fails exactly when two
    neighbours of the list are equal or decreasing, and the error it returns
    names such a pair; the empty list and one-element lists pass; and a call
    of [CommitObjectWithSegments] whose list is rejected returns an error
    that does not depend on the store and leaves the store as it was. *)
Theorem C7_verifySegmentOrder_validation :
  (forall l,
      verifySegmentOrder l <> None <->
      exists a b, adjacent l a b /\ (a = b \/ Less b a = true)) /\
  (forall l e,
      verifySegmentOrder l = Some e ->
      exists a b, e = ErrSegmentsNotAscending a b /\ adjacent l a b /\
                  (a = b \/ Less b a = true)) /\
  verifySegmentOrder [] = None /\
  (forall a, verifySegmentOrder [a] = None) /\
  (forall Verify opts,
      verifySegmentOrder (Segments opts) <> None ->
      exists e, forall db,
          CommitObjectWithSegments Verify db opts = (inl e, db)).
Proof.
  assert (Herr : forall l e,
             verifySegmentOrder l = Some e ->
             exists a b, e = ErrSegmentsNotAscending a b /\ adjacent l a b /\
                         (a = b \/ Less b a = true)).
  { intros [|a l] e; simpl; [discriminate|].
    intros H. apply verifySegmentOrder_loop_error in H as [x [y [He [Hadj Hl]]]].
    exists x, y. rewrite <- Less_false_iff. tauto. }
  refine (conj _ (conj Herr (conj eq_refl (conj (fun _ => eq_refl) _)))).
  - intros l. split.
    + destruct (verifySegmentOrder l) as [e|] eqn:E; [|congruence].
      intros _. apply Herr in E as [a [b [_ H]]]. exists a, b. exact H.
    + intros [a [b [Hadj Hl]]] Hnone.
      apply Less_false_iff in Hl.
      destruct l as [|x l]; simpl in Hnone.
      * destruct Hadj as [i [H _]]. destruct i; discriminate.
      * pose proof (verifySegmentOrder_loop_ok _ _ Hnone _ _ Hadj). congruence.
  - intros Verify opts H. unfold CommitObjectWithSegments.
    destruct (Verify (Stream opts)) as [e|].
    + exists e. reflexivity.
    + destruct (verifySegmentOrder (Segments opts)) as [e|]; [|congruence].
      exists e. reflexivity.
Qed.

(** ** The aggregate [fixed_segment_size] *)

Lemma fixedSegmentSize_loop_varies n f rest : forall i,
  n = i + Z.of_nat (length rest) ->
  (exists seg, In seg rest /\ Part (cPosition seg) <> 0) \/
  (exists j seg, nth_error rest j = Some seg /\ i + Z.of_nat j < n - 1 /\
                 cEncryptedSize seg <> f) ->
  fixedSegmentSize_loop n i f rest = -1.
Proof.
  induction rest as [|seg rest IH]; intros i Hn H.
  - exfalso. destruct H as [[seg [[] _]] | [j [seg [Hj _]]]].
    destruct j; discriminate.
  - simpl. destruct (Part (cPosition seg) =? 0) eqn:Ep; simpl; [|reflexivity].
    apply Z.eqb_eq in Ep.
    destruct ((i <? n - 1) && negb (cEncryptedSize seg =? f)) eqn:Es; [reflexivity|].
    apply IH.
    + simpl length in Hn. lia.
    + destruct H as [[seg' [[<- | Hin] Hp]] | [j [seg' [Hj [Hlt Hne]]]]].
      * contradiction.
      * left. exists seg'. tauto.
      * right. destruct j as [|j]; simpl in Hj.
        -- injection Hj as <-. exfalso.
           apply andb_false_iff in Es as [Es | Es].
           ++ apply Z.ltb_ge in Es. lia.
           ++ apply negb_false_iff, Z.eqb_eq in Es. contradiction.
        -- exists j, seg'. repeat split; try assumption. lia.
Qed.

Lemma fixedSegmentSize_loop_uniform n f rest : forall i,
  n = i + Z.of_nat (length rest) ->
  (forall seg, In seg rest -> Part (cPosition seg) = 0) ->
  (forall j seg, nth_error rest j = Some seg -> i + Z.of_nat j < n - 1 ->
                 cEncryptedSize seg = f) ->
  fixedSegmentSize_loop n i f rest = f.
Proof.
  induction rest as [|seg rest IH]; intros i Hn Hp Hs; simpl; [reflexivity|].
  rewrite (Hp seg) by (left; reflexivity). simpl.
  destruct (i <? n - 1) eqn:Ei; simpl.
  - apply Z.ltb_lt in Ei.
    rewrite (Hs 0%nat seg eq_refl) by (simpl; lia).
    rewrite Z.eqb_refl. simpl.
    apply IH.
    + simpl length in Hn. lia.
    + intros s Hin. apply Hp. right. assumption.
    + intros j s Hj Hlt. apply (Hs (S j)); [assumption | lia].
  - apply IH.
    + simpl length in Hn. lia.
    + intros s Hin. apply Hp. right. assumption.
    + intros j s Hj Hlt. apply (Hs (S j)); [assumption | lia].
Qed.

Lemma not_multipart l :
  ~ multipart l -> forall seg, In seg l -> Part (cPosition seg) = 0.
Proof.
  intros H seg Hin. destruct (Z.eq_dec (Part (cPosition seg)) 0) as [E | E];
    [assumption|].
  exfalso. apply H. exists seg. tauto.
Qed.

Lemma not_nonlast_differs size l :
  ~ nonlast_differs size l ->
  forall i seg, nth_error l i = Some seg -> (S i < length l)%nat ->
                cEncryptedSize seg = size.
Proof.
  intros H i seg Hi Hlt.
  destruct (Z.eq_dec (cEncryptedSize seg) size) as [E | E]; [assumption|].
  exfalso. apply H. exists i, seg. tauto.
Qed.

(** ** Keys of positions *)

Lemma position_key_inj p q :
  valid_position p -> valid_position q ->
  position_key p = position_key q -> p = q.
Proof.
  unfold valid_position, is_uint32, position_key, int64, Encode.
  destruct p as [pp pi], q as [qp qi]; simpl.
  intros [Hpp Hpi] [Hqp Hqi] H.
  assert (E : pp * 2 ^ 32 + pi = qp * 2 ^ 32 + qi).
  { assert (Hm : (pp * 2 ^ 32 + pi + 2 ^ 63) mod 2 ^ 64 =
                 (qp * 2 ^ 32 + qi + 2 ^ 63) mod 2 ^ 64) by lia.
    clear H.
    assert (B1 : 0 <= pp * 2 ^ 32 + pi < 2 ^ 64) by lia.
    assert (B2 : 0 <= qp * 2 ^ 32 + qi < 2 ^ 64) by lia.
    revert Hm B1 B2.
    generalize (pp * 2 ^ 32 + pi) (qp * 2 ^ 32 + qi). intros x y Hm B1 B2.
    destruct (Z_lt_le_dec x (2 ^ 63)), (Z_lt_le_dec y (2 ^ 63)).
    - rewrite !Z.mod_small in Hm by lia. lia.
    - rewrite (Z.mod_small (x + 2 ^ 63)) in Hm by lia.
      replace (y + 2 ^ 63) with (y - 2 ^ 63 + 1 * 2 ^ 64) in Hm by lia.
      rewrite Z.mod_add, Z.mod_small in Hm by lia. lia.
    - rewrite (Z.mod_small (y + 2 ^ 63)) in Hm by lia.
      replace (x + 2 ^ 63) with (x - 2 ^ 63 + 1 * 2 ^ 64) in Hm by lia.
      rewrite Z.mod_add, Z.mod_small in Hm by lia. lia.
    - replace (x + 2 ^ 63) with (x - 2 ^ 63 + 1 * 2 ^ 64) in Hm by lia.
      replace (y + 2 ^ 63) with (y - 2 ^ 63 + 1 * 2 ^ 64) in Hm by lia.
      rewrite !Z.mod_add, !Z.mod_small in Hm by lia. lia. }
  assert (pp = qp) by lia. subst. assert (pi = qi) by lia. subst. reflexivity.
Qed.

(** ** The snapshot *)

Lemma insert_by_position_perm r l : Permutation (r :: l) (insert_by_position r l).
Proof.
  induction l as [|x l IH]; simpl; [reflexivity|].
  destruct (position_key (seg_position x) <? position_key (seg_position r));
    [|reflexivity].
  rewrite perm_swap. apply perm_skip. assumption.
Qed.

Lemma order_by_position_perm l : Permutation l (order_by_position l).
Proof.
  induction l as [|r l IH]; simpl; [reflexivity|].
  rewrite <- insert_by_position_perm. apply perm_skip. assumption.
Qed.

Lemma insert_by_position_ordered r l :
  rows_ordered l -> rows_ordered (insert_by_position r l).
Proof.
  unfold rows_ordered.
  induction l as [|x l IH]; simpl; intros H.
  - repeat constructor.
  - inversion H as [|? ? Hl Hx]; subst.
    destruct (position_key (seg_position x) <? position_key (seg_position r)) eqn:L.
    + apply Z.ltb_lt in L.
      constructor; [apply IH; assumption|].
      apply Forall_forall. intros y Hy.
      apply (Permutation_in _ (Permutation_sym (insert_by_position_perm r l))) in Hy.
      destruct Hy as [<- | Hy]; [lia|].
      rewrite Forall_forall in Hx. auto.
    + apply Z.ltb_ge in L.
      constructor; [assumption|].
      constructor; [assumption|].
      rewrite Forall_forall in *. intros y Hy. specialize (Hx y Hy). lia.
Qed.

Lemma order_by_position_ordered l : rows_ordered (order_by_position l).
Proof.
  induction l as [|r l IH]; simpl; [constructor|].
  apply insert_by_position_ordered. assumption.
Qed.

Lemma select_segments_perm streamID rows :
  Permutation (stream_rows streamID rows) (select_segments streamID rows).
Proof. apply order_by_position_perm. Qed.

Lemma select_segments_NoDup streamID rows :
  segments_wf streamID rows ->
  NoDup (map seg_position (select_segments streamID rows)).
Proof.
  intros [Hnd _]. eapply Permutation_NoDup; [|exact Hnd].
  apply Permutation_map. apply select_segments_perm.
Qed.

Lemma positions_scan l : positions (map scan_segment l) = map seg_position l.
Proof. unfold positions. rewrite map_map. reflexivity. Qed.

(** ** The offset batch *)

Lemma batch_of_cons u rest e es :
  batch_of (u :: rest) (e :: es) =
  (if negb (cOldPlainOffset u =? e)
   then (position_key (cPosition u), e) :: batch_of rest es
   else batch_of rest es).
Proof.
  unfold batch_of. simpl. unfold stale at 1. simpl.
  destruct (cOldPlainOffset u =? e); reflexivity.
Qed.

Lemma offsets_loop_batch updates : forall e update,
  length (Positions update) = length (PlainOffsets update) ->
  let r := offsets_loop updates e update in
  Positions r = Positions update ++ map fst (batch_of updates (runningOffsets updates e)) /\
  PlainOffsets r = PlainOffsets update ++ map snd (batch_of updates (runningOffsets updates e)).
Proof.
  induction updates as [|u rest IH]; intros e update Hlen.
  - simpl. rewrite !app_nil_r. tauto.
  - cbn [offsets_loop runningOffsets]. rewrite batch_of_cons.
    destruct (negb (cOldPlainOffset u =? e)).
    + match goal with
      | |- context [offsets_loop rest ?e' ?u'] =>
          destruct (IH e' u') as [H1 H2]
      end.
      { simpl. rewrite !length_app. simpl. lia. }
      cbv zeta. rewrite H1, H2. simpl. rewrite <- !app_assoc. simpl. tauto.
    + apply IH. assumption.
Qed.

Lemma expectedOffset_cons u rest i :
  expectedOffset (u :: rest) (S i) = cPlainSize u + expectedOffset rest i.
Proof. reflexivity. Qed.

Lemma runningOffsets_sum updates : forall e k,
  Forall (fun u => is_int32 (cPlainSize u)) updates ->
  0 <= k -> k + Z.of_nat (length updates) <= 2 ^ 32 ->
  - (k * 2 ^ 31) <= e <= k * 2 ^ 31 - k ->
  runningOffsets updates e =
  map (fun i => e + expectedOffset updates i) (seq 0 (length updates)).
Proof.
  induction updates as [|u rest IH]; intros e k Hs Hk Hlen He; simpl; [reflexivity|].
  inversion Hs as [|? ? Hu Hrest]; subst.
  unfold expectedOffset at 1. simpl. rewrite Z.add_0_r. f_equal.
  rewrite (int64_id (cPlainSize u)) by (apply is_int32_int64; assumption).
  simpl length in Hlen. unfold is_int32 in Hu.
  rewrite int64_id by (unfold is_int64; nia).
  rewrite (IH _ (k + 1)); [| assumption | lia | lia | nia].
  rewrite <- seq_shift, map_map. apply map_ext. intros i.
  rewrite expectedOffset_cons. lia.
Qed.

Lemma runningOffsets_expected updates :
  sizes_in_range updates -> runningOffsets updates 0 = expectedOffsets updates.
Proof.
  intros [Hs Hlen]. rewrite (runningOffsets_sum updates 0 0); try assumption; try lia.
  reflexivity.
Qed.

Lemma offsetUpdates_batch updates :
  sizes_in_range updates ->
  Positions (offsetUpdates updates) =
    map fst (batch_of updates (expectedOffsets updates)) /\
  PlainOffsets (offsetUpdates updates) =
    map snd (batch_of updates (expectedOffsets updates)).
Proof.
  intros H. unfold offsetUpdates.
  destruct (offsets_loop_batch updates 0 (mkOffsetUpdate [] []) eq_refl) as [H1 H2].
  rewrite H1, H2. simpl. rewrite runningOffsets_expected by assumption. tauto.
Qed.

Lemma unnest2_offsetUpdates updates :
  sizes_in_range updates ->
  unnest2 (offsetUpdates updates) = batch_of updates (expectedOffsets updates).
Proof.
  intros H. unfold unnest2.
  destruct (offsetUpdates_batch updates H) as [-> ->].
  generalize (batch_of updates (expectedOffsets updates)).
  induction l as [|[k o] l IH]; simpl; congruence.
Qed.

Lemma length_expectedOffsets updates :
  length (expectedOffsets updates) = length updates.
Proof. unfold expectedOffsets. rewrite length_map, length_seq. reflexivity. Qed.

Lemma nth_error_expectedOffsets updates i :
  (i < length updates)%nat ->
  nth_error (expectedOffsets updates) i = Some (expectedOffset updates i).
Proof.
  intros H. unfold expectedOffsets.
  rewrite nth_error_map, nth_error_seq.
  destruct (Nat.ltb_spec i (length updates)); [reflexivity | lia].
Qed.

Lemma nth_error_zip {A B} (l : list A) (l' : list B) i :
  nth_error (combine l l') i =
  match nth_error l i, nth_error l' i with
  | Some a, Some b => Some (a, b)
  | _, _ => None
  end.
Proof.
  revert l' i. induction l as [|a l IH]; intros l' i.
  - destruct i; reflexivity.
  - destruct l' as [|b l'].
    + destruct i; simpl; [reflexivity|]. destruct (nth_error l i); reflexivity.
    + destruct i; simpl; [reflexivity | apply IH].
Qed.

Lemma In_batch_of updates offsets k o :
  In (k, o) (batch_of updates offsets) <->
  exists i u, nth_error updates i = Some u /\ nth_error offsets i = Some o /\
              k = position_key (cPosition u) /\ cOldPlainOffset u <> o.
Proof.
  unfold batch_of. rewrite in_map_iff. split.
  - intros [[u e] [E Hin]]. simpl in E. injection E as <- <-.
    apply filter_In in Hin as [Hin Hst].
    apply In_nth_error in Hin as [i Hi].
    exists i, u.
    pose proof (nth_error_zip updates offsets i) as Hc. rewrite Hi in Hc.
    destruct (nth_error updates i) as [u'|]; [|discriminate].
    destruct (nth_error offsets i) as [e'|]; [|discriminate].
    injection Hc as <- <-.
    unfold stale in Hst. simpl in Hst. apply negb_true_iff, Z.eqb_neq in Hst.
    tauto.
  - intros [i [u [Hu [Ho [-> Hne]]]]]. exists (u, o). split; [reflexivity|].
    apply filter_In. split.
    + apply (nth_error_In _ i). rewrite nth_error_zip, Hu, Ho. reflexivity.
    + unfold stale. simpl. apply negb_true_iff, Z.eqb_neq. assumption.
Qed.

(** ** Statements on the [segments] table *)

Lemma store_eta tx : mkStore (objects tx) (segments tx) = tx.
Proof. destruct tx; reflexivity. Qed.

Lemma apply_offset_position streamID P r :
  seg_position (apply_offset streamID P r) = seg_position r.
Proof. unfold apply_offset. destruct (offset_for streamID P r); reflexivity. Qed.

Lemma apply_offset_stream streamID P r :
  seg_stream_id (apply_offset streamID P r) = seg_stream_id r.
Proof. unfold apply_offset. destruct (offset_for streamID P r); reflexivity. Qed.

Lemma apply_offset_plain_size streamID P r :
  seg_plain_size (apply_offset streamID P r) = seg_plain_size r.
Proof. unfold apply_offset. destruct (offset_for streamID P r); reflexivity. Qed.

Lemma apply_offset_nil streamID rows : map (apply_offset streamID []) rows = rows.
Proof.
  induction rows as [|r rows IH]; simpl; [reflexivity|].
  rewrite IH. unfold apply_offset, offset_for.
  destruct (seg_stream_id r =? streamID); reflexivity.
Qed.

Lemma unnest2_nil update : Positions update = [] -> unnest2 update = [].
Proof. unfold unnest2. intros ->. reflexivity. Qed.

Lemma offsetUpdates_nil : unnest2 (offsetUpdates []) = [].
Proof. reflexivity. Qed.

(** [updateSegmentOffsets] when the count of affected rows is the expected
    one: every row is rewritten with the offset [P] gives it. *)
Lemma updateSegmentOffsets_ok streamID updates tx :
  let P := unnest2 (offsetUpdates updates) in
  length (filter (joins streamID P) (segments tx)) =
    length (Positions (offsetUpdates updates)) ->
  updateSegmentOffsets streamID updates tx =
  (inr tt, mkStore (objects tx) (map (apply_offset streamID P) (segments tx))).
Proof.
  intros P Hcount. unfold updateSegmentOffsets.
  destruct updates as [|u updates].
  - unfold P. rewrite offsetUpdates_nil, apply_offset_nil, store_eta. reflexivity.
  - destruct (Positions (offsetUpdates (u :: updates))) eqn:EP.
    + unfold P. rewrite (unnest2_nil _ EP), apply_offset_nil, store_eta. reflexivity.
    + unfold exec_update_offsets. fold P. rewrite Hcount.
      rewrite Z.eqb_refl. reflexivity.
Qed.

Lemma delete_matches_nil streamID r : delete_matches streamID [] r = false.
Proof. unfold delete_matches. simpl. apply andb_false_r. Qed.

Lemma deleteSegmentsNotInCommit_eq streamID segs tx :
  let positions := map position_key segs in
  deleteSegmentsNotInCommit streamID segs tx =
  (inr (scan_deleted (filter (delete_matches streamID positions) (segments tx)) []),
   mkStore (objects tx)
           (filter (fun r => negb (delete_matches streamID positions r)) (segments tx))).
Proof.
  destruct segs as [|p segs]; [|reflexivity].
  simpl. unfold deleteSegmentsNotInCommit.
  rewrite (filter_ext _ (fun _ => false)) by (intros; apply delete_matches_nil).
  rewrite (filter_ext (fun r => negb _) (fun _ => true))
    by (intros; rewrite delete_matches_nil; reflexivity).
  rewrite filter_none, filter_all, store_eta. reflexivity.
Qed.

Lemma scan_deleted_filter rows : forall acc,
  scan_deleted rows acc =
  acc ++ map (fun r => mkDeleted (seg_root_piece_id r) (seg_remote_pieces r))
             (filter (fun r => negb (IsZero (seg_root_piece_id r))) rows).
Proof.
  induction rows as [|r rows IH]; intros acc; simpl.
  - rewrite app_nil_r. reflexivity.
  - destruct (IsZero (seg_root_piece_id r)); simpl.
    + apply IH.
    + rewrite IH, <- app_assoc. reflexivity.
Qed.

(** ** [ORDER BY position] against updates and deletions *)

Lemma insert_by_position_map f r l :
  (forall x, seg_position (f x) = seg_position x) ->
  insert_by_position (f r) (map f l) = map f (insert_by_position r l).
Proof.
  intros Hf. induction l as [|x l IH]; simpl; [reflexivity|].
  rewrite !Hf.
  destruct (position_key (seg_position x) <? position_key (seg_position r));
    simpl; congruence.
Qed.

Lemma order_by_position_map f l :
  (forall x, seg_position (f x) = seg_position x) ->
  order_by_position (map f l) = map f (order_by_position l).
Proof.
  intros Hf. induction l as [|r l IH]; simpl; [reflexivity|].
  rewrite IH. apply insert_by_position_map. assumption.
Qed.

Lemma insert_by_position_head r l :
  Forall (fun y => position_key (seg_position r) <= position_key (seg_position y)) l ->
  insert_by_position r l = r :: l.
Proof.
  intros H. destruct l as [|x l]; simpl; [reflexivity|].
  inversion H; subst.
  destruct (position_key (seg_position x) <? position_key (seg_position r)) eqn:L;
    [apply Z.ltb_lt in L; lia | reflexivity].
Qed.

Lemma filter_insert_by_position f r l :
  rows_ordered l ->
  filter f (insert_by_position r l) =
  if f r then insert_by_position r (filter f l) else filter f l.
Proof.
  unfold rows_ordered. induction l as [|x l IH]; intros H; simpl.
  - destruct (f r); reflexivity.
  - inversion H as [|? ? Hl Hx]; subst.
    destruct (position_key (seg_position x) <? position_key (seg_position r)) eqn:L;
      simpl.
    + rewrite IH by assumption.
      destruct (f x), (f r); simpl; try rewrite L; reflexivity.
    + destruct (f r) eqn:Fr; [|reflexivity].
      destruct (f x) eqn:Fx; simpl; [rewrite L; reflexivity|].
      symmetry. apply insert_by_position_head.
      apply Forall_forall. intros y Hy. apply filter_In in Hy as [Hy _].
      rewrite Forall_forall in Hx. specialize (Hx y Hy).
      apply Z.ltb_ge in L. lia.
Qed.

Lemma order_by_position_filter f l :
  order_by_position (filter f l) = filter f (order_by_position l).
Proof.
  induction l as [|r l IH]; simpl; [reflexivity|].
  rewrite filter_insert_by_position by apply order_by_position_ordered.
  destruct (f r); simpl; rewrite IH; reflexivity.
Qed.

(** ** Looking rows up in the batch *)

Lemma P_find_None key P : ~ In key (map fst P) -> P_find key P = None.
Proof.
  induction P as [|[k o] P IH]; simpl; intros H; [reflexivity|].
  destruct (k =? key) eqn:E.
  - apply Z.eqb_eq in E. exfalso. apply H. left. assumption.
  - apply IH. intros Hin. apply H. right. assumption.
Qed.

Lemma batch_of_keys updates offsets k :
  In k (map fst (batch_of updates offsets)) ->
  In k (map (fun u => position_key (cPosition u)) updates).
Proof.
  intros H. apply in_map_iff in H as [[k' o] [<- H]].
  apply In_batch_of in H as [i [u [Hu [_ [-> _]]]]].
  apply in_map_iff. exists u. split; [reflexivity|].
  eapply nth_error_In; eassumption.
Qed.

Lemma set_plain_offset_same r : set_plain_offset r (seg_plain_offset r) = r.
Proof. destruct r; reflexivity. Qed.

Lemma apply_offset_cons_other streamID k o P r :
  position_key (seg_position r) <> k ->
  apply_offset streamID ((k, o) :: P) r = apply_offset streamID P r.
Proof.
  intros H. unfold apply_offset, offset_for. simpl.
  destruct (k =? position_key (seg_position r)) eqn:E; [|reflexivity].
  apply Z.eqb_eq in E. congruence.
Qed.

Lemma set_offsets_cons r K e offsets :
  set_offsets (r :: K) (e :: offsets) = set_plain_offset r e :: set_offsets K offsets.
Proof. reflexivity. Qed.

(** Rewriting rows of the stream with the batch computed from their own
    commit entries gives every row the offset paired with it. *)
Lemma apply_offset_batch streamID K : forall offsets,
  Forall (fun r => seg_stream_id r = streamID) K ->
  NoDup (map (fun r => position_key (seg_position r)) K) ->
  length offsets = length K ->
  map (apply_offset streamID (batch_of (map row_toCommit K) offsets)) K =
  set_offsets K offsets.
Proof.
  induction K as [|r K IH]; intros offsets Hs Hnd Hlen; [reflexivity|].
  destruct offsets as [|e offsets]; [discriminate|].
  inversion Hs as [|? ? Hr HK]; subst.
  inversion Hnd as [|? ? Hnotin Hnd']; subst.
  simpl in Hlen. injection Hlen as Hlen.
  change (map row_toCommit (r :: K)) with (row_toCommit r :: map row_toCommit K).
  rewrite batch_of_cons, set_offsets_cons.
  assert (Hkeys : forall P', (forall k, In k (map fst P') ->
                    In k (map (fun r => position_key (seg_position r)) K)) ->
                    apply_offset (seg_stream_id r) P' r = r).
  { intros P' HP'. unfold apply_offset, offset_for. rewrite Z.eqb_refl.
    rewrite P_find_None; [reflexivity|]. intros Hin. apply Hnotin, HP'. assumption. }
  assert (Hsub : forall k, In k (map fst (batch_of (map row_toCommit K) offsets)) ->
                           In k (map (fun r => position_key (seg_position r)) K)).
  { intros k Hk. apply batch_of_keys in Hk. rewrite map_map in Hk. exact Hk. }
  change (cOldPlainOffset (row_toCommit r)) with (seg_plain_offset r).
  change (cPosition (row_toCommit r)) with (seg_position r).
  destruct (seg_plain_offset r =? e) eqn:Ee; simpl negb; cbv iota.
  - apply Z.eqb_eq in Ee. subst e. cbn [map]. f_equal.
    + rewrite Hkeys by assumption. rewrite set_plain_offset_same. reflexivity.
    + apply IH; assumption.
  - cbn [map]. f_equal.
    + unfold apply_offset, offset_for. rewrite Z.eqb_refl. simpl.
      rewrite Z.eqb_refl. reflexivity.
    + rewrite <- (IH offsets) by assumption.
      apply map_ext_in. intros x Hx. apply apply_offset_cons_other.
      intros E. apply Hnotin. rewrite <- E.
      apply (in_map (fun r => position_key (seg_position r))). assumption.
Qed.

Lemma length_runningOffsets updates e :
  length (runningOffsets updates e) = length updates.
Proof.
  revert e. induction updates as [|u rest IH]; intros e; simpl; [reflexivity|].
  rewrite IH. reflexivity.
Qed.

Lemma unnest2_offsetUpdates_running updates :
  unnest2 (offsetUpdates updates) = batch_of updates (runningOffsets updates 0) /\
  Positions (offsetUpdates updates) =
    map fst (batch_of updates (runningOffsets updates 0)).
Proof.
  unfold unnest2, offsetUpdates.
  destruct (offsets_loop_batch updates 0 (mkOffsetUpdate [] []) eq_refl) as [H1 H2].
  rewrite H1, H2. simpl. split; [|reflexivity].
  generalize (batch_of updates (runningOffsets updates 0)).
  induction l as [|[k o] l IH]; simpl; congruence.
Qed.

(** ** What staging does to the table *)

Lemma filter_map_swap {X Y} (f : Y -> bool) (g : X -> Y) l :
  filter f (map g l) = map g (filter (fun x => f (g x)) l).
Proof.
  induction l as [|x l IH]; simpl; [reflexivity|].
  destruct (f (g x)); simpl; congruence.
Qed.

Lemma filter_comm {X} (f g : X -> bool) l :
  filter f (filter g l) = filter g (filter f l).
Proof.
  induction l as [|x l IH]; simpl; [reflexivity|].
  destruct (f x) eqn:F, (g x) eqn:G; simpl; rewrite ?F, ?G, IH; reflexivity.
Qed.

Lemma NoDup_map_in {X Y} (f : X -> Y) l :
  (forall x y, In x l -> In y l -> f x = f y -> x = y) ->
  NoDup l -> NoDup (map f l).
Proof.
  induction l as [|x l IH]; intros Hinj Hnd; simpl; [constructor|].
  inversion Hnd as [|? ? Hnotin Hnd']; subst. constructor.
  - intros Hin. apply in_map_iff in Hin as [y [E Hy]].
    assert (y = x) by (apply Hinj; [right | left |]; auto). subst. contradiction.
  - apply IH; [|assumption]. intros a b Ha Hb. apply Hinj; right; assumption.
Qed.

Lemma NoDup_map_filter {X Y} (g : X -> Y) (f : X -> bool) l :
  NoDup (map g l) -> NoDup (map g (filter f l)).
Proof.
  induction l as [|x l IH]; simpl; intros H; [constructor|].
  inversion H as [|? ? Hnotin Hnd]; subst. destruct (f x); simpl; [constructor|]; auto.
  intros Hin. apply Hnotin. apply in_map_iff in Hin as [y [E Hy]].
  apply filter_In in Hy as [Hy _]. rewrite <- E. apply in_map. assumption.
Qed.

Lemma P_find_In key P : In key (map fst P) -> exists o, P_find key P = Some o.
Proof.
  induction P as [|[k o] P IH]; simpl; intros H; [contradiction|].
  destruct (k =? key) eqn:E; [eauto|].
  apply IH. destruct H as [H | H]; [|assumption].
  apply Z.eqb_neq in E. contradiction.
Qed.

Lemma joins_iff streamID P r :
  joins streamID P r = true <->
  seg_stream_id r = streamID /\ In (row_key r) (map fst P).
Proof.
  unfold joins, offset_for, row_key. destruct (seg_stream_id r =? streamID) eqn:E.
  - apply Z.eqb_eq in E. split.
    + intros H. split; [assumption|].
      destruct (in_dec Z.eq_dec (position_key (seg_position r)) (map fst P))
        as [Hin | Hin]; [assumption|].
      rewrite (P_find_None _ _ Hin) in H. discriminate.
    + intros [_ Hin]. apply P_find_In in Hin as [o ->]. reflexivity.
  - apply Z.eqb_neq in E. split; [discriminate | tauto].
Qed.

Lemma batch_of_nil_r updates : batch_of updates [] = [].
Proof. unfold batch_of. destruct updates; reflexivity. Qed.

Lemma NoDup_batch_keys updates : forall offsets,
  NoDup (map (fun u => position_key (cPosition u)) updates) ->
  NoDup (map fst (batch_of updates offsets)).
Proof.
  induction updates as [|u rest IH]; intros offsets H.
  - constructor.
  - destruct offsets as [|e offsets]; [rewrite batch_of_nil_r; constructor|].
    inversion H as [|? ? Hnotin Hnd]; subst.
    rewrite batch_of_cons. destruct (negb (cOldPlainOffset u =? e)); [|auto].
    simpl. constructor; [|auto].
    intros Hin. apply Hnotin. eapply batch_of_keys. eassumption.
Qed.

Section Staging.
Variable streamID : UUID.
Variable rows : list segmentRow.
Variable A : list SegmentPosition.
Hypothesis Hwf : segments_wf streamID rows.

Local Abbreviation S := (select_segments streamID rows).
Local Abbreviation B := (snapshot streamID rows).
Local Abbreviation K := (kept_segment_rows streamID rows A).

Lemma In_select_segments r :
  In r S <-> In r rows /\ seg_stream_id r = streamID.
Proof.
  split.
  - intros H.
    apply (Permutation_in _ (Permutation_sym (select_segments_perm streamID rows))) in H.
    apply filter_In in H as [H E]. apply Z.eqb_eq in E. tauto.
  - intros [H E]. apply (Permutation_in _ (select_segments_perm streamID rows)).
    apply filter_In. split; [assumption | apply Z.eqb_eq; assumption].
Qed.

Lemma select_segments_valid r : In r S -> valid_position (seg_position r).
Proof.
  intros H. destruct Hwf as [_ Hv]. rewrite Forall_forall in Hv. apply Hv.
  apply (Permutation_in _ (Permutation_sym (select_segments_perm streamID rows))).
  assumption.
Qed.

Lemma positions_snapshot : positions B = map seg_position S.
Proof. apply positions_scan. Qed.

Lemma snapshot_NoDup : NoDup (positions B).
Proof. rewrite positions_snapshot. apply select_segments_NoDup. assumption. Qed.

Lemma select_segments_row_inj x y :
  In x S -> In y S -> row_key x = row_key y -> x = y.
Proof.
  intros Hx Hy E. unfold row_key in E.
  apply position_key_inj in E; try (apply select_segments_valid; assumption).
  pose proof snapshot_NoDup as Hasc. rewrite positions_snapshot in Hasc.
  apply In_nth_error in Hx as [i Hi]. apply In_nth_error in Hy as [j Hj].
  assert (i = j).
  { apply (proj1 (NoDup_nth_error (map seg_position S)) Hasc).
    - rewrite length_map. apply nth_error_Some. congruence.
    - rewrite !nth_error_map, Hi, Hj. simpl. congruence. }
  subst j. congruence.
Qed.

Lemma NoDup_select_keys : NoDup (map row_key S).
Proof.
  apply NoDup_map_in.
  - apply select_segments_row_inj.
  - pose proof snapshot_NoDup as Hasc. rewrite positions_snapshot in Hasc.
    eapply NoDup_map_inv. eassumption.
Qed.

Lemma kept_rows_snapshot : kept_rows A B = map scan_segment K.
Proof. unfold kept_rows, snapshot. apply filter_map_swap. Qed.

Lemma commit_of_kept : map toCommit (kept_rows A B) = map row_toCommit K.
Proof. rewrite kept_rows_snapshot, map_map. reflexivity. Qed.

Lemma In_kept_segment_rows r :
  In r K <-> In r S /\ In (seg_position r) A.
Proof. unfold kept_segment_rows. rewrite filter_In, mem_pos_In. reflexivity. Qed.

(** Whatever [determineCommitActions] returns for the snapshot of a stream
    with one row per position, it is the commit list and the delete list of
    the vocabulary. *)
Lemma determineCommitActions_reconciled finalSegments segmentsToDelete :
  determineCommitActions A B = inr (finalSegments, segmentsToDelete) ->
  finalSegments = staged_commit streamID rows A /\
  segmentsToDelete = staged_delete streamID rows A.
Proof.
  intros Hd.
  destruct (determineCommitActions_success _ _ _ _ snapshot_NoDup Hd) as [-> [-> _]].
  split; [apply commit_of_kept | reflexivity].
Qed.

Hypothesis Hrec : reconciled streamID rows A.

Lemma listed_in_snapshot a : In a A -> In a (map seg_position S).
Proof.
  intros Ha. rewrite <- positions_snapshot.
  destruct (determineCommitActions_success _ _ _ _ snapshot_NoDup Hrec)
    as [_ [_ [_ Hin]]].
  apply Hin. assumption.
Qed.

Lemma positions_kept_segment_rows : map seg_position K = A.
Proof.
  destruct (determineCommitActions_success _ _ _ _ snapshot_NoDup Hrec)
    as [_ [_ [Hp _]]].
  unfold staged_commit in Hp. rewrite map_map in Hp. exact Hp.
Qed.

Lemma missing_positions_reconciled : missing_positions A B = [].
Proof.
  destruct (missing_positions A B) as [|p l] eqn:E; [reflexivity|]. exfalso.
  assert (Hin : In p (missing_positions A B)) by (rewrite E; left; reflexivity).
  apply In_missing_positions in Hin as [Hp Hn]. apply Hn.
  rewrite positions_snapshot. apply listed_in_snapshot. assumption.
Qed.
End Staging.

Lemma filter_implied {X} (f g : X -> bool) l :
  (forall x, f x = true -> g x = true) ->
  filter f l = filter f (filter g l).
Proof.
  intros H. induction l as [|x l IH]; simpl; [reflexivity|].
  destruct (f x) eqn:F.
  - rewrite (H x F). simpl. rewrite F, IH. reflexivity.
  - destruct (g x); simpl; rewrite ?F; assumption.
Qed.

Section StagingEffects.
Variable streamID : UUID.
Variable rows : list segmentRow.
Variable A : list SegmentPosition.
Hypothesis Hwf : segments_wf streamID rows.
Hypothesis Hrec : reconciled streamID rows A.

Local Abbreviation S := (select_segments streamID rows).
Local Abbreviation B := (snapshot streamID rows).
Local Abbreviation K := (kept_segment_rows streamID rows A).
Local Abbreviation C := (staged_commit streamID rows A).
Local Abbreviation D := (staged_delete streamID rows A).

Lemma NoDup_stream_keys : NoDup (map row_key (stream_rows streamID rows)).
Proof.
  eapply Permutation_NoDup; [|apply (NoDup_select_keys streamID rows Hwf)].
  apply Permutation_map. apply Permutation_sym. apply select_segments_perm.
Qed.

Lemma NoDup_kept_keys : NoDup (map row_key K).
Proof.
  unfold kept_segment_rows. apply NoDup_map_filter.
  apply NoDup_select_keys. assumption.
Qed.

Lemma staged_commit_keys :
  map (fun u => position_key (cPosition u)) C = map row_key K.
Proof. unfold staged_commit. rewrite map_map. reflexivity. Qed.

Lemma joins_count offsets :
  length (filter (joins streamID (batch_of C offsets)) rows) =
  length (map fst (batch_of C offsets)).
Proof.
  set (P := batch_of C offsets).
  rewrite <- (length_map row_key).
  apply Permutation_length. apply NoDup_Permutation.
  - rewrite (filter_implied _ (fun r => seg_stream_id r =? streamID)).
    + apply NoDup_map_filter. apply NoDup_stream_keys.
    + intros r Hr. apply joins_iff in Hr as [Hr _]. apply Z.eqb_eq. assumption.
  - apply NoDup_batch_keys. rewrite staged_commit_keys. apply NoDup_kept_keys.
  - intros k. split.
    + intros H. apply in_map_iff in H as [r [<- Hr]].
      apply filter_In in Hr as [_ Hr]. apply joins_iff in Hr. tauto.
    + intros H. pose proof (batch_of_keys _ _ _ H) as Hk.
      rewrite staged_commit_keys in Hk. apply in_map_iff in Hk as [r [<- Hr]].
      apply in_map. apply filter_In.
      apply In_kept_segment_rows in Hr as [Hr _].
      apply In_select_segments in Hr as [Hr Hs].
      split; [assumption|]. apply joins_iff. tauto.
Qed.

Lemma staged_delete_valid d : In d D -> valid_position d.
Proof.
  intros H. apply In_orphan_positions in H as [H _].
  rewrite positions_snapshot in H. apply in_map_iff in H as [r [<- Hr]].
  eapply select_segments_valid; eassumption.
Qed.

Lemma delete_matches_select f r :
  (forall x, seg_position (f x) = seg_position x) ->
  (forall x, seg_stream_id (f x) = seg_stream_id x) ->
  In r S ->
  negb (delete_matches streamID (map position_key D) (f r)) =
  mem_pos (seg_position r) A.
Proof.
  intros Hp Hs Hr. unfold delete_matches. rewrite Hp, Hs.
  pose proof (proj1 (In_select_segments streamID rows r) Hr) as [_ E].
  rewrite E, Z.eqb_refl. simpl.
  destruct (mem_pos (seg_position r) A) eqn:M.
  - apply negb_true_iff. apply not_true_is_false. intros Hex.
    apply existsb_exists in Hex as [k [Hk Ek]]. apply Z.eqb_eq in Ek.
    apply in_map_iff in Hk as [d [<- Hd]].
    apply position_key_inj in Ek;
      [| eapply select_segments_valid; eassumption
       | apply staged_delete_valid; assumption].
    subst d. apply In_orphan_positions in Hd as [_ Hd].
    apply mem_pos_In in M. contradiction.
  - apply negb_false_iff. apply existsb_exists.
    exists (position_key (seg_position r)). split; [|apply Z.eqb_refl].
    apply in_map. apply In_orphan_positions. split.
    + rewrite positions_snapshot. apply in_map. assumption.
    + apply mem_pos_not_In. assumption.
Qed.

Lemma stream_rows_staged :
  stream_rows streamID (staged_rows streamID rows A) =
  filter (fun r => negb (delete_matches streamID (map position_key D) r))
         (map (apply_offset streamID (staged_batch streamID rows A))
              (stream_rows streamID rows)).
Proof.
  unfold stream_rows, staged_rows. rewrite filter_comm. f_equal.
  rewrite !filter_map_swap. f_equal. apply filter_ext. intros r.
  rewrite apply_offset_stream. reflexivity.
Qed.

(** The snapshot of the table after staging: the rows the client lists,
    each with the offset the loop computed for it. *)
Lemma select_segments_staged :
  select_segments streamID (staged_rows streamID rows A) =
  set_offsets K (runningOffsets C 0).
Proof.
  unfold select_segments. fold (stream_rows streamID (staged_rows streamID rows A)).
  rewrite stream_rows_staged, order_by_position_filter.
  rewrite order_by_position_map by (intros; apply apply_offset_position).
  fold (select_segments streamID rows).
  rewrite filter_map_swap.
  rewrite (filter_ext_in _ (fun r => mem_pos (seg_position r) A)).
  - fold K. unfold staged_batch. apply apply_offset_batch.
    + apply Forall_forall. intros r Hr. apply In_kept_segment_rows in Hr as [Hr _].
      apply In_select_segments in Hr. tauto.
    + apply NoDup_kept_keys.
    + rewrite length_runningOffsets. unfold staged_commit. apply length_map.
  - intros r Hr. apply delete_matches_select; [| |assumption]; intros x.
    + apply apply_offset_position.
    + apply apply_offset_stream.
Qed.

Lemma staged_commit_positions : map cPosition C = A.
Proof.
  unfold staged_commit. rewrite map_map.
  change (map (fun x => cPosition (row_toCommit x)) K) with (map seg_position K).
  apply positions_kept_segment_rows; assumption.
Qed.

Lemma staged_commit_length : length C = length A.
Proof. rewrite <- staged_commit_positions at 2. rewrite length_map. reflexivity. Qed.
End StagingEffects.

(** ** The transaction *)

Lemma stageSegments_mismatch opts db e :
  determineCommitActions (Segments opts)
    (snapshot (StreamID (Stream opts)) (segments db)) = inl e ->
  stageSegments opts db = (inl e, db).
Proof.
  intros Hd.
  unfold stageSegments, tx_bind, fetchSegmentsForCommit.
  fold (snapshot (StreamID (Stream opts)) (segments db)).
  rewrite Hd. reflexivity.
Qed.

Lemma stageSegments_ok opts db :
  let streamID := StreamID (Stream opts) in
  segments_wf streamID (segments db) ->
  reconciled streamID (segments db) (Segments opts) ->
  stageSegments opts db =
  (inr (staged_commit streamID (segments db) (Segments opts),
        scan_deleted (staged_deleted_rows streamID (segments db) (Segments opts)) []),
   mkStore (objects db) (staged_rows streamID (segments db) (Segments opts))).
Proof.
  intros streamID Hwf Hrec.
  unfold stageSegments, tx_bind at 1, fetchSegmentsForCommit.
  fold streamID. fold (snapshot streamID (segments db)).
  unfold tx_bind at 1.
  rewrite Hrec.
  cbn [tx_lift tx_ret].
  unfold tx_bind at 1.
  rewrite updateSegmentOffsets_ok.
  - unfold tx_bind. rewrite deleteSegmentsNotInCommit_eq.
    cbn [segments objects tx_ret].
    destruct (unnest2_offsetUpdates_running
                (staged_commit streamID (segments db) (Segments opts))) as [-> _].
    reflexivity.
  - destruct (unnest2_offsetUpdates_running
                (staged_commit streamID (segments db) (Segments opts))) as [-> ->].
    apply joins_count; assumption.
Qed.

Lemma finishCommit_not_found opts finalSegments tx :
  filter (pending_object (Stream opts)) (objects tx) = [] ->
  fst (finishCommit opts finalSegments tx) = inl ErrObjectNotFound.
Proof.
  intros H. unfold finishCommit.
  destruct (totalSizes finalSegments) as [p e].
  unfold tx_bind, updateObject. rewrite H. reflexivity.
Qed.

Lemma finishCommit_found opts finalSegments tx o rest :
  filter (pending_object (Stream opts)) (objects tx) = o :: rest ->
  finishCommit opts finalSegments tx =
  (inr (mkObject (Stream opts) (obj_created_at o) (obj_expires_at o) Committed
                 (int32 (Z.of_nat (length finalSegments)))
                 (EncryptedMetadataNonce opts) (EncryptedMetadata opts)
                 (EncryptedMetadataEncryptedKey opts)
                 (fst (totalSizes finalSegments)) (snd (totalSizes finalSegments))
                 (fixedSegmentSize finalSegments) (obj_encryption o)),
   mkStore (map (fun o => if pending_object (Stream opts) o
                          then set_committed opts (Z.of_nat (length finalSegments))
                                 (fst (totalSizes finalSegments))
                                 (snd (totalSizes finalSegments))
                                 (fixedSegmentSize finalSegments) o
                          else o) (objects tx))
           (segments tx)).
Proof.
  intros H. unfold finishCommit.
  destruct (totalSizes finalSegments) as [p e].
  unfold tx_bind, updateObject. rewrite H. reflexivity.
Qed.

(** The outcome of the whole call, by cases on the validation, the
    reconciliation and the state of the object row. *)
Lemma CommitObjectWithSegments_cases Verify db opts :
  let streamID := StreamID (Stream opts) in
  segments_wf streamID (segments db) ->
  Verify (Stream opts) = None ->
  verifySegmentOrder (Segments opts) = None ->
  let C := staged_commit streamID (segments db) (Segments opts) in
  CommitObjectWithSegments Verify db opts =
  match determineCommitActions (Segments opts) (snapshot streamID (segments db)) with
  | inl e => (inl e, db)
  | inr _ =>
      match filter (pending_object (Stream opts)) (objects db) with
      | [] => (inl ErrObjectNotFound, db)
      | o :: _ =>
          (inr (mkObject (Stream opts) (obj_created_at o) (obj_expires_at o) Committed
                         (int32 (Z.of_nat (length C)))
                         (EncryptedMetadataNonce opts) (EncryptedMetadata opts)
                         (EncryptedMetadataEncryptedKey opts)
                         (fst (totalSizes C)) (snd (totalSizes C))
                         (fixedSegmentSize C) (obj_encryption o),
                scan_deleted (staged_deleted_rows streamID (segments db) (Segments opts)) []),
           mkStore (map (fun o => if pending_object (Stream opts) o
                                  then set_committed opts (Z.of_nat (length C))
                                         (fst (totalSizes C)) (snd (totalSizes C))
                                         (fixedSegmentSize C) o
                                  else o) (objects db))
                   (staged_rows streamID (segments db) (Segments opts)))
      end
  end.
Proof.
  intros streamID Hwf HV HO C.
  unfold CommitObjectWithSegments. rewrite HV, HO.
  unfold WithTx, commitTx. unfold tx_bind at 1.
  destruct (determineCommitActions (Segments opts) (snapshot streamID (segments db)))
    as [e|[fs ds]] eqn:Ed.
  - rewrite (stageSegments_mismatch opts db e) by exact Ed. reflexivity.
  - destruct (determineCommitActions_reconciled _ _ _ Hwf _ _ Ed) as [-> ->].
    rewrite stageSegments_ok by assumption.
    fold streamID. fold C. unfold tx_bind.
    destruct (filter (pending_object (Stream opts)) (objects db)) as [|o rest] eqn:Ef.
    + pose proof (finishCommit_not_found opts C
                    (mkStore (objects db)
                       (staged_rows streamID (segments db) (Segments opts)))) as Hnf.
      cbn [objects] in Hnf. specialize (Hnf Ef).
      destruct (finishCommit opts C _) as [[e|obj] tx']; simpl in Hnf;
        [|discriminate].
      injection Hnf as ->. reflexivity.
    + erewrite finishCommit_found by (cbn [objects]; exact Ef).
      reflexivity.
Qed.

(** ** Offsets after the commit *)

Lemma set_offsets_columns K : forall offsets,
  length offsets = length K ->
  map seg_position (set_offsets K offsets) = map seg_position K /\
  map seg_plain_size (set_offsets K offsets) = map seg_plain_size K /\
  map seg_plain_offset (set_offsets K offsets) = offsets.
Proof.
  induction K as [|r K IH]; intros [|e offsets] Hlen; try discriminate.
  - repeat split.
  - injection Hlen as Hlen. destruct (IH offsets Hlen) as [H1 [H2 H3]].
    rewrite set_offsets_cons. simpl. rewrite H1, H2, H3. repeat split.
Qed.

Lemma sumZ_perm l l' : Permutation l l' -> sumZ l = sumZ l'.
Proof. induction 1; simpl; lia. Qed.

Lemma filter_perm {X} (f : X -> bool) l l' :
  Permutation l l' -> Permutation (filter f l) (filter f l').
Proof.
  induction 1; simpl.
  - constructor.
  - destruct (f x); [apply perm_skip|]; assumption.
  - destruct (f x), (f y); try reflexivity. apply perm_swap.
  - etransitivity; eassumption.
Qed.

Lemma rows_below_stream streamID p rows :
  rows_below streamID p rows =
  filter (fun x => Less (seg_position x) p) (stream_rows streamID rows).
Proof.
  unfold rows_below, stream_rows. induction rows as [|x rows IH]; simpl; [reflexivity|].
  destruct (seg_stream_id x =? streamID); simpl; rewrite IH; reflexivity.
Qed.

(** In rows in ascending position order, the rows below the row at index
    [i] are the first [i] rows. *)
Lemma filter_below_firstn l : forall i r,
  ascending (map seg_position l) -> nth_error l i = Some r ->
  filter (fun x => Less (seg_position x) (seg_position r)) l = firstn i l.
Proof.
  induction l as [|x l IH]; intros i r Hasc Hi.
  - destruct i; discriminate.
  - simpl in Hasc. pose proof (ascending_inv _ _ Hasc) as [Hl Hx].
    destruct i as [|i]; simpl in Hi.
    + injection Hi as ->. simpl. rewrite Less_irrefl.
      rewrite (filter_ext_in _ (fun _ => false)); [apply filter_none|].
      intros y Hy. apply Less_asym.
      rewrite Forall_forall in Hx. apply Hx. apply in_map. assumption.
    + simpl. rewrite (IH i r Hl Hi).
      replace (Less (seg_position x) (seg_position r)) with true; [reflexivity|].
      symmetry. rewrite Forall_forall in Hx. apply Hx. apply in_map.
      eapply nth_error_In. eassumption.
Qed.

Lemma staged_commit_sizes streamID rows A :
  segments_wf streamID rows ->
  plain_sizes_int32 streamID rows ->
  Z.of_nat (length A) <= 2 ^ 32 ->
  ascending A ->
  reconciled streamID rows A ->
  sizes_in_range (staged_commit streamID rows A).
Proof.
  intros Hwf Hs Hlen HA Hmiss. split.
  - unfold staged_commit. apply Forall_forall. intros u Hu.
    apply in_map_iff in Hu as [r [<- Hr]].
    change (cPlainSize (row_toCommit r)) with (seg_plain_size r).
    apply In_kept_segment_rows in Hr as [Hr _].
    unfold plain_sizes_int32 in Hs. rewrite Forall_forall in Hs. apply Hs.
    apply (Permutation_in _ (Permutation_sym (select_segments_perm streamID rows))).
    assumption.
  - rewrite staged_commit_length; assumption.
Qed.

(** The snapshot after staging: the client's positions, each row with the
    sum of the plain sizes before it as its plain offset. *)
Lemma staged_snapshot_offsets streamID rows A :
  segments_wf streamID rows ->
  plain_sizes_int32 streamID rows ->
  Z.of_nat (length A) <= 2 ^ 32 ->
  ascending A ->
  reconciled streamID rows A ->
  let S' := select_segments streamID (staged_rows streamID rows A) in
  map seg_position S' = A /\
  forall i r, nth_error S' i = Some r ->
              seg_plain_offset r = sumZ (map seg_plain_size (firstn i S')).
Proof.
  intros Hwf Hs Hlen HA Hmiss S'.
  assert (ES : S' = set_offsets (kept_segment_rows streamID rows A)
                      (expectedOffsets (staged_commit streamID rows A))).
  { unfold S'. rewrite select_segments_staged by assumption.
    rewrite runningOffsets_expected; [reflexivity|].
    apply staged_commit_sizes; assumption. }
  destruct (set_offsets_columns (kept_segment_rows streamID rows A)
              (expectedOffsets (staged_commit streamID rows A)))
    as [Hpos [Hsize Hoff]].
  { rewrite length_expectedOffsets. unfold staged_commit. apply length_map. }
  rewrite <- ES in Hpos, Hsize, Hoff. split.
  - rewrite Hpos. apply positions_kept_segment_rows; assumption.
  - intros i r Hi.
    assert (Hi' : nth_error (map seg_plain_offset S') i = Some (seg_plain_offset r))
      by (rewrite nth_error_map, Hi; reflexivity).
    rewrite Hoff in Hi'.
    assert (Hlt : (i < length (staged_commit streamID rows A))%nat).
    { rewrite <- length_expectedOffsets. apply nth_error_Some. congruence. }
    rewrite nth_error_expectedOffsets in Hi' by assumption.
    injection Hi' as <-. unfold expectedOffset.
    rewrite <- firstn_map, <- firstn_map, Hsize. unfold staged_commit.
    rewrite map_map. reflexivity.
Qed.

(** ** Successful commits *)

Lemma CommitObjectWithSegments_success Verify db opts object deleted db' :
  let streamID := StreamID (Stream opts) in
  segments_wf streamID (segments db) ->
  CommitObjectWithSegments Verify db opts = (inr (object, deleted), db') ->
  Verify (Stream opts) = None /\
  ascending (Segments opts) /\
  reconciled streamID (segments db) (Segments opts) /\
  filter (pending_object (Stream opts)) (objects db) <> [] /\
  segments db' = staged_rows streamID (segments db) (Segments opts) /\
  deleted = scan_deleted (staged_deleted_rows streamID (segments db) (Segments opts)) [] /\
  oSegmentCount object =
    int32 (Z.of_nat (length (staged_commit streamID (segments db) (Segments opts)))) /\
  Forall (fun o => pending_object (Stream opts) o = false) (objects db').
Proof.
  intros streamID Hwf H.
  destruct (Verify (Stream opts)) as [e|] eqn:HV.
  { unfold CommitObjectWithSegments in H. rewrite HV in H. discriminate. }
  destruct (verifySegmentOrder (Segments opts)) as [e|] eqn:HO.
  { unfold CommitObjectWithSegments in H. rewrite HV, HO in H. discriminate. }
  rewrite CommitObjectWithSegments_cases in H by assumption.
  fold streamID in H.
  destruct (determineCommitActions (Segments opts) (snapshot streamID (segments db)))
    as [e|[fs ds]] eqn:Ed; [discriminate|].
  destruct (determineCommitActions_reconciled _ _ _ Hwf _ _ Ed) as [-> ->].
  destruct (filter (pending_object (Stream opts)) (objects db)) as [|o rest];
    [discriminate|].
  injection H as <- <- <-.
  repeat split; try reflexivity.
  - apply verifySegmentOrder_ascending. assumption.
  - exact Ed.
  - discriminate.
  - cbn [objects]. apply Forall_forall. intros x Hx.
    apply in_map_iff in Hx as [y [<- Hy]].
    destruct (pending_object (Stream opts) y) eqn:E; [|assumption].
    unfold pending_object, set_committed. simpl. apply andb_false_r.
Qed.

(** C2 (offset rewrite).  For a commit list whose plain sizes are 32-bit
    values, the batch [updateSegmentOffsets] builds holds exactly the
    segments whose old plain offset differs from the expected one, each with
    the expected offset as its new offset; the expected offset of the
    segment at index [i] is the sum of the plain sizes of the segments
    before it (0 for the first).  After a successful commit, the rows of
    the stream are at the client's positions and the plain offset of each
    is the sum of the plain sizes of the rows of the stream at strictly
    lower positions. *)
Theorem C2_offset_rewrite :
  (forall updates,
      sizes_in_range updates ->
      expectedOffset updates 0 = 0 /\
      Positions (offsetUpdates updates) =
        map fst (batch_of updates (expectedOffsets updates)) /\
      PlainOffsets (offsetUpdates updates) =
        map snd (batch_of updates (expectedOffsets updates)) /\
      (forall k o,
          In (k, o) (combine (Positions (offsetUpdates updates))
                             (PlainOffsets (offsetUpdates updates))) <->
          exists i u, nth_error updates i = Some u /\
                      k = position_key (cPosition u) /\
                      o = sumZ (map cPlainSize (firstn i updates)) /\
                      cOldPlainOffset u <> o)) /\
  (forall Verify db opts object deleted db',
      let streamID := StreamID (Stream opts) in
      segments_wf streamID (segments db) ->
      plain_sizes_int32 streamID (segments db) ->
      Z.of_nat (length (Segments opts)) <= 2 ^ 32 ->
      CommitObjectWithSegments Verify db opts = (inr (object, deleted), db') ->
      map seg_position (select_segments streamID (segments db')) = Segments opts /\
      (forall r, In r (segments db') -> seg_stream_id r = streamID ->
                 In (seg_position r) (Segments opts) /\
                 seg_plain_offset r =
                   sumZ (map seg_plain_size
                             (rows_below streamID (seg_position r) (segments db'))))).
Proof.
  split.
  - intros updates Hr. destruct (offsetUpdates_batch updates Hr) as [HP HO].
    split; [reflexivity|]. split; [exact HP|]. split; [exact HO|].
    intros k o. fold (unnest2 (offsetUpdates updates)).
    rewrite unnest2_offsetUpdates by assumption. rewrite In_batch_of.
    split.
    + intros [i [u [Hu [Ho [Hk Hne]]]]]. exists i, u.
      rewrite nth_error_expectedOffsets in Ho
        by (apply nth_error_Some; congruence).
      injection Ho as <-. unfold expectedOffset in *. tauto.
    + intros [i [u [Hu [Hk [Ho Hne]]]]]. exists i, u.
      rewrite nth_error_expectedOffsets by (apply nth_error_Some; congruence).
      unfold expectedOffset. subst o. tauto.
  - intros Verify db opts object deleted db' streamID Hwf Hs Hlen H.
    apply CommitObjectWithSegments_success in H
      as [_ [HA [Hmiss [_ [Hrows _]]]]]; [|assumption].
    fold streamID in Hmiss, Hrows.
    destruct (staged_snapshot_offsets streamID (segments db) (Segments opts)
                Hwf Hs Hlen HA Hmiss) as [Hpos Hoff].
    rewrite <- Hrows in Hpos, Hoff. split; [exact Hpos|].
    intros r Hr Hst.
    assert (HrS : In r (select_segments streamID (segments db')))
      by (apply In_select_segments; tauto).
    split.
    + rewrite <- Hpos. apply in_map. assumption.
    + apply In_nth_error in HrS as [i Hi].
      rewrite (Hoff i r Hi). rewrite rows_below_stream.
      rewrite <- (filter_below_firstn _ i r);
        [| rewrite Hpos; assumption | assumption].
      apply sumZ_perm. apply Permutation_map. apply filter_perm.
      apply Permutation_sym. apply select_segments_perm.
Qed.

(** ** The example store is well formed *)

Lemma example_segments_wf root1 : segments_wf 7 (example_segments root1).
Proof.
  split.
  - simpl. repeat constructor; simpl; intuition discriminate.
  - simpl. repeat constructor; simpl; unfold is_uint32; lia.
Defined.

Lemma example_plain_sizes root1 : plain_sizes_int32 7 (example_segments root1).
Proof.
  unfold plain_sizes_int32. simpl.
  repeat constructor; simpl; unfold is_int32; lia.
Defined.

Lemma C2_offset_rewrite_witness :
  let updates := [mkCommit (mkPos 0 0) 0 10 26; mkCommit (mkPos 0 2) 0 10 26;
                  mkCommit (mkPos 0 3) 20 10 26] in
  let db := example_store in
  let opts := example_opts [mkPos 0 0; mkPos 0 2] in
  let db' := snd (CommitObjectWithSegments verify_ok db opts) in
  (Positions (offsetUpdates updates) =
     map fst (batch_of updates (expectedOffsets updates)) /\
   unnest2 (offsetUpdates updates) = [(position_key (mkPos 0 2), 10)]) /\
  (map seg_position (select_segments 7 (segments db')) = [mkPos 0 0; mkPos 0 2] /\
   map seg_plain_offset (select_segments 7 (segments db')) = [0; 10]).
Proof.
  intros updates db opts db'.
  assert (Hr : sizes_in_range updates).
  { split; [|simpl; lia]. repeat constructor; simpl; unfold is_int32; lia. }
  assert (Hlen : Z.of_nat (length (Segments opts)) <= 2 ^ 32) by (simpl; lia).
  split.
  - split; [|reflexivity].
    exact (proj1 (proj2 (proj1 C2_offset_rewrite updates Hr))).
  - pose (res := CommitObjectWithSegments verify_ok db opts).
    assert (E : CommitObjectWithSegments verify_ok db opts = res) by reflexivity.
    vm_compute in (value of res).
    pose proof (proj2 C2_offset_rewrite verify_ok db opts _ _ _
                 (example_segments_wf 5) (example_plain_sizes 5) Hlen E) as H.
    split; [|reflexivity].
    exact (proj1 H).
Defined.

(** ** The object row *)

Lemma updateSegmentOffsets_objects streamID updates tx r tx' :
  updateSegmentOffsets streamID updates tx = (r, tx') -> objects tx' = objects tx.
Proof.
  unfold updateSegmentOffsets. destruct updates as [|u updates].
  - intros H. injection H as _ <-. reflexivity.
  - destruct (Positions (offsetUpdates (u :: updates))).
    + intros H. injection H as _ <-. reflexivity.
    + unfold exec_update_offsets.
      match goal with |- context [if ?c then _ else _] => destruct c end;
        intros H; injection H as _ <-; reflexivity.
Qed.

Lemma deleteSegmentsNotInCommit_objects streamID segs tx r tx' :
  deleteSegmentsNotInCommit streamID segs tx = (r, tx') -> objects tx' = objects tx.
Proof.
  rewrite deleteSegmentsNotInCommit_eq. intros H. injection H as _ <-. reflexivity.
Qed.

(** Staging never touches the [objects] table. *)
Lemma stageSegments_objects opts db r tx :
  stageSegments opts db = (r, tx) -> objects tx = objects db.
Proof.
  unfold stageSegments, tx_bind at 1, fetchSegmentsForCommit.
  unfold tx_bind at 1.
  destruct (determineCommitActions _ _) as [e | [finalSegments segmentsToDelete]];
    cbn [tx_lift tx_fail tx_ret].
  - intros H. injection H as _ <-. reflexivity.
  - unfold tx_bind at 1.
    destruct (updateSegmentOffsets _ finalSegments db) as [[e | []] tx1] eqn:E1.
    + intros H. injection H as _ <-. eapply updateSegmentOffsets_objects; eassumption.
    + unfold tx_bind.
      destruct (deleteSegmentsNotInCommit _ segmentsToDelete tx1) as [[e | d] tx2] eqn:E2;
        intros H; injection H as _ <-;
        rewrite (deleteSegmentsNotInCommit_objects _ _ _ _ _ E2);
        eapply updateSegmentOffsets_objects; eassumption.
Qed.

(** ** The aggregates of the commit list *)

(** Staging returns the commit list of the reconciliation. *)
Lemma stageSegments_commit_set opts db finalSegments deleted tx :
  stageSegments opts db = (inr (finalSegments, deleted), tx) ->
  exists segmentsToDelete,
    determineCommitActions (Segments opts)
      (snapshot (StreamID (Stream opts)) (segments db)) =
    inr (finalSegments, segmentsToDelete).
Proof.
  unfold stageSegments, tx_bind at 1, fetchSegmentsForCommit.
  fold (snapshot (StreamID (Stream opts)) (segments db)).
  unfold tx_bind at 1.
  destruct (determineCommitActions _ _) as [e | [fs ds]];
    cbn [tx_lift tx_fail tx_ret]; [intros H; discriminate H|].
  unfold tx_bind at 1.
  destruct (updateSegmentOffsets _ fs db) as [[e | []] tx1];
    [intros H; discriminate H|].
  unfold tx_bind.
  destruct (deleteSegmentsNotInCommit _ ds tx1) as [[e | d] tx2];
    [intros H; discriminate H|].
  intros H. injection H as -> _ _. exists ds. reflexivity.
Qed.

(** What a successful call computed: the commit list the reconciliation
    returned, and the aggregates of that list in the returned object and
    in the object rows it updated. *)
Lemma CommitObjectWithSegments_commit_set Verify db opts object deleted db' :
  CommitObjectWithSegments Verify db opts = (inr (object, deleted), db') ->
  exists finalSegments segmentsToDelete o rest,
    determineCommitActions (Segments opts)
      (snapshot (StreamID (Stream opts)) (segments db)) =
      inr (finalSegments, segmentsToDelete) /\
    filter (pending_object (Stream opts)) (objects db) = o :: rest /\
    object = mkObject (Stream opts) (obj_created_at o) (obj_expires_at o) Committed
                      (int32 (Z.of_nat (length finalSegments)))
                      (EncryptedMetadataNonce opts) (EncryptedMetadata opts)
                      (EncryptedMetadataEncryptedKey opts)
                      (fst (totalSizes finalSegments)) (snd (totalSizes finalSegments))
                      (fixedSegmentSize finalSegments) (obj_encryption o) /\
    objects db' =
    map (fun o => if pending_object (Stream opts) o
                  then set_committed opts (Z.of_nat (length finalSegments))
                         (fst (totalSizes finalSegments))
                         (snd (totalSizes finalSegments))
                         (fixedSegmentSize finalSegments) o
                  else o) (objects db).
Proof.
  unfold CommitObjectWithSegments.
  destruct (Verify (Stream opts)); [intros H; discriminate H|].
  destruct (verifySegmentOrder (Segments opts)); [intros H; discriminate H|].
  unfold WithTx, commitTx, tx_bind at 1.
  destruct (stageSegments opts db) as [[e | [fs del]] tx1] eqn:Es;
    [intros H; discriminate H|].
  destruct (stageSegments_commit_set _ _ _ _ _ Es) as [ds Hd].
  pose proof (stageSegments_objects _ _ _ _ Es) as Ho.
  unfold tx_bind.
  destruct (filter (pending_object (Stream opts)) (objects tx1)) as [|o rest] eqn:Ef.
  - pose proof (finishCommit_not_found opts fs tx1 Ef) as Hnf.
    destruct (finishCommit opts fs tx1) as [[e|obj] tx2]; simpl in Hnf;
      [intros H; discriminate H | discriminate Hnf].
  - rewrite (finishCommit_found opts fs tx1 o rest Ef). cbn [tx_ret].
    intros H. injection H as <- <- <-.
    exists fs, ds, o, rest. cbn [objects]. rewrite <- Ho.
    repeat split; assumption.
Qed.

(** C3 (fixed segment size).  The aggregate is 0 for the empty commit set;
    it is the sentinel -1 when a segment has a non-zero part number or a
    segment other than the last has an encrypted size different from the
    first segment's; otherwise it is the first segment's encrypted size.
    Sizes 10, 10, 7 in part 0 give 10; a segment in part 1 gives -1.  The
    aggregate a successful commit returns in the object and writes to the
    object rows that were pending is the one of the commit list the
    reconciliation returned. *)
Theorem C3_fixed_segment_size :
  fixedSegmentSize [] = 0 /\
  (forall first rest,
      let l := first :: rest in
      (multipart l \/ nonlast_differs (cEncryptedSize first) l ->
       fixedSegmentSize l = -1) /\
      (~ (multipart l \/ nonlast_differs (cEncryptedSize first) l) ->
       fixedSegmentSize l = cEncryptedSize first)) /\
  (forall o1 o2 o3 p1 p2 p3,
      fixedSegmentSize [mkCommit (mkPos 0 0) o1 p1 10;
                        mkCommit (mkPos 0 1) o2 p2 10;
                        mkCommit (mkPos 0 2) o3 p3 7] = 10) /\
  (forall o1 o2 p1 p2,
      fixedSegmentSize [mkCommit (mkPos 0 0) o1 p1 10;
                        mkCommit (mkPos 1 0) o2 p2 5] = -1) /\
  (forall Verify db opts object deleted db',
      CommitObjectWithSegments Verify db opts = (inr (object, deleted), db') ->
      exists finalSegments segmentsToDelete,
        determineCommitActions (Segments opts)
          (snapshot (StreamID (Stream opts)) (segments db)) =
          inr (finalSegments, segmentsToDelete) /\
        oFixedSegmentSize object = fixedSegmentSize finalSegments /\
        (exists o, In o (objects db) /\ pending_object (Stream opts) o = true) /\
        (forall i o,
            nth_error (objects db) i = Some o ->
            pending_object (Stream opts) o = true ->
            exists o',
              nth_error (objects db') i = Some o' /\
              obj_fixed_segment_size o' = fixedSegmentSize finalSegments)).
Proof.
  refine (conj eq_refl (conj _ (conj _ (conj _ _)))).
  - intros first rest l. split.
    + intros H. unfold fixedSegmentSize, l.
      apply fixedSegmentSize_loop_varies; [lia|].
      destruct H as [H | [i [seg [Hi [Hlt Hne]]]]]; [left; exact H|].
      right. exists i, seg. repeat split; try assumption. fold l. lia.
    + intros H. unfold fixedSegmentSize, l.
      apply fixedSegmentSize_loop_uniform; [lia | |].
      * apply not_multipart. tauto.
      * intros j seg Hj Hlt.
        apply (not_nonlast_differs (cEncryptedSize first) l) with (i := j);
          [tauto | assumption | fold l in Hlt; lia].
  - reflexivity.
  - reflexivity.
  - intros Verify db opts object deleted db' H.
    destruct (CommitObjectWithSegments_commit_set _ _ _ _ _ _ H)
      as [fs [ds [o [rest [Hd [Hf [-> Hobj]]]]]]].
    exists fs, ds. split; [exact Hd|]. split; [reflexivity|]. split.
    + exists o. apply filter_In. rewrite Hf. left. reflexivity.
    + intros i x Hi Hp. rewrite Hobj, nth_error_map, Hi. simpl. rewrite Hp.
      eexists. split; reflexivity.
Qed.

Lemma C3_fixed_segment_size_witness :
  let opts := example_opts [mkPos 0 0; mkPos 0 2] in
  let res := CommitObjectWithSegments verify_ok example_store opts in
  exists object deleted finalSegments segmentsToDelete,
    fst res = inr (object, deleted) /\
    determineCommitActions (Segments opts) (snapshot 7 (segments example_store)) =
      inr (finalSegments, segmentsToDelete) /\
    oFixedSegmentSize object = fixedSegmentSize finalSegments.
Proof.
  intros opts res0.
  pose (res := CommitObjectWithSegments verify_ok example_store opts).
  assert (E : CommitObjectWithSegments verify_ok example_store opts = res)
    by reflexivity.
  vm_compute in (value of res).
  destruct (proj2 (proj2 (proj2 (proj2 C3_fixed_segment_size)))
              verify_ok example_store opts _ _ _ E)
    as [fs [ds [Hd [Hf _]]]].
  eexists. eexists. exists fs, ds.
  split; [reflexivity|]. split; [exact Hd | exact Hf].
Defined.

(** ** A call without a pending object row *)

(** When no object row is pending for the stream, the transaction fails:
    with the error of staging when staging fails, and with "not found" when
    staging goes through. *)
Lemma commitTx_not_pending opts db :
  filter (pending_object (Stream opts)) (objects db) = [] ->
  exists e tx, commitTx opts db = (inl e, tx) /\
               (forall finalSegments deleted tx',
                   stageSegments opts db = (inr (finalSegments, deleted), tx') ->
                   e = ErrObjectNotFound).
Proof.
  intros Hp. unfold commitTx, tx_bind at 1.
  destruct (stageSegments opts db) as [[e | [finalSegments deleted]] tx1] eqn:Es.
  - exists e, tx1. split; [reflexivity|]. intros ? ? ? H. discriminate.
  - pose proof (stageSegments_objects _ _ _ _ Es) as Ho.
    pose proof (finishCommit_not_found opts finalSegments tx1) as Hf.
    rewrite Ho in Hf. specialize (Hf Hp). unfold tx_bind.
    destruct (finishCommit opts finalSegments tx1) as [[e | obj] tx2];
      simpl in Hf; [|discriminate].
    injection Hf as ->. exists ErrObjectNotFound, tx2. split; reflexivity.
Qed.

Lemma CommitObjectWithSegments_not_pending Verify db opts :
  filter (pending_object (Stream opts)) (objects db) = [] ->
  exists e, CommitObjectWithSegments Verify db opts = (inl e, db).
Proof.
  intros Hp. unfold CommitObjectWithSegments.
  destruct (Verify (Stream opts)) as [e|]; [eauto|].
  destruct (verifySegmentOrder (Segments opts)) as [e|]; [eauto|].
  destruct (commitTx_not_pending opts db Hp) as [e [tx [H _]]].
  unfold WithTx. rewrite H. eauto.
Qed.

(** C4 (rollback when the object is not pending).  When no row of
    [objects] is Pending for the identity, version and stream id of the
    call, [CommitObjectWithSegments] returns an error and the store it
    leaves is the store it was given; when the call gets as far as the
    conditional update, that is when validation and the work on the
    segments went through, the error is "object not found", and the rows
    staged for deletion or offset rewrite are as before the call. *)
Theorem C4_not_pending_rolls_back Verify db opts :
  filter (pending_object (Stream opts)) (objects db) = [] ->
  (exists e, CommitObjectWithSegments Verify db opts = (inl e, db)) /\
  (forall finalSegments deleted tx,
      Verify (Stream opts) = None ->
      verifySegmentOrder (Segments opts) = None ->
      stageSegments opts db = (inr (finalSegments, deleted), tx) ->
      CommitObjectWithSegments Verify db opts = (inl ErrObjectNotFound, db) /\
      segments (snd (CommitObjectWithSegments Verify db opts)) = segments db).
Proof.
  intros Hp. split; [apply CommitObjectWithSegments_not_pending; assumption|].
  intros finalSegments deleted tx HV HO Hs.
  destruct (commitTx_not_pending opts db Hp) as [e [tx' [H He]]].
  specialize (He _ _ _ Hs). subst e.
  unfold CommitObjectWithSegments, WithTx. rewrite HV, HO, H. split; reflexivity.
Qed.

Lemma C4_not_pending_rolls_back_witness :
  let db := example_store_committed in
  let opts := example_opts [mkPos 0 0; mkPos 0 2] in
  length (segments (snd (stageSegments opts db))) = 3%nat /\
  length (segments db) = 4%nat /\
  CommitObjectWithSegments verify_ok db opts = (inl ErrObjectNotFound, db).
Proof.
  intros db opts.
  pose (res := stageSegments opts db).
  assert (E : stageSegments opts db = res) by reflexivity.
  vm_compute in (value of res).
  split; [reflexivity|]. split; [reflexivity|].
  exact (proj1 (proj2 (C4_not_pending_rolls_back verify_ok db opts eq_refl)
                      _ _ _ eq_refl eq_refl E)).
Defined.

(** ** Client positions the store lacks *)

Lemma drain_as_invalid as_ s :
  invalidSegments (drain_as commitCallback as_ s) = invalidSegments s ++ as_.
Proof. rewrite drain_as_commit. reflexivity. Qed.

(** Whatever the order of the inputs, the walk never drops a mismatch and
    records every client position the snapshot lacks. *)
Lemma diff_records_missing as_ : forall bs s,
  let s' := diffSegmentsWithDatabase commitCallback as_ bs s in
  (forall q, In q (invalidSegments s) -> In q (invalidSegments s')) /\
  (forall q, In q as_ -> ~ In q (positions bs) -> In q (invalidSegments s')).
Proof.
  induction as_ as [|a as_ IHa]; intros bs s.
  - cbn [diffSegmentsWithDatabase]. rewrite drain_bs_commit, drain_as_commit.
    cbn [invalidSegments]. rewrite app_nil_r. split; [auto | intros q []].
  - revert s. induction bs as [|b bs IHb]; intros s.
    + cbn [diffSegmentsWithDatabase]. rewrite drain_bs_commit, drain_as_commit.
      cbn [invalidSegments]. split; intros q Hq; [|intros _];
        apply in_or_app; auto.
    + cbn [diffSegmentsWithDatabase]. cbn [diffSegmentsWithDatabase] in IHb.
      destruct (pos_eqb a (Position b)) eqn:Eab.
      * apply pos_eqb_eq in Eab.
        destruct (IHa bs (commitCallback (Some a) (Some b) s)) as [H1 H2].
        split.
        -- intros q Hq. apply H1. exact Hq.
        -- intros q [<- | Hq] Hn.
           ++ exfalso. apply Hn. left. congruence.
           ++ apply H2; [assumption|]. intros Hin. apply Hn. right. assumption.
      * destruct (Less a (Position b)).
        -- destruct (IHa (b :: bs) (commitCallback (Some a) None s)) as [H1 H2].
           split.
           ++ intros q Hq. apply H1. cbn [commitCallback invalidSegments].
              apply in_or_app. auto.
           ++ intros q [<- | Hq] Hn.
              ** apply H1. cbn [commitCallback invalidSegments].
                 apply in_or_app. right. left. reflexivity.
              ** apply H2; assumption.
        -- destruct (IHb (commitCallback None (Some b) s)) as [H1 H2].
           split.
           ++ intros q Hq. apply H1. exact Hq.
           ++ intros q Hq Hn. apply H2; [assumption|].
              intros Hin. apply Hn. right. assumption.
Qed.

Lemma determineCommitActions_missing as_ bs p :
  In p as_ -> ~ In p (positions bs) ->
  exists invalid,
    determineCommitActions as_ bs = inl (ErrSegmentsMismatch invalid) /\
    (forall q, In q as_ -> ~ In q (positions bs) -> In q invalid).
Proof.
  intros Hp Hn. unfold determineCommitActions, commitWalk.
  destruct (diff_records_missing as_ bs (mkActions [] [] [])) as [_ H].
  cbv zeta in H.
  destruct (invalidSegments
              (diffSegmentsWithDatabase commitCallback as_ bs (mkActions [] [] [])))
    as [|x l] eqn:E.
  - exfalso. apply (H p Hp Hn).
  - exists (x :: l). split; [reflexivity | exact H].
Qed.

Lemma In_positions_snapshot streamID rows p :
  In p (positions (snapshot streamID rows)) <->
  exists r, In r rows /\ seg_stream_id r = streamID /\ seg_position r = p.
Proof.
  unfold snapshot. rewrite positions_scan, in_map_iff. split.
  - intros [r [<- Hr]]. apply In_select_segments in Hr. exists r. tauto.
  - intros [r [Hr [Hs <-]]]. exists r. split; [reflexivity|].
    apply In_select_segments. tauto.
Qed.

(** C5 (a position the store lacks fails the whole reconciliation).  When
    the client list holds a position that is not in the snapshot,
    [determineCommitActions] returns the error only, and the error carries
    every such position; for ascending inputs it carries exactly those.  The
    call of [CommitObjectWithSegments] then fails and leaves the store as it
    was; the transaction has written nothing when it fails. *)
Theorem C5_missing_position_fails :
  (forall as_ bs p,
      In p as_ -> ~ In p (positions bs) ->
      exists invalid,
        determineCommitActions as_ bs = inl (ErrSegmentsMismatch invalid) /\
        (forall q, In q as_ -> ~ In q (positions bs) -> In q invalid) /\
        (ascending as_ -> ascending (positions bs) ->
         forall q, In q invalid <-> In q as_ /\ ~ In q (positions bs))) /\
  (forall Verify db opts p,
      let streamID := StreamID (Stream opts) in
      In p (Segments opts) ->
      (forall r, In r (segments db) -> seg_stream_id r = streamID ->
                 seg_position r <> p) ->
      (exists e, CommitObjectWithSegments Verify db opts = (inl e, db)) /\
      (Verify (Stream opts) = None ->
       verifySegmentOrder (Segments opts) = None ->
       exists invalid,
         commitTx opts db = (inl (ErrSegmentsMismatch invalid), db) /\
         CommitObjectWithSegments Verify db opts =
           (inl (ErrSegmentsMismatch invalid), db) /\
         (forall q, In q (Segments opts) ->
                    (forall r, In r (segments db) -> seg_stream_id r = streamID ->
                               seg_position r <> q) ->
                    In q invalid))).
Proof.
  split.
  - intros as_ bs p Hp Hn.
    destruct (determineCommitActions_missing as_ bs p Hp Hn) as [invalid [E H]].
    exists invalid. split; [exact E|]. split; [exact H|].
    intros Ha Hb q.
    unfold determineCommitActions in E.
    rewrite (commitWalk_ascending as_ bs Ha Hb) in E.
    cbn [invalidSegments commit toDelete] in E.
    destruct (missing_positions as_ bs) as [|x l] eqn:Em; [discriminate|].
    injection E as <-. rewrite <- Em. apply In_missing_positions.
  - intros Verify db opts p streamID Hp Habsent.
    assert (Hn : forall q,
               (forall r, In r (segments db) -> seg_stream_id r = streamID ->
                          seg_position r <> q) ->
               ~ In q (positions (snapshot streamID (segments db)))).
    { intros q Hq Hin. apply In_positions_snapshot in Hin as [r [Hr [Hs E]]].
      exact (Hq r Hr Hs E). }
    destruct (determineCommitActions_missing (Segments opts)
                (snapshot streamID (segments db)) p Hp (Hn p Habsent))
      as [invalid [E H]].
    assert (Htx : commitTx opts db = (inl (ErrSegmentsMismatch invalid), db)).
    { unfold commitTx, tx_bind at 1, stageSegments, tx_bind at 1,
        fetchSegmentsForCommit.
      fold streamID. fold (snapshot streamID (segments db)).
      unfold tx_bind at 1. rewrite E. reflexivity. }
    split.
    + unfold CommitObjectWithSegments.
      destruct (Verify (Stream opts)) as [e|]; [eauto|].
      destruct (verifySegmentOrder (Segments opts)) as [e|]; [eauto|].
      unfold WithTx. rewrite Htx. eauto.
    + intros HV HO. exists invalid. split; [exact Htx|]. split.
      * unfold CommitObjectWithSegments, WithTx. rewrite HV, HO, Htx. reflexivity.
      * intros q Hq Hqa. apply H; [assumption | apply Hn; assumption].
Qed.

Lemma C5_missing_position_fails_witness :
  let db := example_store in
  let opts := example_opts [mkPos 0 0; mkPos 0 3; mkPos 0 4] in
  (exists invalid,
      determineCommitActions (Segments opts) (snapshot 7 (segments db)) =
        inl (ErrSegmentsMismatch invalid) /\
      In (mkPos 0 3) invalid /\ In (mkPos 0 4) invalid) /\
  (exists e, CommitObjectWithSegments verify_ok db opts = (inl e, db)).
Proof.
  intros db opts.
  assert (Hin : In (mkPos 0 3) (Segments opts)) by (simpl; auto).
  assert (Habs : forall r, In r (segments db) -> seg_stream_id r = 7 ->
                           seg_position r <> mkPos 0 3).
  { simpl. intros r [<- | [<- | [<- | [<- | []]]]] _; discriminate. }
  assert (Hn3 : ~ In (mkPos 0 3) (positions (snapshot 7 (segments db))))
    by (simpl; intuition discriminate).
  assert (Hn4 : ~ In (mkPos 0 4) (positions (snapshot 7 (segments db))))
    by (simpl; intuition discriminate).
  split.
  - destruct (proj1 C5_missing_position_fails (Segments opts)
                    (snapshot 7 (segments db)) (mkPos 0 3) Hin Hn3)
      as [invalid [E [H _]]].
    exists invalid. split; [exact E|]. split.
    + apply H; [simpl; auto | exact Hn3].
    + apply H; [simpl; auto | exact Hn4].
  - exact (proj1 (proj2 C5_missing_position_fails verify_ok db opts
                        (mkPos 0 3) Hin Habs)).
Defined.

(** ** The segment count *)

Lemma CommitObjectWithSegments_success_objects Verify db opts object deleted db' :
  let streamID := StreamID (Stream opts) in
  let C := staged_commit streamID (segments db) (Segments opts) in
  segments_wf streamID (segments db) ->
  CommitObjectWithSegments Verify db opts = (inr (object, deleted), db') ->
  objects db' =
  map (fun o => if pending_object (Stream opts) o
                then set_committed opts (Z.of_nat (length C))
                       (fst (totalSizes C)) (snd (totalSizes C))
                       (fixedSegmentSize C) o
                else o) (objects db).
Proof.
  intros streamID C Hwf H.
  destruct (Verify (Stream opts)) as [e|] eqn:HV.
  { unfold CommitObjectWithSegments in H. rewrite HV in H. discriminate. }
  destruct (verifySegmentOrder (Segments opts)) as [e|] eqn:HO.
  { unfold CommitObjectWithSegments in H. rewrite HV, HO in H. discriminate. }
  rewrite CommitObjectWithSegments_cases in H by assumption.
  fold streamID in H.
  destruct (determineCommitActions (Segments opts) (snapshot streamID (segments db)))
    as [e|fd]; [discriminate|].
  destruct (filter (pending_object (Stream opts)) (objects db)) as [|o rest];
    [discriminate|].
  injection H as _ _ <-. reflexivity.
Qed.

(** C10 (segment count).  On a successful commit of a list of fewer than
    2^31 segments, reconciliation returned one commit entry per submitted
    position, and the [SegmentCount] of the returned object and the
    [segment_count] written to the object row both equal the length of the
    submitted list. *)
Theorem C10_segment_count Verify db opts object deleted db' :
  let streamID := StreamID (Stream opts) in
  segments_wf streamID (segments db) ->
  Z.of_nat (length (Segments opts)) < 2 ^ 31 ->
  CommitObjectWithSegments Verify db opts = (inr (object, deleted), db') ->
  (exists finalSegments segmentsToDelete,
      determineCommitActions (Segments opts) (snapshot streamID (segments db)) =
        inr (finalSegments, segmentsToDelete) /\
      map cPosition finalSegments = Segments opts) /\
  oSegmentCount object = Z.of_nat (length (Segments opts)) /\
  (exists o, In o (objects db) /\ pending_object (Stream opts) o = true) /\
  (forall i o,
      nth_error (objects db) i = Some o ->
      pending_object (Stream opts) o = true ->
      exists o',
        nth_error (objects db') i = Some o' /\
        obj_status o' = Committed /\
        obj_stream_id o' = streamID /\
        obj_segment_count o' = Z.of_nat (length (Segments opts))).
Proof.
  intros streamID Hwf Hlen H.
  pose proof (CommitObjectWithSegments_success_objects _ _ _ _ _ _ Hwf H) as Hobj.
  apply CommitObjectWithSegments_success in H
    as [_ [HA [Hmiss [Hp [_ [_ [Hcount _]]]]]]]; [|assumption].
  fold streamID in Hmiss, Hcount, Hobj.
  pose proof (staged_commit_length streamID (segments db) (Segments opts)
                Hwf Hmiss) as HlenC.
  refine (conj _ (conj _ (conj _ _))).
  - exists (staged_commit streamID (segments db) (Segments opts)),
           (staged_delete streamID (segments db) (Segments opts)).
    split.
    + exact Hmiss.
    + apply staged_commit_positions; assumption.
  - rewrite Hcount, HlenC. apply int32_id. unfold is_int32. lia.
  - destruct (filter (pending_object (Stream opts)) (objects db)) as [|o rest] eqn:E;
      [congruence|].
    exists o. apply filter_In. rewrite E. left. reflexivity.
  - intros i o Hi Hpo. rewrite Hobj, nth_error_map, Hi. simpl. rewrite Hpo.
    eexists. split; [reflexivity|]. cbn [set_committed obj_status obj_stream_id
                                         obj_segment_count].
    rewrite HlenC. repeat split.
    unfold pending_object in Hpo. rewrite !andb_true_iff in Hpo.
    apply Z.eqb_eq. tauto.
Qed.

Lemma C10_segment_count_witness :
  let db := example_store in
  let opts := example_opts [mkPos 0 0; mkPos 0 2] in
  let res := CommitObjectWithSegments verify_ok db opts in
  (exists object deleted, fst res = inr (object, deleted) /\
                          oSegmentCount object = 2) /\
  map obj_segment_count (objects (snd res)) = [2].
Proof.
  intros db opts res0.
  pose (res := CommitObjectWithSegments verify_ok db opts).
  assert (E : CommitObjectWithSegments verify_ok db opts = res) by reflexivity.
  vm_compute in (value of res).
  assert (Hlen : Z.of_nat (length (Segments opts)) < 2 ^ 31) by (simpl; lia).
  pose proof (C10_segment_count verify_ok db opts _ _ _
                (example_segments_wf 5) Hlen E) as H.
  split; [|reflexivity].
  eexists. eexists. split; [reflexivity|].
  exact (proj1 (proj2 H)).
Defined.

(** ** Orphan deletion *)

Lemma filter_andb {X} (f g : X -> bool) l :
  filter g (filter f l) = filter (fun x => f x && g x) l.
Proof.
  induction l as [|x l IH]; simpl; [reflexivity|].
  destruct (f x); simpl; [destruct (g x)|]; rewrite IH; reflexivity.
Qed.

Lemma delete_matches_at_positions streamID segs r :
  Forall valid_position segs ->
  (seg_stream_id r = streamID -> valid_position (seg_position r)) ->
  delete_matches streamID (map position_key segs) r = at_positions streamID segs r.
Proof.
  intros Hv Hr. unfold delete_matches, at_positions.
  destruct (seg_stream_id r =? streamID) eqn:E; [|reflexivity]. simpl.
  apply Z.eqb_eq in E. specialize (Hr E).
  induction Hv as [|s segs Hs Hv IH]; simpl; [reflexivity|].
  rewrite IH. f_equal.
  destruct (pos_eqb (seg_position r) s) eqn:Ep.
  - apply pos_eqb_eq in Ep. subst s. apply Z.eqb_refl.
  - apply Z.eqb_neq. intros Ek. apply position_key_inj in Ek; try assumption.
    apply pos_eqb_neq in Ep. contradiction.
Qed.

Lemma deleteSegmentsNotInCommit_spec streamID segs tx :
  Forall valid_position segs ->
  (forall r, In r (segments tx) -> seg_stream_id r = streamID ->
             valid_position (seg_position r)) ->
  deleteSegmentsNotInCommit streamID segs tx =
  (inr (map deleted_info
            (filter (fun r => at_positions streamID segs r && is_remote r)
                    (segments tx))),
   mkStore (objects tx)
           (filter (fun r => negb (at_positions streamID segs r)) (segments tx))).
Proof.
  intros Hv Hr. rewrite deleteSegmentsNotInCommit_eq.
  rewrite scan_deleted_filter. simpl app.
  rewrite filter_andb.
  rewrite (filter_ext_in
             (fun r => delete_matches streamID (map position_key segs) r &&
                       negb (IsZero (seg_root_piece_id r)))
             (fun r => at_positions streamID segs r && is_remote r)).
  - rewrite (filter_ext_in
               (fun r => negb (delete_matches streamID (map position_key segs) r))
               (fun r => negb (at_positions streamID segs r))).
    + reflexivity.
    + intros r Hin. rewrite delete_matches_at_positions; auto.
  - intros r Hin. rewrite delete_matches_at_positions; auto.
Qed.

(** ** Re-committing an unchanged segment set *)

Lemma identical_positions_walk A bs :
  positions bs = A ->
  missing_positions A bs = [] /\ kept_rows A bs = bs /\ orphan_positions A bs = [].
Proof.
  intros <-. unfold missing_positions, kept_rows, orphan_positions.
  repeat split.
  - rewrite (filter_ext_in _ (fun _ => false)); [apply filter_none|].
    intros p Hp. apply negb_false_iff, mem_pos_In. assumption.
  - rewrite (filter_ext_in _ (fun _ => true)); [apply filter_all|].
    intros b Hb. apply mem_pos_In. apply in_map. assumption.
  - rewrite (filter_ext_in _ (fun _ => false)); [apply filter_none|].
    intros p Hp. apply negb_false_iff, mem_pos_In. assumption.
Qed.

Lemma diff_calls_identical bs :
  diff_calls (positions bs) bs = map (fun b => (Some (Position b), Some b)) bs.
Proof.
  unfold positions. induction bs as [|b bs IH]; [reflexivity|].
  simpl. rewrite diff_calls_cons, pos_eqb_refl, IH. reflexivity.
Qed.

(** Rows at the client's positions, in the client's order, reconcile: each
    row is committed and none is deleted. *)
Lemma identical_positions_reconcile A bs :
  positions bs = A -> determineCommitActions A bs = inr (map toCommit bs, []).
Proof.
  intros <-. unfold determineCommitActions.
  rewrite commitWalk_calls, diff_calls_identical.
  cbn [invalidSegments commit toDelete].
  assert (E : forall l : list segmentInfoForCommit,
             flat_map call_invalid (map (fun b => (Some (Position b), Some b)) l) = [] /\
             flat_map call_commit (map (fun b => (Some (Position b), Some b)) l) =
               map toCommit l /\
             flat_map call_delete (map (fun b => (Some (Position b), Some b)) l) = []).
  { induction l as [|b l [I1 [I2 I3]]]; simpl; [auto|].
    rewrite I1, I2, I3. auto. }
  destruct (E bs) as [-> [-> ->]]. reflexivity.
Qed.

Lemma contiguous_batch_empty bs :
  contiguous_offsets bs ->
  batch_of (map toCommit bs) (expectedOffsets (map toCommit bs)) = [].
Proof.
  intros Hc.
  destruct (batch_of (map toCommit bs) (expectedOffsets (map toCommit bs)))
    as [|[k o] l] eqn:E; [reflexivity|]. exfalso.
  assert (Hin : In (k, o) (batch_of (map toCommit bs)
                             (expectedOffsets (map toCommit bs))))
    by (rewrite E; left; reflexivity).
  apply In_batch_of in Hin as [i [u [Hu [Ho [_ Hne]]]]].
  rewrite nth_error_expectedOffsets in Ho by (apply nth_error_Some; congruence).
  injection Ho as <-. rewrite nth_error_map in Hu.
  destruct (nth_error bs i) as [b|] eqn:Hb; [|discriminate].
  injection Hu as <-. apply Hne. unfold expectedOffset.
  rewrite <- firstn_map, map_map. simpl. rewrite firstn_map.
  apply (Hc i b Hb).
Qed.

Lemma updateSegmentOffsets_noop streamID updates tx :
  Positions (offsetUpdates updates) = [] ->
  updateSegmentOffsets streamID updates tx = (inr tt, tx).
Proof.
  intros H. unfold updateSegmentOffsets. destruct updates; [reflexivity|].
  rewrite H. reflexivity.
Qed.

(** C8 as stated fails: identical positions do not make the batch empty.
    Two segments uploaded with plain offset 0 and committed with the list
    of their own positions get the second offset rewritten to 10. *)
Lemma C8_counterexample :
  let A := [mkPos 0 0; mkPos 0 1] in
  let bs := snapshot 7 (segments fresh_upload_store) in
  let res := CommitObjectWithSegments verify_ok fresh_upload_store (example_opts A) in
  ascending A /\ NoDup A /\ positions bs = A /\
  (exists finalSegments,
      determineCommitActions A bs = inr (finalSegments, []) /\
      Positions (offsetUpdates finalSegments) = [position_key (mkPos 0 1)] /\
      PlainOffsets (offsetUpdates finalSegments) = [10]) /\
  map seg_plain_offset (segments fresh_upload_store) = [0; 0] /\
  (exists object, fst res = inr (object, [])) /\
  map seg_plain_offset (segments (snd res)) = [0; 10].
Proof.
  intros A bs res.
  split; [repeat constructor|].
  split; [repeat constructor; simpl; intuition discriminate|].
  split; [reflexivity|].
  split; [eexists; repeat split; reflexivity|].
  split; [reflexivity|].
  split; [eexists; reflexivity | reflexivity].
Qed.

(** ** Two commits of one stream, one after the other *)

Lemma staged_rows_wf streamID rows A :
  segments_wf streamID rows ->
  segments_wf streamID (staged_rows streamID rows A).
Proof.
  intros [Hnd Hv]. unfold segments_wf.
  rewrite stream_rows_staged. split.
  - apply NoDup_map_filter. rewrite map_map.
    rewrite (map_ext _ seg_position) by (intros; apply apply_offset_position).
    assumption.
  - apply Forall_forall. intros r Hr. apply filter_In in Hr as [Hr _].
    apply in_map_iff in Hr as [x [<- Hx]]. rewrite apply_offset_position.
    rewrite Forall_forall in Hv. apply Hv. assumption.
Qed.

Lemma staged_snapshot_positions streamID rows A :
  segments_wf streamID rows ->
  ascending A ->
  reconciled streamID rows A ->
  positions (snapshot streamID (staged_rows streamID rows A)) = A.
Proof.
  intros Hwf HA Hmiss. unfold snapshot. rewrite positions_scan.
  rewrite select_segments_staged by assumption.
  destruct (set_offsets_columns (kept_segment_rows streamID rows A)
              (runningOffsets (staged_commit streamID rows A) 0)) as [Hpos _].
  { rewrite length_runningOffsets. unfold staged_commit. apply length_map. }
  rewrite Hpos. apply positions_kept_segment_rows; assumption.
Qed.

Lemma filter_all_false {X} (f : X -> bool) l :
  Forall (fun x => f x = false) l -> filter f l = [].
Proof.
  induction 1 as [|x l Hx Hl IH]; simpl; [reflexivity|]. rewrite Hx. assumption.
Qed.

(** C9, as amended (two commits of one stream in the store's serial
    order).  When the first of two calls for the same object stream
    succeeds, no object row of the stream is pending any more and the
    second call fails and leaves the store as the first call left it, so
    the stream is never committed twice; the second call fails with
    "object not found" when it submits the same segment list. *)
Theorem C9_serial_commits Verify db opts1 opts2 object1 deleted1 db1 :
  Stream opts1 = Stream opts2 ->
  segments_wf (StreamID (Stream opts1)) (segments db) ->
  CommitObjectWithSegments Verify db opts1 = (inr (object1, deleted1), db1) ->
  Forall (fun o => pending_object (Stream opts1) o = false) (objects db1) /\
  (exists e, CommitObjectWithSegments Verify db1 opts2 = (inl e, db1)) /\
  (Segments opts2 = Segments opts1 ->
   CommitObjectWithSegments Verify db1 opts2 = (inl ErrObjectNotFound, db1)).
Proof.
  intros Hst Hwf H.
  apply CommitObjectWithSegments_success in H
    as [HV [HA [Hmiss [_ [Hrows [_ [_ Hnp]]]]]]]; [|assumption].
  assert (Hf : filter (pending_object (Stream opts2)) (objects db1) = []).
  { rewrite <- Hst. apply filter_all_false. assumption. }
  split; [assumption|]. split.
  - apply CommitObjectWithSegments_not_pending. assumption.
  - intros Hsame.
    assert (Hwf1 : segments_wf (StreamID (Stream opts2)) (segments db1)).
    { rewrite <- Hst, Hrows. apply staged_rows_wf. assumption. }
    rewrite CommitObjectWithSegments_cases;
      [| assumption | rewrite <- Hst; assumption
       | rewrite Hsame; apply verifySegmentOrder_ascending; assumption].
    rewrite Hf.
    assert (Hpos : positions (snapshot (StreamID (Stream opts2)) (segments db1)) =
                   Segments opts2).
    { rewrite <- Hst, Hrows, Hsame. apply staged_snapshot_positions; assumption. }
    rewrite (identical_positions_reconcile _ _ Hpos). reflexivity.
Qed.

Lemma C9_serial_commits_witness :
  let opts := example_opts [mkPos 0 0; mkPos 0 2] in
  let db1 := snd (CommitObjectWithSegments verify_ok example_store opts) in
  map obj_status (objects db1) = [Committed] /\
  CommitObjectWithSegments verify_ok db1 opts = (inl ErrObjectNotFound, db1).
Proof.
  intros opts db1.
  pose (res := CommitObjectWithSegments verify_ok example_store opts).
  assert (E : CommitObjectWithSegments verify_ok example_store opts = res)
    by reflexivity.
  vm_compute in (value of res).
  split; [reflexivity|].
  exact (proj2 (proj2 (C9_serial_commits verify_ok example_store opts opts _ _ _
                         eq_refl (example_segments_wf 5) E)) eq_refl).
Defined.

(** C9 as stated fails in the serial order: of two calls for one stream,
    each of which would succeed on the store as it is, the first succeeds
    and deletes the segment at position 1, and the second, which lists that
    position, fails with the mismatch error and not with "object not
    found". *)
Lemma C9_counterexample :
  let opts1 := example_opts [mkPos 0 0; mkPos 0 2] in
  let opts2 := example_opts [mkPos 0 0; mkPos 0 1; mkPos 0 2] in
  let res1 := CommitObjectWithSegments verify_ok example_store opts1 in
  let res2 := CommitObjectWithSegments verify_ok (snd res1) opts2 in
  Stream opts1 = Stream opts2 /\
  (exists object deleted,
      fst (CommitObjectWithSegments verify_ok example_store opts2) =
      inr (object, deleted)) /\
  (exists object deleted, fst res1 = inr (object, deleted)) /\
  fst res2 = inl (ErrSegmentsMismatch [mkPos 0 1]) /\
  fst res2 <> inl ErrObjectNotFound.
Proof.
  intros opts1 opts2 res1 res2.
  split; [reflexivity|].
  split; [eexists; eexists; reflexivity|].
  split; [eexists; eexists; reflexivity|].
  split; [reflexivity | discriminate].
Qed.

Lemma delete_matches_orphan streamID rows A f r :
  segments_wf streamID rows ->
  (forall x, seg_position (f x) = seg_position x) ->
  (forall x, seg_stream_id (f x) = seg_stream_id x) ->
  In r rows ->
  delete_matches streamID (map position_key (staged_delete streamID rows A)) (f r) =
  orphan_row streamID A r.
Proof.
  intros Hwf Hp Hs Hr. unfold orphan_row.
  destruct (seg_stream_id r =? streamID) eqn:E.
  - apply Z.eqb_eq in E. simpl.
    rewrite <- (delete_matches_select streamID rows A Hwf f r Hp Hs)
      by (apply In_select_segments; tauto).
    rewrite negb_involutive. reflexivity.
  - unfold delete_matches. rewrite Hs, E. reflexivity.
Qed.

Lemma forget_offset_apply streamID P r :
  forget_offset (apply_offset streamID P r) = forget_offset r.
Proof. unfold apply_offset. destruct (offset_for streamID P r); reflexivity. Qed.

Lemma deleted_info_apply streamID P r :
  deleted_info (apply_offset streamID P r) = deleted_info r.
Proof. unfold apply_offset. destruct (offset_for streamID P r); reflexivity. Qed.

Lemma is_remote_apply streamID P r :
  is_remote (apply_offset streamID P r) = is_remote r.
Proof. unfold apply_offset. destruct (offset_for streamID P r); reflexivity. Qed.

(** The table after staging: the orphan rows are gone and the other rows
    are there, with their offsets rewritten. *)
Lemma staged_rows_orphans streamID rows A :
  segments_wf streamID rows ->
  staged_rows streamID rows A =
  map (apply_offset streamID (staged_batch streamID rows A))
      (filter (fun r => negb (orphan_row streamID A r)) rows).
Proof.
  intros Hwf. unfold staged_rows. rewrite filter_map_swap. f_equal.
  apply filter_ext_in. intros r Hr. f_equal.
  apply delete_matches_orphan; try assumption; intros x.
  - apply apply_offset_position.
  - apply apply_offset_stream.
Qed.

Lemma staged_deleted_orphans streamID rows A :
  segments_wf streamID rows ->
  scan_deleted (staged_deleted_rows streamID rows A) [] =
  map deleted_info (filter (fun r => orphan_row streamID A r && is_remote r) rows).
Proof.
  intros Hwf. rewrite scan_deleted_filter. simpl app.
  fold is_remote. unfold staged_deleted_rows.
  change (fun r => mkDeleted (seg_root_piece_id r) (seg_remote_pieces r))
    with deleted_info.
  change (fun r => negb (IsZero (seg_root_piece_id r))) with is_remote.
  rewrite filter_andb, filter_map_swap, map_map.
  rewrite (map_ext _ deleted_info) by (intros; apply deleted_info_apply).
  f_equal. apply filter_ext_in. intros r Hr. rewrite is_remote_apply. f_equal.
  apply delete_matches_orphan; try assumption; intros x.
  - apply apply_offset_position.
  - apply apply_offset_stream.
Qed.

(** C6 (orphan deletion).  For ascending inputs, the delete list of a
    successful reconciliation holds exactly the snapshot positions the
    client does not list; store positions 0, 1, 2 with client list 0, 2 give
    the delete list 1.  [deleteSegmentsNotInCommit] removes every row of the
    stream at a listed position and no other row, and returns the root piece
    identifier and the pieces of every removed row whose root piece
    identifier is not zero; rows with a zero identifier are removed and not
    reported.  A successful commit removes from the table exactly the rows
    of the stream at positions the client does not list, changes no column
    but the plain offset of the others, and returns the information of the
    removed rows that are remote.  On the example store the commit of 0, 2
    removes the row at 1 and reports it when it is remote and not when it
    is inline. *)
Theorem C6_orphan_deletion :
  (forall as_ bs finalSegments segmentsToDelete,
      ascending as_ -> ascending (positions bs) ->
      determineCommitActions as_ bs = inr (finalSegments, segmentsToDelete) ->
      forall p, In p segmentsToDelete <-> In p (positions bs) /\ ~ In p as_) /\
  (forall e1 e2 e3 o1 o2 o3 s1 s2 s3,
      determineCommitActions
        [mkPos 0 0; mkPos 0 2]
        [mkInfo (mkPos 0 0) e1 o1 s1; mkInfo (mkPos 0 1) e2 o2 s2;
         mkInfo (mkPos 0 2) e3 o3 s3] =
      inr ([mkCommit (mkPos 0 0) o1 s1 e1; mkCommit (mkPos 0 2) o3 s3 e3],
           [mkPos 0 1])) /\
  (forall streamID segs tx,
      Forall valid_position segs ->
      (forall r, In r (segments tx) -> seg_stream_id r = streamID ->
                 valid_position (seg_position r)) ->
      exists deletedSegments tx',
        deleteSegmentsNotInCommit streamID segs tx = (inr deletedSegments, tx') /\
        objects tx' = objects tx /\
        (forall r, In r (segments tx') <->
                   In r (segments tx) /\
                   ~ (seg_stream_id r = streamID /\ In (seg_position r) segs)) /\
        segments tx' =
          filter (fun r => negb (at_positions streamID segs r)) (segments tx) /\
        deletedSegments =
          map (fun r => mkDeleted (seg_root_piece_id r) (seg_remote_pieces r))
              (filter (fun r => at_positions streamID segs r &&
                                negb (seg_root_piece_id r =? 0))
                      (segments tx))) /\
  (forall Verify db opts object deleted db',
      let streamID := StreamID (Stream opts) in
      segments_wf streamID (segments db) ->
      CommitObjectWithSegments Verify db opts = (inr (object, deleted), db') ->
      map forget_offset (segments db') =
        map forget_offset
            (filter (fun r => negb (orphan_row streamID (Segments opts) r))
                    (segments db)) /\
      deleted =
        map (fun r => mkDeleted (seg_root_piece_id r) (seg_remote_pieces r))
            (filter (fun r => orphan_row streamID (Segments opts) r &&
                              negb (seg_root_piece_id r =? 0))
                    (segments db))) /\
  (let res := CommitObjectWithSegments verify_ok example_store
                (example_opts [mkPos 0 0; mkPos 0 2]) in
   (exists object, fst res = inr (object, [mkDeleted 5 [mkPiece 1 2]])) /\
   map seg_position (stream_rows 7 (segments (snd res))) = [mkPos 0 2; mkPos 0 0]) /\
  (let res := CommitObjectWithSegments verify_ok example_store_inline
                (example_opts [mkPos 0 0; mkPos 0 2]) in
   (exists object, fst res = inr (object, [])) /\
   map seg_position (stream_rows 7 (segments (snd res))) = [mkPos 0 2; mkPos 0 0]).
Proof.
  refine (conj _ (conj _ (conj _ (conj _ (conj _ _))))).
  - intros as_ bs finalSegments segmentsToDelete Ha Hb H p.
    unfold determineCommitActions in H.
    rewrite (commitWalk_ascending as_ bs Ha Hb) in H.
    cbn [invalidSegments commit toDelete] in H.
    destruct (missing_positions as_ bs); [|discriminate].
    injection H as _ <-. apply In_orphan_positions.
  - intros. reflexivity.
  - intros streamID segs tx Hv Hr.
    rewrite (deleteSegmentsNotInCommit_spec streamID segs tx Hv Hr).
    eexists. eexists. split; [reflexivity|]. cbn [objects segments].
    split; [reflexivity|]. split; [|split; reflexivity].
    intros r. rewrite filter_In. unfold at_positions.
    rewrite negb_true_iff, andb_false_iff, Z.eqb_neq, mem_pos_not_In.
    split.
    + intros [Hin [H | H]]; (split; [assumption|]); tauto.
    + intros [Hin H]. split; [assumption|].
      destruct (Z.eq_dec (seg_stream_id r) streamID); [right | left]; tauto.
  - intros Verify db opts object deleted db' streamID Hwf H.
    apply CommitObjectWithSegments_success in H
      as [_ [_ [_ [_ [Hrows [Hdel _]]]]]]; [|assumption].
    fold streamID in Hrows, Hdel. split.
    + rewrite Hrows, staged_rows_orphans by assumption.
      rewrite map_map. apply map_ext. intros r. apply forget_offset_apply.
    + rewrite Hdel. apply staged_deleted_orphans. assumption.
  - split; [eexists; reflexivity | reflexivity].
  - split; [eexists; reflexivity | reflexivity].
Qed.

Lemma C6_orphan_deletion_witness :
  let tx := example_store_inline in
  let res := CommitObjectWithSegments verify_ok example_store
               (example_opts [mkPos 0 0; mkPos 0 2]) in
  (exists deletedSegments tx',
      deleteSegmentsNotInCommit 7 [mkPos 0 1; mkPos 0 2] tx = (inr deletedSegments, tx') /\
      map seg_position (segments tx') = [mkPos 0 0; mkPos 0 1] /\
      map RootPieceID deletedSegments = [9]) /\
  map forget_offset (segments (snd res)) =
    map forget_offset [example_segment 2 0 10 9; example_segment 0 0 10 8;
                       other_segment].
Proof.
  intros tx res0. split.
  - assert (Hv : Forall valid_position [mkPos 0 1; mkPos 0 2])
      by (repeat constructor; simpl; unfold is_uint32; lia).
    assert (Hr : forall r, In r (segments tx) -> seg_stream_id r = 7 ->
                           valid_position (seg_position r)).
    { simpl. intros r [<- | [<- | [<- | [<- | []]]]] _;
        repeat constructor; simpl; unfold is_uint32; lia. }
    destruct (proj1 (proj2 (proj2 C6_orphan_deletion)) 7 [mkPos 0 1; mkPos 0 2]
                    tx Hv Hr)
      as [deletedSegments [tx' [E [_ [_ [Hs Hd]]]]]].
    exists deletedSegments, tx'. split; [exact E|].
    rewrite Hs, Hd. split; reflexivity.
  - pose (res := CommitObjectWithSegments verify_ok example_store
                   (example_opts [mkPos 0 0; mkPos 0 2])).
    assert (E : CommitObjectWithSegments verify_ok example_store
                  (example_opts [mkPos 0 0; mkPos 0 2]) = res) by reflexivity.
    vm_compute in (value of res).
    exact (proj1 (proj1 (proj2 (proj2 (proj2 C6_orphan_deletion)))
                        verify_ok example_store
                        (example_opts [mkPos 0 0; mkPos 0 2]) _ _ _
                        (example_segments_wf 5) E)).
Defined.

(** The snapshot a successful staging leaves has contiguous offsets. *)
Lemma staged_snapshot_contiguous streamID rows A :
  segments_wf streamID rows ->
  plain_sizes_int32 streamID rows ->
  Z.of_nat (length A) <= 2 ^ 32 ->
  ascending A ->
  reconciled streamID rows A ->
  let bs := snapshot streamID (staged_rows streamID rows A) in
  contiguous_offsets bs /\
  Forall (fun b => is_int32 (PlainSize b)) bs /\
  length bs = length A.
Proof.
  intros Hwf Hs Hlen HA Hmiss bs.
  destruct (staged_snapshot_offsets streamID rows A Hwf Hs Hlen HA Hmiss)
    as [Hpos Hoff].
  refine (conj _ (conj _ _)).
  - intros i b Hb. unfold bs, snapshot in *. rewrite nth_error_map in Hb.
    destruct (nth_error (select_segments streamID (staged_rows streamID rows A)) i)
      as [r|] eqn:Hr; [|discriminate].
    injection Hb as <-. rewrite <- firstn_map, map_map. simpl.
    rewrite firstn_map. apply Hoff. assumption.
  - apply Forall_forall. intros b Hb. unfold bs, snapshot in Hb.
    apply in_map_iff in Hb as [r [<- Hr]]. simpl.
    apply (Permutation_in _ (Permutation_sym
              (select_segments_perm streamID (staged_rows streamID rows A)))) in Hr.
    rewrite stream_rows_staged in Hr. apply filter_In in Hr as [Hr _].
    apply in_map_iff in Hr as [x [<- Hx]]. rewrite apply_offset_plain_size.
    unfold plain_sizes_int32 in Hs. rewrite Forall_forall in Hs. apply Hs. assumption.
  - unfold bs, snapshot. rewrite length_map.
    rewrite <- (length_map seg_position), Hpos. reflexivity.
Qed.

(** C8, as amended (no-op re-commit).  For a client list in ascending
    order whose positions are those of the snapshot, and a snapshot whose
    stored plain offsets are already the running sums of the plain sizes,
    reconciliation returns an empty delete list and the offset rewriter
    builds an empty batch; the offset rewrite and the deletion then leave
    the store as it is, and so does the whole work on the segments.  The
    store a successful commit leaves is such a snapshot for the list that
    was committed: submitting that list again writes no segment row. *)
Theorem C8_noop_recommit :
  (forall A bs,
      ascending A ->
      positions bs = A ->
      contiguous_offsets bs ->
      Forall (fun b => is_int32 (PlainSize b)) bs ->
      Z.of_nat (length bs) <= 2 ^ 32 ->
      exists finalSegments,
        determineCommitActions A bs = inr (finalSegments, []) /\
        Positions (offsetUpdates finalSegments) = [] /\
        PlainOffsets (offsetUpdates finalSegments) = [] /\
        (forall streamID tx,
            updateSegmentOffsets streamID finalSegments tx = (inr tt, tx) /\
            deleteSegmentsNotInCommit streamID [] tx = (inr [], tx))) /\
  (forall opts db,
      let bs := snapshot (StreamID (Stream opts)) (segments db) in
      ascending (Segments opts) ->
      positions bs = Segments opts ->
      contiguous_offsets bs ->
      Forall (fun b => is_int32 (PlainSize b)) bs ->
      Z.of_nat (length bs) <= 2 ^ 32 ->
      exists finalSegments, stageSegments opts db = (inr (finalSegments, []), db)) /\
  (forall Verify db opts object deleted db',
      let streamID := StreamID (Stream opts) in
      segments_wf streamID (segments db) ->
      plain_sizes_int32 streamID (segments db) ->
      Z.of_nat (length (Segments opts)) <= 2 ^ 32 ->
      CommitObjectWithSegments Verify db opts = (inr (object, deleted), db') ->
      exists finalSegments, stageSegments opts db' = (inr (finalSegments, []), db')).
Proof.
  assert (H1 : forall A bs,
      ascending A ->
      positions bs = A ->
      contiguous_offsets bs ->
      Forall (fun b => is_int32 (PlainSize b)) bs ->
      Z.of_nat (length bs) <= 2 ^ 32 ->
      determineCommitActions A bs = inr (map toCommit bs, []) /\
      Positions (offsetUpdates (map toCommit bs)) = [] /\
      PlainOffsets (offsetUpdates (map toCommit bs)) = []).
  { intros A bs HA Hpos Hc Hs Hlen.
    destruct (identical_positions_walk A bs Hpos) as [Hm [Hk Ho]].
    split.
    - unfold determineCommitActions. rewrite commitWalk_ascending;
        [| assumption | rewrite Hpos; assumption].
      cbn [invalidSegments commit toDelete]. rewrite Hm, Hk, Ho. reflexivity.
    - assert (Hr : sizes_in_range (map toCommit bs)).
      { split; [|rewrite length_map; assumption].
        apply Forall_forall. intros u Hu. apply in_map_iff in Hu as [b [<- Hb]].
        rewrite Forall_forall in Hs. apply Hs. assumption. }
      destruct (offsetUpdates_batch _ Hr) as [-> ->].
      rewrite contiguous_batch_empty by assumption. split; reflexivity. }
  assert (H2 : forall opts db,
      let bs := snapshot (StreamID (Stream opts)) (segments db) in
      ascending (Segments opts) ->
      positions bs = Segments opts ->
      contiguous_offsets bs ->
      Forall (fun b => is_int32 (PlainSize b)) bs ->
      Z.of_nat (length bs) <= 2 ^ 32 ->
      exists finalSegments, stageSegments opts db = (inr (finalSegments, []), db)).
  { intros opts db bs HA Hpos Hc Hs Hlen.
    destruct (H1 (Segments opts) bs HA Hpos Hc Hs Hlen) as [Hd [HP HO]].
    exists (map toCommit bs).
    unfold stageSegments, tx_bind at 1, fetchSegmentsForCommit.
    fold (snapshot (StreamID (Stream opts)) (segments db)). fold bs.
    unfold tx_bind at 1. rewrite Hd. cbn [tx_lift tx_ret].
    unfold tx_bind at 1. rewrite updateSegmentOffsets_noop by assumption.
    reflexivity. }
  refine (conj _ (conj H2 _)).
  - intros A bs HA Hpos Hc Hs Hlen.
    destruct (H1 A bs HA Hpos Hc Hs Hlen) as [Hd [HP HO]].
    exists (map toCommit bs). repeat split; try assumption.
    apply updateSegmentOffsets_noop. assumption.
  - intros Verify db opts object deleted db' streamID Hwf Hs Hlen H.
    apply CommitObjectWithSegments_success in H
      as [_ [HA [Hmiss [_ [Hrows _]]]]]; [|assumption].
    fold streamID in Hmiss, Hrows.
    destruct (staged_snapshot_contiguous streamID (segments db) (Segments opts)
                Hwf Hs Hlen HA Hmiss) as [Hc [Hsz Hl]].
    apply H2; fold streamID; rewrite ?Hrows; try assumption.
    + apply staged_snapshot_positions; assumption.
    + rewrite Hl. assumption.
Qed.

Lemma C8_noop_recommit_witness :
  let A := [mkPos 0 0; mkPos 0 1] in
  let bs := [mkInfo (mkPos 0 0) 26 0 10; mkInfo (mkPos 0 1) 26 10 10] in
  let opts := example_opts [mkPos 0 0; mkPos 0 2] in
  let db' := snd (CommitObjectWithSegments verify_ok example_store opts) in
  (exists finalSegments,
      determineCommitActions A bs = inr (finalSegments, []) /\
      Positions (offsetUpdates finalSegments) = []) /\
  (exists finalSegments, stageSegments opts db' = (inr (finalSegments, []), db')).
Proof.
  intros A bs opts db'. split.
  - assert (HA : ascending A) by (repeat constructor).
    assert (Hc : contiguous_offsets bs).
    { intros [|[|i]] b H; simpl in H; try (injection H as <-; reflexivity).
      destruct i; discriminate. }
    assert (Hs : Forall (fun b => is_int32 (PlainSize b)) bs)
      by (repeat constructor; simpl; unfold is_int32; lia).
    assert (Hlen : Z.of_nat (length bs) <= 2 ^ 32) by (simpl; lia).
    destruct (proj1 C8_noop_recommit A bs HA eq_refl Hc Hs Hlen)
      as [finalSegments [Hd [HP _]]].
    exists finalSegments. split; assumption.
  - pose (res := CommitObjectWithSegments verify_ok example_store opts).
    assert (E : CommitObjectWithSegments verify_ok example_store opts = res)
      by reflexivity.
    vm_compute in (value of res).
    assert (Hlen : Z.of_nat (length (Segments opts)) <= 2 ^ 32) by (simpl; lia).
    exact (proj2 (proj2 C8_noop_recommit) verify_ok example_store opts _ _ _
                 (example_segments_wf 5) (example_plain_sizes 5) Hlen E).
Defined.

(** ** The calls of [diffSegmentsWithDatabase] *)

(** X1 (the walk visits every element once, in order).  Whatever the two
    slices hold and whatever the callback does, the result of
    [diffSegmentsWithDatabase] is the callback run over one list of calls
    that depends on the slices only; the non-nil first arguments of these
    calls are the client positions, each once and in order, the non-nil
    second arguments are the database rows, each once and in order; a call
    with two non-nil arguments pairs equal positions and no call has two nil
    arguments. *)
Theorem diff_calls_cover :
  forall (S : Type)
         (cb : option SegmentPosition -> option segmentInfoForCommit -> S -> S)
         (as_ : list SegmentPosition) (bs : list segmentInfoForCommit) (s : S),
    diffSegmentsWithDatabase cb as_ bs s = replay cb (diff_calls as_ bs) s /\
    client_args (diff_calls as_ bs) = as_ /\
    store_args (diff_calls as_ bs) = bs /\
    Forall aligned_call (diff_calls as_ bs) /\
    (length (diff_calls as_ bs) <= length as_ + length bs)%nat.
Proof.
  intros S cb as_ bs s. destruct (diff_calls_args as_ bs) as [H1 [H2 H3]].
  split; [apply diff_replay|]. split; [exact H1|]. split; [exact H2|].
  split; [exact H3|].
  rewrite <- H1 at 2. rewrite <- H2 at 3.
  revert H3. generalize (diff_calls as_ bs). intros t Ht.
  induction Ht as [|[[a|] [b|]] t Hc Ht IH]; simpl in *; lia.
Qed.

(** ** Accounting of [determineCommitActions] *)

Lemma calls_coverage t :
  Forall aligned_call t ->
  Permutation (client_args t)
              (flat_map call_invalid t ++ map cPosition (flat_map call_commit t)) /\
  Permutation (store_args t) (flat_map call_kept t ++ flat_map call_dropped t) /\
  flat_map call_commit t = map toCommit (flat_map call_kept t) /\
  flat_map call_delete t = positions (flat_map call_dropped t).
Proof.
  unfold positions.
  induction 1 as [|[[a|] [b|]] t Hc Ht [IH1 [IH2 [IH3 IH4]]]]; simpl.
  - repeat split; constructor.
  - simpl in Hc. subst a. rewrite IH3, IH4. repeat split.
    + apply Permutation_cons_app. rewrite <- IH3. exact IH1.
    + apply perm_skip. exact IH2.
  - rewrite IH3, IH4. repeat split.
    + apply perm_skip. rewrite <- IH3. exact IH1.
    + exact IH2.
  - rewrite IH3, IH4. repeat split.
    + rewrite <- IH3. exact IH1.
    + apply Permutation_cons_app. exact IH2.
  - contradiction.
Qed.

(** X2 (accounting of the reconciliation, in any order).  For any client
    list and any database rows, ordered or not, the client positions are
    the errors and the positions of the commit list taken together, each
    position as often as the client lists it, and the database rows are the
    rows committed and the rows put on the delete list taken together, each
    row once; a commit entry carries the fields of a database row at its
    position.  When [determineCommitActions] succeeds, the commit list has
    the client's positions, in the client's order. *)
Theorem determineCommitActions_accounting :
  forall as_ bs,
    let s := commitWalk as_ bs in
    Permutation as_ (invalidSegments s ++ map cPosition (commit s)) /\
    (exists kept dropped,
        Permutation bs (kept ++ dropped) /\
        commit s = map toCommit kept /\
        toDelete s = positions dropped) /\
    (length (invalidSegments s) + length (commit s) = length as_)%nat /\
    (length (commit s) + length (toDelete s) = length bs)%nat /\
    (forall c, In c (commit s) ->
               In (cPosition c) as_ /\
               exists b, In b bs /\ Position b = cPosition c /\
                         PlainOffset b = cOldPlainOffset c /\
                         PlainSize b = cPlainSize c /\
                         EncryptedSize b = cEncryptedSize c) /\
    (forall p, In p (invalidSegments s) -> In p as_) /\
    (forall p, In p (toDelete s) -> In p (positions bs)) /\
    (forall finalSegments segmentsToDelete,
        determineCommitActions as_ bs = inr (finalSegments, segmentsToDelete) ->
        map cPosition finalSegments = as_ /\
        (length finalSegments + length segmentsToDelete = length bs)%nat).
Proof.
  intros as_ bs s.
  destruct (diff_calls_args as_ bs) as [Ha [Hb Hal]].
  destruct (calls_accounting _ Hal) as [H1 [H2 [H3 [H4 [H5 H6]]]]].
  destruct (calls_coverage _ Hal) as [K1 [K2 [K3 K4]]].
  rewrite Ha, Hb in *.
  assert (Es : s = mkActions (flat_map call_invalid (diff_calls as_ bs))
                             (flat_map call_commit (diff_calls as_ bs))
                             (flat_map call_delete (diff_calls as_ bs)))
    by apply commitWalk_calls.
  rewrite Es. cbn [invalidSegments commit toDelete].
  refine (conj K1 (conj _ (conj H1 (conj H2 (conj _ (conj H4 (conj H5 _))))))).
  - exists (flat_map call_kept (diff_calls as_ bs)),
           (flat_map call_dropped (diff_calls as_ bs)).
    split; [exact K2|]. split; [exact K3 | exact K4].
  - intros c Hc. destruct (H3 c Hc) as [Hp [b [Hb' ->]]].
    split; [assumption|]. exists b. repeat split. assumption.
  - intros finalSegments segmentsToDelete Hd.
    unfold determineCommitActions in Hd. fold s in Hd. rewrite Es in Hd.
    cbn [invalidSegments commit toDelete] in Hd.
    destruct (flat_map call_invalid (diff_calls as_ bs)) eqn:Ei; [|discriminate].
    injection Hd as <- <-. split; [apply H6; reflexivity | exact H2].
Qed.

(** ** What [verifySegmentOrder] accepts and what it reports *)

Lemma ascending_cons_head a x l :
  Less a x = true -> ascending (x :: l) -> ascending (a :: x :: l).
Proof.
  intros L H. constructor; [assumption|].
  constructor; [assumption|].
  apply ascending_inv in H as [_ H].
  eapply Forall_impl; [|exact H]. simpl. intros y Hy. eapply Less_trans; eassumption.
Qed.

Lemma verifySegmentOrder_loop_first last rest a b :
  verifySegmentOrder_loop last rest = Some (ErrSegmentsNotAscending a b) ->
  exists pre post,
    last :: rest = pre ++ a :: b :: post /\
    ascending (pre ++ [a]) /\ Less a b = false.
Proof.
  revert last. induction rest as [|next rest IH]; intros last; simpl; [discriminate|].
  destruct (Less last next) eqn:L; simpl.
  - intros H. destruct (IH next H) as [pre [post [E [Hasc Hl]]]].
    exists (last :: pre), post. split; [simpl; rewrite E; reflexivity|].
    split; [|assumption].
    destruct pre as [|x pre]; simpl in *.
    + injection E as <- _. apply ascending_cons_head; assumption.
    + injection E as <- _. apply ascending_cons_head; assumption.
  - intros H. injection H as <- <-. exists [], rest.
    split; [reflexivity|]. split; [repeat constructor | assumption].
Qed.

Lemma ascending_nth l : forall i j a b,
  ascending l -> (i < j)%nat ->
  nth_error l i = Some a -> nth_error l j = Some b -> Less a b = true.
Proof.
  induction l as [|x l IH]; intros i j a b H Hij Hi Hj.
  - destruct i; discriminate.
  - destruct j as [|j]; [lia|]. simpl in Hj.
    destruct i as [|i]; simpl in Hi.
    + injection Hi as <-. eapply ascending_above; [eassumption|].
      eapply nth_error_In. eassumption.
    + apply ascending_inv in H as [H _]. apply (IH i j); try assumption. lia.
Qed.

(** X3 (what the validator accepts and what it reports).  A list passes
    [verifySegmentOrder] exactly when every position in it is [Less] than
    every later one, so an accepted list has no duplicates; a rejected list
    is reported with the first pair of neighbours that is out of order:
    everything up to the first element of the pair is in ascending order. *)
Theorem verifySegmentOrder_accepts_ascending :
  (forall l,
      verifySegmentOrder l = None <->
      (forall i j a b, (i < j)%nat -> nth_error l i = Some a ->
                       nth_error l j = Some b -> Less a b = true)) /\
  (forall l, verifySegmentOrder l = None -> NoDup l) /\
  (forall l e,
      verifySegmentOrder l = Some e ->
      exists pre a b post,
        e = ErrSegmentsNotAscending a b /\
        l = pre ++ a :: b :: post /\
        verifySegmentOrder (pre ++ [a]) = None /\
        Less a b = false).
Proof.
  refine (conj _ (conj _ _)).
  - intros l. rewrite verifySegmentOrder_ascending. split.
    + intros H i j a b. apply ascending_nth. assumption.
    + intros H. induction l as [|x l IH]; [constructor|].
      constructor.
      * apply IH. intros i j a b Hij Hi Hj. apply (H (S i) (S j)); simpl; auto. lia.
      * apply Forall_forall. intros y Hy. apply In_nth_error in Hy as [j Hj].
        apply (H 0%nat (S j)); simpl; auto. lia.
  - intros l H. apply ascending_NoDup. apply verifySegmentOrder_ascending. assumption.
  - intros l e H.
    destruct l as [|first rest]; simpl in H; [discriminate|].
    destruct (verifySegmentOrder_loop_error _ _ _ H) as [a [b [-> _]]].
    destruct (verifySegmentOrder_loop_first _ _ _ _ H) as [pre [post [E [Hasc Hl]]]].
    exists pre, a, b, post. split; [reflexivity|]. split; [exact E|].
    split; [apply verifySegmentOrder_ascending; assumption | assumption].
Qed.

(** ** Listed positions with and without a row *)

Lemma missing_nil_iff streamID rows A :
  missing_positions A (snapshot streamID rows) = [] <-> all_uploaded streamID rows A.
Proof.
  unfold all_uploaded. split.
  - intros H p Hp. apply In_positions_snapshot.
    destruct (mem_pos p (positions (snapshot streamID rows))) eqn:E;
      [apply mem_pos_In; assumption|].
    exfalso. apply mem_pos_not_In in E.
    assert (Hin : In p (missing_positions A (snapshot streamID rows)))
      by (apply In_missing_positions; tauto).
    rewrite H in Hin. contradiction.
  - intros H.
    destruct (missing_positions A (snapshot streamID rows)) as [|p l] eqn:E;
      [reflexivity|]. exfalso.
    assert (Hin : In p (missing_positions A (snapshot streamID rows)))
      by (rewrite E; left; reflexivity).
    apply In_missing_positions in Hin as [Hp Hn].
    apply Hn, In_positions_snapshot, H. assumption.
Qed.

Lemma filter_nil_iff {X} (f : X -> bool) l :
  filter f l = [] <-> ~ exists x, In x l /\ f x = true.
Proof.
  split.
  - intros H [x Hx]. apply filter_In in Hx. rewrite H in Hx. contradiction.
  - intros H. destruct (filter f l) as [|x l'] eqn:E; [reflexivity|].
    exfalso. apply H. exists x. apply filter_In. rewrite E. left. reflexivity.
Qed.

(** ** The order of the keys and the order of the positions *)

Lemma position_key_low p :
  valid_position p -> high_part p = false -> position_key p = Encode p.
Proof.
  unfold valid_position, is_uint32, high_part, position_key, int64, Encode.
  destruct p as [pp pi]; cbn [Part Index]. intros [Hp Hi] H. apply Z.leb_gt in H.
  rewrite Z.mod_small; lia.
Qed.

Lemma position_key_high p :
  valid_position p -> high_part p = true -> position_key p = Encode p - 2 ^ 64.
Proof.
  unfold valid_position, is_uint32, high_part, position_key, int64, Encode.
  destruct p as [pp pi]; cbn [Part Index]. intros [Hp Hi] H. apply Z.leb_le in H.
  rewrite <- (Z.mod_unique_pos (pp * 2 ^ 32 + pi + 2 ^ 63) (2 ^ 64) 1
                (pp * 2 ^ 32 + pi - 2 ^ 63)); lia.
Qed.

Lemma Encode_range p : valid_position p -> 0 <= Encode p < 2 ^ 64.
Proof.
  unfold valid_position, is_uint32, Encode. destruct p as [pp pi]; simpl. lia.
Qed.

Lemma Less_Encode p q :
  valid_position p -> valid_position q ->
  (Less p q = true <-> Encode p < Encode q).
Proof.
  rewrite Less_spec. unfold valid_position, is_uint32, Encode.
  destruct p as [pp pi], q as [qp qi]; simpl. lia.
Qed.

(** On positions of one half, the order of the keys is [Less]. *)
Lemma key_lt_Less p q :
  valid_position p -> valid_position q -> high_part p = high_part q ->
  (position_key p < position_key q <-> Less p q = true).
Proof.
  intros Hp Hq E. rewrite (Less_Encode p q Hp Hq).
  destruct (high_part q) eqn:Eq.
  - rewrite (position_key_high p Hp E), (position_key_high q Hq Eq). lia.
  - rewrite (position_key_low p Hp E), (position_key_low q Hq Eq). lia.
Qed.

(** A position with a part number from [2 ^ 31] on has a lower key than one
    with a part number below, and is above it in the order [Less]. *)
Lemma key_high_low p q :
  valid_position p -> valid_position q ->
  high_part p = true -> high_part q = false ->
  position_key p < position_key q.
Proof.
  intros Hp Hq Ep Eq.
  rewrite (position_key_high p Hp Ep), (position_key_low q Hq Eq).
  pose proof (Encode_range p Hp). pose proof (Encode_range q Hq). lia.
Qed.

Lemma Less_high_low p q :
  high_part p = true -> high_part q = false ->
  pos_eqb p q = false /\ Less p q = false /\ Less q p = true.
Proof.
  unfold high_part. intros Hp Hq. apply Z.leb_le in Hp. apply Z.leb_gt in Hq.
  split; [|split].
  - apply pos_eqb_neq. intros ->. lia.
  - destruct (Less p q) eqn:L; [|reflexivity]. apply Less_spec in L. lia.
  - apply Less_spec. lia.
Qed.

Lemma rows_ordered_inv x l :
  rows_ordered (x :: l) ->
  rows_ordered l /\
  forall y, In y l -> position_key (seg_position x) <= position_key (seg_position y).
Proof.
  unfold rows_ordered. intros H. inversion H as [|? ? Hl Hx]; subst.
  split; [assumption|]. apply Forall_forall. assumption.
Qed.

Lemma rows_ordered_filter f l : rows_ordered l -> rows_ordered (filter f l).
Proof.
  induction l as [|x l IH]; simpl; intros H; [constructor|].
  apply rows_ordered_inv in H as [Hl Hx].
  destruct (f x); [|auto].
  constructor; [exact (IH Hl)|].
  apply Forall_forall. intros y Hy. apply filter_In in Hy as [Hy _]. auto.
Qed.

(** Rows in the order of their keys, one per position: the keys increase
    strictly. *)
Lemma rows_ordered_strict l :
  rows_ordered l ->
  Forall (fun r => valid_position (seg_position r)) l ->
  NoDup (map seg_position l) ->
  StronglySorted (fun p q => position_key p < position_key q) (map seg_position l).
Proof.
  induction l as [|x l IH]; simpl; intros Ho Hv Hnd; [constructor|].
  apply rows_ordered_inv in Ho as [Hl Hx].
  inversion Hv as [|? ? Hvx Hvl]; subst.
  inversion Hnd as [|? ? Hnotin Hnd']; subst.
  constructor; [auto|].
  apply Forall_forall. intros p Hp. apply in_map_iff in Hp as [y [<- Hy]].
  specialize (Hx y Hy). rewrite Forall_forall in Hvl.
  assert (position_key (seg_position x) <> position_key (seg_position y)).
  { intros E. apply position_key_inj in E; auto.
    apply Hnotin. rewrite E. apply in_map. assumption. }
  lia.
Qed.

(** Rows of one half in the order of their keys are in ascending
    position order. *)
Lemma rows_ordered_ascending h l :
  rows_ordered l ->
  Forall (fun r => valid_position (seg_position r)) l ->
  NoDup (map seg_position l) ->
  Forall (fun r => high_part (seg_position r) = h) l ->
  ascending (map seg_position l).
Proof.
  intros Ho Hv Hnd Hh.
  pose proof (rows_ordered_strict l Ho Hv Hnd) as Hs.
  unfold ascending. clear Ho Hnd.
  induction l as [|x l IH]; simpl in *; [constructor|].
  inversion Hs as [|? ? Hsl Hsx]; subst.
  inversion Hv as [|? ? Hvx Hvl]; subst.
  inversion Hh as [|? ? Hhx Hhl]; subst.
  constructor; [auto|].
  apply Forall_forall. intros p Hp.
  rewrite Forall_forall in Hsx. specialize (Hsx p Hp).
  apply in_map_iff in Hp as [y [<- Hy]].
  rewrite Forall_forall in Hvl, Hhl.
  apply key_lt_Less; auto. rewrite (Hhl y Hy). reflexivity.
Qed.

(** Rows in the order of their keys: those with a part number from
    [2 ^ 31] on come first. *)
Lemma rows_ordered_split l :
  rows_ordered l ->
  Forall (fun r => valid_position (seg_position r)) l ->
  l = filter (fun r => high_part (seg_position r)) l ++
      filter (fun r => negb (high_part (seg_position r))) l.
Proof.
  induction l as [|x l IH]; simpl; intros Ho Hv; [reflexivity|].
  apply rows_ordered_inv in Ho as [Hl Hx].
  inversion Hv as [|? ? Hvx Hvl]; subst.
  destruct (high_part (seg_position x)) eqn:E; simpl.
  - f_equal. auto.
  - assert (Hall : forall y, In y l -> high_part (seg_position y) = false).
    { intros y Hy. destruct (high_part (seg_position y)) eqn:Ey; [|reflexivity].
      exfalso. rewrite Forall_forall in Hvl.
      pose proof (key_high_low _ _ (Hvl y Hy) Hvx Ey E). specialize (Hx y Hy). lia. }
    rewrite (filter_ext_in _ (fun _ => false)) by (intros y Hy; apply Hall; assumption).
    rewrite filter_none. simpl. f_equal.
    rewrite (filter_ext_in _ (fun _ => true))
      by (intros y Hy; rewrite (Hall y Hy); reflexivity).
    rewrite filter_all. reflexivity.
Qed.

(** ** The walk on rows the client's positions are all above *)

Lemma flat_map_invalid_store (l : list segmentInfoForCommit) :
  flat_map call_invalid (map (fun b => (None, Some b)) l) = [].
Proof. induction l; simpl; auto. Qed.

Lemma flat_map_invalid_client (l : list SegmentPosition) :
  flat_map call_invalid (map (fun a => (Some a, @None segmentInfoForCommit)) l) = l.
Proof. induction l; simpl; congruence. Qed.

Lemma diff_calls_above as_ : forall L,
  (forall a b, In a as_ -> In b L ->
               pos_eqb a (Position b) = false /\ Less a (Position b) = false) ->
  diff_calls as_ L =
  map (fun b => (None, Some b)) L ++ map (fun a => (Some a, None)) as_.
Proof.
  destruct as_ as [|a as_].
  - intros L _. rewrite diff_calls_nil_l, app_nil_r. reflexivity.
  - induction L as [|b L IH]; intros H.
    + rewrite diff_calls_nil_r. reflexivity.
    + rewrite diff_calls_cons.
      destruct (H a b (or_introl eq_refl) (or_introl eq_refl)) as [-> ->].
      simpl. f_equal. apply IH. intros x y Hx Hy. apply H; [assumption|].
      right. assumption.
Qed.

(** Rows the client's positions are all above, after the other rows, do not
    change the positions the walk reports. *)
Lemma diff_calls_invalid_app as_ : forall H L,
  (forall a b, In a as_ -> In b L ->
               pos_eqb a (Position b) = false /\ Less a (Position b) = false) ->
  flat_map call_invalid (diff_calls as_ (H ++ L)) =
  flat_map call_invalid (diff_calls as_ H).
Proof.
  induction as_ as [|a as_ IHa]; intros H L HL.
  - rewrite !diff_calls_nil_l, !flat_map_invalid_store. reflexivity.
  - induction H as [|h H IHh].
    + simpl app. rewrite diff_calls_above by assumption.
      rewrite diff_calls_nil_r, flat_map_app, flat_map_invalid_store.
      reflexivity.
    + simpl app. rewrite !diff_calls_cons.
      destruct (pos_eqb a (Position h)); [|destruct (Less a (Position h))]; simpl.
      * apply IHa. intros x y Hx Hy. apply HL; [right|]; assumption.
      * f_equal. apply (IHa (h :: H) L).
        intros x y Hx Hy. apply HL; [right|]; assumption.
      * apply IHh.
Qed.

(** ** When the reconciliation of a snapshot goes through *)

Lemma order_conflict_dec streamID rows A :
  order_conflict streamID rows A \/ ~ order_conflict streamID rows A.
Proof.
  unfold order_conflict.
  destruct (existsb (fun p => negb (high_part p)) A) eqn:E1.
  - destruct (existsb (fun r => (seg_stream_id r =? streamID) &&
                                high_part (seg_position r)) rows) eqn:E2.
    + left. apply existsb_exists in E1 as [p [Hp E1]].
      apply existsb_exists in E2 as [r [Hr E2]].
      apply negb_true_iff in E1. apply andb_true_iff in E2 as [Es Eh].
      apply Z.eqb_eq in Es.
      split; [exists p; tauto | exists r; tauto].
    + right. intros [_ [r [Hr [Hs Hh]]]].
      assert (E : existsb (fun r => (seg_stream_id r =? streamID) &&
                                    high_part (seg_position r)) rows = true).
      { apply existsb_exists. exists r. split; [assumption|].
        rewrite Hh, andb_true_r. apply Z.eqb_eq. assumption. }
      congruence.
  - right. intros [[p [Hp Hh]] _].
    assert (E : existsb (fun p => negb (high_part p)) A = true).
    { apply existsb_exists. exists p. rewrite Hh. tauto. }
    congruence.
Qed.

Lemma all_uploaded_dec streamID rows A :
  all_uploaded streamID rows A \/ ~ all_uploaded streamID rows A.
Proof.
  rewrite <- missing_nil_iff.
  destruct (missing_positions A (snapshot streamID rows));
    [left; reflexivity | right; discriminate].
Qed.

Lemma ascending_head_low a A p :
  ascending (a :: A) -> In p (a :: A) -> high_part p = false -> high_part a = false.
Proof.
  intros Hasc [<- | Hp] Hh; [assumption|].
  pose proof (ascending_above _ _ _ Hasc Hp) as L. apply Less_spec in L.
  unfold high_part in *. apply Z.leb_gt in Hh. apply Z.leb_gt. lia.
Qed.

Lemma rows_ordered_head_high x l r :
  rows_ordered (x :: l) ->
  Forall (fun r => valid_position (seg_position r)) (x :: l) ->
  In r (x :: l) -> high_part (seg_position r) = true ->
  high_part (seg_position x) = true.
Proof.
  intros Ho Hv [<- | Hr] Hh; [assumption|].
  apply rows_ordered_inv in Ho as [_ Hx]. specialize (Hx r Hr).
  destruct (high_part (seg_position x)) eqn:E; [reflexivity|]. exfalso.
  rewrite Forall_forall in Hv.
  pose proof (key_high_low (seg_position r) (seg_position x)
                (Hv r (or_intror Hr)) (Hv x (or_introl eq_refl)) Hh E).
  lia.
Qed.

Lemma select_segments_ordered streamID rows :
  rows_ordered (select_segments streamID rows).
Proof. unfold select_segments. apply order_by_position_ordered. Qed.

Lemma select_segments_Forall_valid streamID rows :
  segments_wf streamID rows ->
  Forall (fun r => valid_position (seg_position r)) (select_segments streamID rows).
Proof.
  intros Hwf. apply Forall_forall. intros r Hr.
  eapply select_segments_valid; eassumption.
Qed.

(** The list holds a position with a low part number and the stream a row
    with a high one: the first row of the snapshot is above the first
    position of the list, which the walk reports. *)
Lemma reconcile_conflict streamID rows A :
  segments_wf streamID rows -> ascending A -> order_conflict streamID rows A ->
  exists invalid,
    determineCommitActions A (snapshot streamID rows) =
    inl (ErrSegmentsMismatch invalid).
Proof.
  intros Hwf HA [[p [Hp Hlow]] [r [Hr [Hs Hhigh]]]].
  destruct A as [|a A']; [contradiction|].
  pose proof (ascending_head_low _ _ _ HA Hp Hlow) as Ha.
  assert (HrS : In r (select_segments streamID rows))
    by (apply In_select_segments; tauto).
  pose proof (select_segments_ordered streamID rows) as Ho.
  pose proof (select_segments_Forall_valid streamID rows Hwf) as Hv.
  unfold snapshot.
  destruct (select_segments streamID rows) as [|x S'] eqn:ES; [contradiction|].
  pose proof (rows_ordered_head_high _ _ _ Ho Hv HrS Hhigh) as Hx.
  destruct (Less_high_low (seg_position x) a Hx Ha) as [E1 [_ E3]].
  assert (E1' : pos_eqb a (seg_position x) = false).
  { apply pos_eqb_neq. apply pos_eqb_neq in E1. congruence. }
  unfold determineCommitActions. rewrite commitWalk_calls.
  cbn [invalidSegments commit toDelete map].
  rewrite diff_calls_cons. cbn [scan_segment Position]. rewrite E1', E3.
  cbn [flat_map call_invalid app]. eexists. reflexivity.
Qed.

Lemma reconcile_no_conflict streamID rows A :
  segments_wf streamID rows -> ascending A ->
  all_uploaded streamID rows A -> ~ order_conflict streamID rows A ->
  exists fd, determineCommitActions A (snapshot streamID rows) = inr fd.
Proof.
  intros Hwf HA Hall Hnc.
  pose proof (select_segments_ordered streamID rows) as Ho.
  pose proof (select_segments_Forall_valid streamID rows Hwf) as Hv.
  pose proof (select_segments_NoDup streamID rows Hwf) as Hnd.
  assert (Hinv : flat_map call_invalid (diff_calls A (snapshot streamID rows)) = []).
  { destruct (existsb (fun r => high_part (seg_position r))
                      (select_segments streamID rows)) eqn:E.
    - apply existsb_exists in E as [r [Hr Hh]].
      assert (HAh : forall a, In a A -> high_part a = true).
      { intros a Ha. destruct (high_part a) eqn:Ea; [reflexivity|]. exfalso.
        apply Hnc. split; [exists a; tauto|]. exists r.
        apply In_select_segments in Hr. tauto. }
      unfold snapshot.
      rewrite (rows_ordered_split (select_segments streamID rows) Ho Hv), map_app.
      rewrite diff_calls_invalid_app.
      + set (Hs := filter (fun r => high_part (seg_position r))
                          (select_segments streamID rows)).
        assert (Hasc : ascending (positions (map scan_segment Hs))).
        { rewrite positions_scan. apply (rows_ordered_ascending true).
          - apply rows_ordered_filter. assumption.
          - apply Forall_forall. intros x Hx. apply filter_In in Hx as [Hx _].
            rewrite Forall_forall in Hv. auto.
          - apply NoDup_map_filter. assumption.
          - apply Forall_forall. intros x Hx. apply filter_In in Hx. tauto. }
        pose proof (commitWalk_ascending A (map scan_segment Hs) HA Hasc) as Hw.
        rewrite commitWalk_calls in Hw. injection Hw as Hi _ _. rewrite Hi.
        destruct (missing_positions A (map scan_segment Hs)) as [|q l] eqn:Em;
          [reflexivity|]. exfalso.
        assert (Hin : In q (missing_positions A (map scan_segment Hs)))
          by (rewrite Em; left; reflexivity).
        apply In_missing_positions in Hin as [Hq Hn]. apply Hn.
        rewrite positions_scan.
        destruct (Hall q Hq) as [r' [Hr' [Hs' Hp']]].
        apply in_map_iff. exists r'. split; [assumption|].
        apply filter_In. split; [apply In_select_segments; tauto|].
        rewrite Hp'. apply HAh. assumption.
      + intros a b Ha Hb. apply in_map_iff in Hb as [r' [<- Hr']].
        apply filter_In in Hr' as [_ Hl]. apply negb_true_iff in Hl.
        cbn [scan_segment Position].
        destruct (Less_high_low a (seg_position r') (HAh a Ha) Hl) as [E1 [E2 _]].
        tauto.
    - assert (Hlow : Forall (fun r => high_part (seg_position r) = false)
                            (select_segments streamID rows)).
      { apply Forall_forall. intros r Hr.
        destruct (high_part (seg_position r)) eqn:Er; [|reflexivity]. exfalso.
        assert (E' : existsb (fun r => high_part (seg_position r))
                             (select_segments streamID rows) = true)
          by (apply existsb_exists; exists r; tauto).
        congruence. }
      assert (Hasc : ascending (positions (snapshot streamID rows))).
      { unfold snapshot. rewrite positions_scan.
        apply (rows_ordered_ascending false); assumption. }
      pose proof (commitWalk_ascending A (snapshot streamID rows) HA Hasc) as Hw.
      rewrite commitWalk_calls in Hw. injection Hw as Hi _ _. rewrite Hi.
      apply missing_nil_iff. assumption. }
  unfold determineCommitActions. rewrite commitWalk_calls.
  cbn [invalidSegments commit toDelete]. rewrite Hinv. eexists. reflexivity.
Qed.

(** The reconciliation of an ascending list with the snapshot of a stream
    goes through exactly when every listed position has a row and the two
    orders do not disagree on the list and the stream. *)
Lemma reconcile_iff streamID rows A :
  segments_wf streamID rows -> ascending A ->
  ((exists fd, determineCommitActions A (snapshot streamID rows) = inr fd) <->
   all_uploaded streamID rows A /\ ~ order_conflict streamID rows A).
Proof.
  intros Hwf HA. split.
  - intros [[fs ds] Hd]. split.
    + intros p Hp. apply In_positions_snapshot.
      destruct (determineCommitActions_success _ _ _ _
                  (snapshot_NoDup streamID rows Hwf) Hd) as [_ [_ [_ Hin]]].
      apply Hin. assumption.
    + intros Hc. destruct (reconcile_conflict _ _ _ Hwf HA Hc) as [inv E].
      congruence.
  - intros [H1 H2]. apply reconcile_no_conflict; assumption.
Qed.

(** ** When a commit succeeds and how it fails *)

Lemma commitWalk_invalid_incl as_ bs :
  incl (invalidSegments (commitWalk as_ bs)) as_.
Proof.
  rewrite commitWalk_calls. cbn [invalidSegments].
  destruct (diff_calls_args as_ bs) as [Ha [_ Hal]].
  destruct (calls_accounting _ Hal) as [_ [_ [_ [H4 _]]]].
  rewrite Ha in H4. exact H4.
Qed.

(** X4 (when a commit succeeds and how it fails).  With one row per
    position in the stream, [CommitObjectWithSegments] succeeds exactly when
    the stream passes [Verify], the list is in ascending order, every listed
    position has a row in the stream, the order of the keys does not
    disagree with the order of the positions on the list and the stream (no
    listed part number is below [2 ^ 31] while a stored one is not), and an
    object row is pending for the stream.  Otherwise it leaves the store as
    it was and returns the error of the first of these checks that fails,
    in that order: the error of [Verify], the order error, the mismatch
    error with positions of the list, among them every position that has no
    row, or "object not found"; the error of the count of updated rows does
    not occur. *)
Theorem CommitObjectWithSegments_outcome Verify db opts :
  let streamID := StreamID (Stream opts) in
  segments_wf streamID (segments db) ->
  ((exists object deleted db',
       CommitObjectWithSegments Verify db opts = (inr (object, deleted), db')) <->
   Verify (Stream opts) = None /\
   verifySegmentOrder (Segments opts) = None /\
   all_uploaded streamID (segments db) (Segments opts) /\
   ~ order_conflict streamID (segments db) (Segments opts) /\
   has_pending (Stream opts) (objects db)) /\
  (forall e db',
      CommitObjectWithSegments Verify db opts = (inl e, db') ->
      db' = db /\
      match Verify (Stream opts), verifySegmentOrder (Segments opts) with
      | Some e', _ => e = e'
      | None, Some e' => e = e'
      | None, None =>
          ((~ all_uploaded streamID (segments db) (Segments opts) \/
            order_conflict streamID (segments db) (Segments opts)) /\
           exists invalid,
             e = ErrSegmentsMismatch invalid /\
             invalid <> [] /\
             incl invalid (Segments opts) /\
             (forall p, In p (Segments opts) ->
                        ~ In p (positions (snapshot streamID (segments db))) ->
                        In p invalid)) \/
          (all_uploaded streamID (segments db) (Segments opts) /\
           ~ order_conflict streamID (segments db) (Segments opts) /\
           ~ has_pending (Stream opts) (objects db) /\
           e = ErrObjectNotFound)
      end).
Proof.
  intros streamID Hwf.
  destruct (Verify (Stream opts)) as [ev|] eqn:HV.
  { unfold CommitObjectWithSegments. rewrite HV. split.
    - split; [intros [? [? [? H]]]; discriminate | intros [H _]; discriminate].
    - intros e db' H. injection H as <- <-. split; reflexivity. }
  destruct (verifySegmentOrder (Segments opts)) as [eo|] eqn:HO.
  { unfold CommitObjectWithSegments. rewrite HV, HO. split.
    - split; [intros [? [? [? H]]]; discriminate | intros [_ [H _]]; discriminate].
    - intros e db' H. injection H as <- <-. split; reflexivity. }
  assert (HA : ascending (Segments opts))
    by (apply verifySegmentOrder_ascending; assumption).
  rewrite CommitObjectWithSegments_cases by assumption. fold streamID.
  pose proof (reconcile_iff streamID (segments db) (Segments opts) Hwf HA) as Hm.
  pose proof (filter_nil_iff (pending_object (Stream opts)) (objects db)) as Hp.
  fold (has_pending (Stream opts) (objects db)) in Hp.
  destruct (determineCommitActions (Segments opts) (snapshot streamID (segments db)))
    as [e|fd] eqn:Ed.
  - assert (Hn : ~ (all_uploaded streamID (segments db) (Segments opts) /\
                    ~ order_conflict streamID (segments db) (Segments opts))).
    { intros H. apply Hm in H as [fd' H]. discriminate. }
    split.
    + split; [intros [? [? [? H]]]; discriminate | tauto].
    + intros e0 db' H. injection H as <- <-. split; [reflexivity|]. left. split.
      * destruct (all_uploaded_dec streamID (segments db) (Segments opts))
          as [Ha | Ha]; [|left; assumption].
        destruct (order_conflict_dec streamID (segments db) (Segments opts))
          as [Hc | Hc]; [right; assumption | tauto].
      * unfold determineCommitActions in Ed.
        pose proof (commitWalk_invalid_incl (Segments opts)
                      (snapshot streamID (segments db))) as Hincl.
        pose proof (proj2 (diff_records_missing (Segments opts)
                             (snapshot streamID (segments db))
                             (mkActions [] [] []))) as Hmiss.
        cbv zeta in Hmiss. fold (commitWalk (Segments opts)
                                   (snapshot streamID (segments db))) in Hmiss.
        destruct (invalidSegments
                    (commitWalk (Segments opts) (snapshot streamID (segments db))))
          as [|x l] eqn:Ei; [discriminate|].
        injection Ed as <-. exists (x :: l).
        split; [reflexivity|]. split; [discriminate|]. split; assumption.
  - assert (Hok : all_uploaded streamID (segments db) (Segments opts) /\
                  ~ order_conflict streamID (segments db) (Segments opts))
      by (apply Hm; eexists; reflexivity).
    destruct (filter (pending_object (Stream opts)) (objects db)) as [|o rest] eqn:Ef.
    + assert (Hnp : ~ has_pending (Stream opts) (objects db))
        by (apply Hp; reflexivity).
      split.
      * split; [intros [? [? [? H]]]; discriminate | tauto].
      * intros e db' H. injection H as <- <-. split; [reflexivity|]. right. tauto.
    + assert (Hhp : has_pending (Stream opts) (objects db)).
      { exists o. apply filter_In. rewrite Ef. left. reflexivity. }
      split.
      * split; [tauto|]. intros _. eexists. eexists. eexists. reflexivity.
      * intros e db' H. discriminate.
Qed.

Lemma CommitObjectWithSegments_outcome_witness :
  let opts := example_opts [mkPos 0 0; mkPos 0 2] in
  let opts' := example_opts [mkPos 0 0; mkPos (2 ^ 31) 0] in
  (exists object deleted db',
      CommitObjectWithSegments verify_ok example_store opts =
      (inr (object, deleted), db')) /\
  all_uploaded 7 (segments example_store) (Segments opts) /\
  verifySegmentOrder (Segments opts') = None /\
  all_uploaded 7 (segments high_part_store) (Segments opts') /\
  order_conflict 7 (segments high_part_store) (Segments opts') /\
  CommitObjectWithSegments verify_ok high_part_store opts' =
    (inl (ErrSegmentsMismatch [mkPos 0 0]), high_part_store).
Proof.
  intros opts opts'.
  pose proof (proj1 (CommitObjectWithSegments_outcome verify_ok example_store opts
                       (example_segments_wf 5))) as H.
  assert (Hnc : ~ order_conflict 7 (segments example_store) (Segments opts)).
  { intros [_ [r [Hr [_ Hh]]]]. simpl in Hr.
    destruct Hr as [<- | [<- | [<- | [<- | []]]]]; discriminate. }
  assert (Hok : exists object deleted db',
             CommitObjectWithSegments verify_ok example_store opts =
             (inr (object, deleted), db')).
  { apply H. split; [reflexivity|]. split; [reflexivity|]. split; [|split].
    - intros p [<- | [<- | []]].
      + exists (example_segment 0 0 10 8). simpl. auto.
      + exists (example_segment 2 0 10 9). simpl. auto.
    - exact Hnc.
    - exists (example_object Pending). split; [left|]; reflexivity. }
  split; [exact Hok|]. split; [apply H; exact Hok|].
  split; [reflexivity|]. split; [|split].
  - intros p [<- | [<- | []]].
    + exists (example_segment 0 0 10 8). simpl. auto.
    + eexists. split; [right; left; reflexivity|]. split; reflexivity.
  - split.
    + exists (mkPos 0 0). split; [left|]; reflexivity.
    + eexists. split; [right; left; reflexivity|]. split; reflexivity.
  - reflexivity.
Defined.

(** ** The count of updated rows *)

Lemma joined_keys streamID rows P :
  segments_wf streamID rows ->
  NoDup (map row_key (filter (joins streamID P) rows)) /\
  incl (map row_key (filter (joins streamID P) rows)) (map fst P).
Proof.
  intros Hwf. split.
  - rewrite (filter_implied _ (fun r => seg_stream_id r =? streamID)).
    + apply NoDup_map_filter. apply NoDup_stream_keys. assumption.
    + intros r Hr. apply joins_iff in Hr as [Hr _]. apply Z.eqb_eq. assumption.
  - intros k Hk. apply in_map_iff in Hk as [r [<- Hr]].
    apply filter_In in Hr as [_ Hr]. apply joins_iff in Hr. tauto.
Qed.

Lemma joined_all streamID rows P :
  batch_rows_exist streamID rows (map fst P) ->
  incl (map fst P) (map row_key (filter (joins streamID P) rows)).
Proof.
  intros H k Hk. destruct (H k Hk) as [r [Hr [Hs <-]]].
  apply in_map. apply filter_In. split; [assumption|]. apply joins_iff. tauto.
Qed.

(** X5 (the count of updated rows).  On a table with one row per position
    in the stream and for a list of distinct positions,
    [updateSegmentOffsets] succeeds exactly when every segment of its batch
    has a row in the stream; it then rewrites the offsets of these rows.
    When a segment of the batch has no row, it fails with the count error,
    expected being the size of the batch and got the smaller number of rows
    found. *)
Theorem updateSegmentOffsets_count streamID updates tx :
  segments_wf streamID (segments tx) ->
  NoDup (map (fun u => position_key (cPosition u)) updates) ->
  let update := offsetUpdates updates in
  let present := batch_rows_exist streamID (segments tx) (Positions update) in
  (present ->
   updateSegmentOffsets streamID updates tx =
   (inr tt, mkStore (objects tx)
                    (map (apply_offset streamID (unnest2 update)) (segments tx)))) /\
  ((exists tx', updateSegmentOffsets streamID updates tx = (inr tt, tx')) -> present) /\
  (~ present ->
   exists got tx',
     updateSegmentOffsets streamID updates tx =
     (inl (ErrNotAllUpdated (Z.of_nat (length (Positions update))) got), tx') /\
     0 <= got < Z.of_nat (length (Positions update))).
Proof.
  intros Hwf Hnd update present.
  destruct (unnest2_offsetUpdates_running updates) as [HP HK].
  fold update in HP, HK.
  assert (HndK : NoDup (Positions update))
    by (rewrite HK; apply NoDup_batch_keys; assumption).
  assert (HKP : Positions update = map fst (unnest2 update))
    by (rewrite HK, HP; reflexivity).
  destruct (joined_keys streamID (segments tx) (unnest2 update) Hwf) as [HndM Hincl].
  rewrite <- HKP in Hincl.
  pose proof (NoDup_incl_length HndM Hincl) as Hle. rewrite length_map in Hle.
  assert (Hall : present ->
                 length (filter (joins streamID (unnest2 update)) (segments tx)) =
                 length (Positions update)).
  { intros Hp. unfold present in Hp. rewrite HKP in Hp.
    apply joined_all in Hp. rewrite <- HKP in Hp.
    pose proof (NoDup_incl_length HndK Hp) as Hge. rewrite length_map in Hge. lia. }
  assert (Hconv : length (filter (joins streamID (unnest2 update)) (segments tx)) =
                  length (Positions update) -> present).
  { intros E k Hk.
    assert (Hin : In k (map row_key (filter (joins streamID (unnest2 update))
                                            (segments tx)))).
    { apply (NoDup_length_incl (l' := Positions update) HndM);
        [rewrite length_map; lia | exact Hincl | exact Hk]. }
    apply in_map_iff in Hin as [r [<- Hr]]. apply filter_In in Hr as [Hr Hj].
    apply joins_iff in Hj. exists r. tauto. }
  assert (Hres : forall tx',
             updateSegmentOffsets streamID updates tx = (inr tt, tx') -> present).
  { intros tx' H. unfold updateSegmentOffsets in H.
    destruct updates as [|u updates']; [intros k []|].
    fold update in H.
    destruct (Positions update) as [|k0 ks] eqn:EK; [intros k []|].
    unfold exec_update_offsets in H.
    destruct (Z.of_nat (length (filter (joins streamID (unnest2 update)) (segments tx)))
              =? Z.of_nat (length (k0 :: ks))) eqn:Ec; simpl in H; [|discriminate].
    apply Z.eqb_eq in Ec. apply Hconv. lia. }
  refine (conj _ (conj _ _)).
  - intros Hp. apply updateSegmentOffsets_ok. apply Hall. assumption.
  - intros [tx' H]. eapply Hres. eassumption.
  - intros Hn.
    assert (Hlt : (length (filter (joins streamID (unnest2 update)) (segments tx)) <
                   length (Positions update))%nat).
    { destruct (Nat.eq_dec
                  (length (filter (joins streamID (unnest2 update)) (segments tx)))
                  (length (Positions update))) as [E | E]; [|lia].
      exfalso. apply Hn, Hconv. assumption. }
    unfold updateSegmentOffsets.
    destruct updates as [|u updates'];
      [exfalso; apply Hn; intros k []|].
    fold update.
    destruct (Positions update) as [|k0 ks] eqn:EK; [simpl in Hlt; lia|].
    unfold exec_update_offsets.
    destruct (Z.of_nat (length (filter (joins streamID (unnest2 update)) (segments tx)))
              =? Z.of_nat (length (k0 :: ks))) eqn:Ec.
    + apply Z.eqb_eq in Ec. lia.
    + simpl negb. cbv iota. eexists. eexists. split; [reflexivity|]. lia.
Qed.

Lemma updateSegmentOffsets_count_witness :
  let updates := [mkCommit (mkPos 0 0) 0 10 26; mkCommit (mkPos 0 5) 0 10 26] in
  exists got tx',
    updateSegmentOffsets 7 updates example_store =
    (inl (ErrNotAllUpdated 1 got), tx') /\ 0 <= got < 1.
Proof.
  intros updates.
  assert (Hnd : NoDup (map (fun u => position_key (cPosition u)) updates)).
  { repeat constructor; simpl; intuition discriminate. }
  apply (proj2 (proj2 (updateSegmentOffsets_count 7 updates example_store
                         (example_segments_wf 5) Hnd))).
  intros Hp. destruct (Hp (position_key (mkPos 0 5))) as [r [Hr [_ Hk]]].
  - left. reflexivity.
  - simpl in Hr. destruct Hr as [<- | [<- | [<- | [<- | []]]]]; discriminate.
Defined.

(** ** What a successful commit writes and what it leaves alone *)

Lemma CommitObjectWithSegments_success_full Verify db opts object deleted db' :
  let streamID := StreamID (Stream opts) in
  let C := staged_commit streamID (segments db) (Segments opts) in
  segments_wf streamID (segments db) ->
  CommitObjectWithSegments Verify db opts = (inr (object, deleted), db') ->
  exists o rest,
    filter (pending_object (Stream opts)) (objects db) = o :: rest /\
    object = mkObject (Stream opts) (obj_created_at o) (obj_expires_at o) Committed
                      (int32 (Z.of_nat (length C)))
                      (EncryptedMetadataNonce opts) (EncryptedMetadata opts)
                      (EncryptedMetadataEncryptedKey opts)
                      (fst (totalSizes C)) (snd (totalSizes C))
                      (fixedSegmentSize C) (obj_encryption o) /\
    db' = mkStore (map (fun o => if pending_object (Stream opts) o
                                 then set_committed opts (Z.of_nat (length C))
                                        (fst (totalSizes C)) (snd (totalSizes C))
                                        (fixedSegmentSize C) o
                                 else o) (objects db))
                  (staged_rows streamID (segments db) (Segments opts)).
Proof.
  intros streamID C Hwf H.
  destruct (Verify (Stream opts)) as [e|] eqn:HV.
  { unfold CommitObjectWithSegments in H. rewrite HV in H. discriminate. }
  destruct (verifySegmentOrder (Segments opts)) as [e|] eqn:HO.
  { unfold CommitObjectWithSegments in H. rewrite HV, HO in H. discriminate. }
  rewrite CommitObjectWithSegments_cases in H by assumption.
  fold streamID in H. fold C in H.
  destruct (determineCommitActions (Segments opts) (snapshot streamID (segments db)))
    as [e|fd]; [discriminate|].
  destruct (filter (pending_object (Stream opts)) (objects db)) as [|o rest];
    [discriminate|].
  injection H as <- _ <-. exists o, rest. repeat split.
Qed.

Lemma apply_offset_other streamID P r :
  other_stream streamID r = true -> apply_offset streamID P r = r.
Proof.
  unfold other_stream, apply_offset, offset_for. intros H.
  apply negb_true_iff in H. rewrite H. reflexivity.
Qed.

Lemma filter_head_find {X} (f : X -> bool) l x rest :
  filter f l = x :: rest -> find f l = Some x.
Proof.
  induction l as [|y l IH]; simpl; [discriminate|].
  destruct (f y); [intros H; injection H as -> _; reflexivity | exact IH].
Qed.

(** X6 (what a successful commit leaves alone).  A successful commit adds
    no row to either table: the [segments] table afterwards is the table
    before without the rows of the stream at positions the client does not
    list, in the same order and with nothing but plain offsets changed, and
    the [objects] table has the rows it had; the rows of the other streams
    are left as they were, in their order, and so is every object row that
    is not pending for the stream of the call. *)
Theorem CommitObjectWithSegments_frame Verify db opts object deleted db' :
  let streamID := StreamID (Stream opts) in
  segments_wf streamID (segments db) ->
  CommitObjectWithSegments Verify db opts = (inr (object, deleted), db') ->
  map forget_offset (segments db') =
    map forget_offset
        (filter (fun r => negb (orphan_row streamID (Segments opts) r))
                (segments db)) /\
  filter (other_stream streamID) (segments db') =
    filter (other_stream streamID) (segments db) /\
  (length (segments db') <= length (segments db))%nat /\
  length (objects db') = length (objects db) /\
  (forall i o, nth_error (objects db) i = Some o ->
               pending_object (Stream opts) o = false ->
               nth_error (objects db') i = Some o).
Proof.
  intros streamID Hwf H.
  destruct (CommitObjectWithSegments_success_full _ _ _ _ _ _ Hwf H)
    as [o [rest [_ [_ ->]]]]. fold streamID. cbn [objects segments].
  rewrite staged_rows_orphans by assumption.
  refine (conj _ (conj _ (conj _ (conj _ _)))).
  - rewrite map_map. apply map_ext. intros r. apply forget_offset_apply.
  - rewrite filter_map_swap.
    rewrite (filter_ext (fun x => other_stream streamID (apply_offset streamID _ x))
                        (other_stream streamID))
      by (intros r; unfold other_stream; rewrite apply_offset_stream; reflexivity).
    rewrite filter_comm.
    rewrite (map_ext_in _ (fun r => r)).
    + rewrite map_id.
      rewrite (filter_ext_in _ (fun _ => true)); [apply filter_all|].
      intros r Hr. apply filter_In in Hr as [_ Hr]. unfold orphan_row.
      unfold other_stream in Hr. apply negb_true_iff in Hr. rewrite Hr. reflexivity.
    + intros r Hr. apply filter_In in Hr as [Hr _]. apply filter_In in Hr as [_ Hr].
      apply apply_offset_other. assumption.
  - rewrite length_map. apply filter_length_le.
  - apply length_map.
  - intros i x Hi Hp. rewrite nth_error_map, Hi. simpl. rewrite Hp. reflexivity.
Qed.

Lemma CommitObjectWithSegments_frame_witness :
  let opts := example_opts [mkPos 0 0; mkPos 0 2] in
  let db' := snd (CommitObjectWithSegments verify_ok example_store opts) in
  filter (other_stream 7) (segments db') = [other_segment].
Proof.
  intros opts db'.
  pose (res := CommitObjectWithSegments verify_ok example_store opts).
  assert (E : CommitObjectWithSegments verify_ok example_store opts = res)
    by reflexivity.
  vm_compute in (value of res).
  exact (proj1 (proj2 (CommitObjectWithSegments_frame verify_ok example_store opts
                         _ _ _ (example_segments_wf 5) E))).
Defined.

(** X7 (the object row and the returned object).  On success, every object
    row that was pending for the stream becomes Committed with the metadata
    of the call, no zombie deletion deadline and the aggregates of the
    commit list the reconciliation returned (its length as segment count,
    its total sizes and its fixed segment size), and keeps its identity,
    creation time, expiry and encryption; the returned object has the
    stream and the metadata of the call, status Committed, the same
    aggregates (the segment count as a 32-bit value), and the creation
    time, expiry and encryption of the first such row. *)
Theorem CommitObjectWithSegments_object Verify db opts object deleted db' :
  CommitObjectWithSegments Verify db opts = (inr (object, deleted), db') ->
  exists finalSegments segmentsToDelete,
    determineCommitActions (Segments opts)
      (snapshot (StreamID (Stream opts)) (segments db)) =
      inr (finalSegments, segmentsToDelete) /\
    (forall i o,
        nth_error (objects db) i = Some o ->
        pending_object (Stream opts) o = true ->
        exists o',
          nth_error (objects db') i = Some o' /\
          object_kept_columns o' = object_kept_columns o /\
          obj_status o' = Committed /\
          obj_zombie_deletion_deadline o' = None /\
          obj_encrypted_metadata_nonce o' = EncryptedMetadataNonce opts /\
          obj_encrypted_metadata o' = EncryptedMetadata opts /\
          obj_encrypted_metadata_encrypted_key o' = EncryptedMetadataEncryptedKey opts /\
          obj_segment_count o' = Z.of_nat (length finalSegments) /\
          obj_total_plain_size o' = fst (totalSizes finalSegments) /\
          obj_total_encrypted_size o' = snd (totalSizes finalSegments) /\
          obj_fixed_segment_size o' = fixedSegmentSize finalSegments) /\
    oStream object = Stream opts /\
    oStatus object = Committed /\
    oEncryptedMetadataNonce object = EncryptedMetadataNonce opts /\
    oEncryptedMetadata object = EncryptedMetadata opts /\
    oEncryptedMetadataEncryptedKey object = EncryptedMetadataEncryptedKey opts /\
    oSegmentCount object = int32 (Z.of_nat (length finalSegments)) /\
    oTotalPlainSize object = fst (totalSizes finalSegments) /\
    oTotalEncryptedSize object = snd (totalSizes finalSegments) /\
    oFixedSegmentSize object = fixedSegmentSize finalSegments /\
    (exists o, find (pending_object (Stream opts)) (objects db) = Some o /\
               oCreatedAt object = obj_created_at o /\
               oExpiresAt object = obj_expires_at o /\
               oEncryption object = obj_encryption o).
Proof.
  intros H.
  destruct (CommitObjectWithSegments_commit_set _ _ _ _ _ _ H)
    as [fs [ds [o [rest [Hd [Hf [-> Hobj]]]]]]].
  exists fs, ds. split; [exact Hd|]. split.
  - intros i x Hi Hp. rewrite Hobj, nth_error_map, Hi. simpl. rewrite Hp.
    eexists. split; [reflexivity|]. repeat split.
  - repeat split. exists o. split; [eapply filter_head_find; eassumption|].
    repeat split.
Qed.

Lemma CommitObjectWithSegments_object_witness :
  let opts := example_opts [mkPos 0 0; mkPos 0 2] in
  let res := CommitObjectWithSegments verify_ok example_store opts in
  exists object deleted finalSegments,
    fst res = inr (object, deleted) /\
    oStatus object = Committed /\
    oSegmentCount object = int32 (Z.of_nat (length finalSegments)) /\
    oTotalPlainSize object = fst (totalSizes finalSegments).
Proof.
  intros opts res0.
  pose (res := CommitObjectWithSegments verify_ok example_store opts).
  assert (E : CommitObjectWithSegments verify_ok example_store opts = res)
    by reflexivity.
  vm_compute in (value of res).
  destruct (CommitObjectWithSegments_object verify_ok example_store opts _ _ _ E)
    as [fs [ds [_ [_ [_ [Hst [_ [_ [_ [Hc [Hp _]]]]]]]]]]].
  eexists. eexists. exists fs. split; [reflexivity|].
  split; [exact Hst|]. split; [exact Hc | exact Hp].
Defined.

(** ** The total sizes *)

Lemma totalSizes_loop finalSegments : forall p e k,
  Forall (fun u => is_int32 (cPlainSize u) /\ is_int32 (cEncryptedSize u)) finalSegments ->
  0 <= k -> k + Z.of_nat (length finalSegments) <= 2 ^ 32 ->
  - (k * 2 ^ 31) <= p <= k * 2 ^ 31 - k ->
  - (k * 2 ^ 31) <= e <= k * 2 ^ 31 - k ->
  fold_left (fun '(totalPlainSize, totalEncryptedSize) seg =>
               (int64 (totalPlainSize + int64 (cPlainSize seg)),
                int64 (totalEncryptedSize + int64 (cEncryptedSize seg))))
            finalSegments (p, e) =
  (p + sumZ (map cPlainSize finalSegments),
   e + sumZ (map cEncryptedSize finalSegments)).
Proof.
  induction finalSegments as [|u rest IH]; intros p e k Hs Hk Hlen Hp He; simpl.
  - rewrite !Z.add_0_r. reflexivity.
  - inversion Hs as [|? ? [Hup Hue] Hrest]; subst.
    simpl length in Hlen. unfold is_int32 in Hup, Hue.
    rewrite (int64_id (cPlainSize u)) by (unfold is_int64; lia).
    rewrite (int64_id (cEncryptedSize u)) by (unfold is_int64; lia).
    rewrite (int64_id (p + cPlainSize u)) by (unfold is_int64; nia).
    rewrite (int64_id (e + cEncryptedSize u)) by (unfold is_int64; nia).
    rewrite (IH _ _ (k + 1)); [| assumption | lia | lia | nia | nia].
    f_equal; lia.
Qed.

Lemma totalSizes_sums finalSegments :
  Forall (fun u => is_int32 (cPlainSize u) /\ is_int32 (cEncryptedSize u)) finalSegments ->
  Z.of_nat (length finalSegments) <= 2 ^ 32 ->
  totalSizes finalSegments =
  (sumZ (map cPlainSize finalSegments), sumZ (map cEncryptedSize finalSegments)).
Proof.
  intros Hs Hlen. unfold totalSizes.
  rewrite (totalSizes_loop finalSegments 0 0 0); try assumption; try lia.
  reflexivity.
Qed.

Lemma set_offsets_encrypted_size K : forall offsets,
  length offsets = length K ->
  map seg_encrypted_size (set_offsets K offsets) = map seg_encrypted_size K.
Proof.
  induction K as [|r K IH]; intros [|e offsets] Hlen; try discriminate.
  - reflexivity.
  - injection Hlen as Hlen. rewrite set_offsets_cons. simpl. rewrite IH by assumption.
    reflexivity.
Qed.

(** X8 (the total sizes).  For a commit set of at most 2^32 segments with
    32-bit sizes the two totals are the sums of the plain sizes and of the
    encrypted sizes.  After a successful commit the totals of the returned
    object are the sums of the plain sizes and of the encrypted sizes of
    the rows the stream has in the table. *)
Theorem totalSizes_of_commit :
  (forall finalSegments,
      Forall (fun u => is_int32 (cPlainSize u) /\ is_int32 (cEncryptedSize u))
             finalSegments ->
      Z.of_nat (length finalSegments) <= 2 ^ 32 ->
      totalSizes finalSegments =
      (sumZ (map cPlainSize finalSegments), sumZ (map cEncryptedSize finalSegments))) /\
  (forall Verify db opts object deleted db',
      let streamID := StreamID (Stream opts) in
      segments_wf streamID (segments db) ->
      plain_sizes_int32 streamID (segments db) ->
      encrypted_sizes_int32 streamID (segments db) ->
      Z.of_nat (length (Segments opts)) <= 2 ^ 32 ->
      CommitObjectWithSegments Verify db opts = (inr (object, deleted), db') ->
      oTotalPlainSize object =
        sumZ (map seg_plain_size (stream_rows streamID (segments db'))) /\
      oTotalEncryptedSize object =
        sumZ (map seg_encrypted_size (stream_rows streamID (segments db')))).
Proof.
  split; [exact totalSizes_sums|].
  intros Verify db opts object deleted db' streamID Hwf Hps Hes Hlen H.
  destruct (CommitObjectWithSegments_success_full _ _ _ _ _ _ Hwf H)
    as [o [rest [_ [-> ->]]]].
  apply CommitObjectWithSegments_success in H
    as [_ [HA [Hmiss _]]]; [|assumption].
  fold streamID in Hmiss |- *. cbn [oTotalPlainSize oTotalEncryptedSize segments].
  set (K := kept_segment_rows streamID (segments db) (Segments opts)).
  set (C := staged_commit streamID (segments db) (Segments opts)).
  assert (HlenC : length C = length (Segments opts))
    by (apply staged_commit_length; assumption).
  assert (HK : forall r, In r K -> In r (stream_rows streamID (segments db))).
  { intros r Hr. apply In_kept_segment_rows in Hr as [Hr _].
    apply (Permutation_in _ (Permutation_sym
             (select_segments_perm streamID (segments db)))). assumption. }
  rewrite totalSizes_sums.
  - cbn [fst snd].
    assert (HS : select_segments streamID
                   (staged_rows streamID (segments db) (Segments opts)) =
                 set_offsets K (runningOffsets C 0))
      by (apply select_segments_staged; assumption).
    assert (Hl : length (runningOffsets C 0) = length K)
      by (rewrite length_runningOffsets; unfold C, staged_commit; apply length_map).
    destruct (set_offsets_columns K (runningOffsets C 0) Hl) as [_ [Hsz _]].
    pose proof (set_offsets_encrypted_size K (runningOffsets C 0) Hl) as Hen.
    pose proof (select_segments_perm streamID
                  (staged_rows streamID (segments db) (Segments opts))) as Hperm.
    rewrite HS in Hperm. split.
    + rewrite (sumZ_perm _ _ (Permutation_map seg_plain_size Hperm)), Hsz.
      unfold C, staged_commit. rewrite map_map. reflexivity.
    + rewrite (sumZ_perm _ _ (Permutation_map seg_encrypted_size Hperm)), Hen.
      unfold C, staged_commit. rewrite map_map. reflexivity.
  - apply Forall_forall. intros u Hu. unfold C, staged_commit in Hu.
    apply in_map_iff in Hu as [r [<- Hr]]. apply HK in Hr.
    unfold plain_sizes_int32 in Hps. unfold encrypted_sizes_int32 in Hes.
    rewrite Forall_forall in Hps, Hes. split; [apply Hps | apply Hes]; assumption.
  - rewrite HlenC. assumption.
Qed.

Lemma totalSizes_of_commit_witness :
  let opts := example_opts [mkPos 0 0; mkPos 0 2] in
  let res := CommitObjectWithSegments verify_ok example_store opts in
  (exists object deleted,
      fst res = inr (object, deleted) /\
      oTotalPlainSize object =
        sumZ (map seg_plain_size (stream_rows 7 (segments (snd res))))) /\
  sumZ (map seg_plain_size (stream_rows 7 (segments (snd res)))) = 20.
Proof.
  intros opts res0.
  pose (res := CommitObjectWithSegments verify_ok example_store opts).
  assert (E : CommitObjectWithSegments verify_ok example_store opts = res)
    by reflexivity.
  vm_compute in (value of res).
  assert (Hes : encrypted_sizes_int32 7 (segments example_store)).
  { unfold encrypted_sizes_int32. simpl.
    repeat constructor; simpl; unfold is_int32; lia. }
  assert (Hlen : Z.of_nat (length (Segments opts)) <= 2 ^ 32) by (simpl; lia).
  pose proof (proj2 totalSizes_of_commit verify_ok example_store opts _ _ _
                (example_segments_wf 5) (example_plain_sizes 5) Hes Hlen E) as H.
  split; [|reflexivity].
  eexists. eexists. split; [reflexivity|]. exact (proj1 H).
Defined.

(** ** The last segment and the fixed segment size *)

Lemma fixedSegmentSize_loop_last n f last last' l : forall i,
  n = i + Z.of_nat (length l) + 1 ->
  Part (cPosition last) = Part (cPosition last') ->
  fixedSegmentSize_loop n i f (l ++ [last]) =
  fixedSegmentSize_loop n i f (l ++ [last']).
Proof.
  induction l as [|seg l IH]; intros i Hn Hp; simpl.
  - rewrite Hp. simpl in Hn.
    replace (i <? n - 1) with false by (symmetry; apply Z.ltb_ge; lia).
    reflexivity.
  - destruct (negb (Part (cPosition seg) =? 0)); [reflexivity|].
    destruct ((i <? n - 1) && negb (cEncryptedSize seg =? f)); [reflexivity|].
    apply IH; [simpl length in Hn; lia | assumption].
Qed.

Lemma fixedSegmentSize_loop_range n f l : forall i,
  fixedSegmentSize_loop n i f l = -1 \/ fixedSegmentSize_loop n i f l = f.
Proof.
  induction l as [|seg l IH]; intros i; simpl; [right; reflexivity|].
  destruct (negb (Part (cPosition seg) =? 0)); [left; reflexivity|].
  destruct ((i <? n - 1) && negb (cEncryptedSize seg =? f)); [left; reflexivity|].
  apply IH.
Qed.

(** X9 (the last segment does not count).  For a commit set of two or more
    segments, [fixedSegmentSize] does not depend on the sizes and offset of
    the last segment, only on its part number; and for any non-empty commit
    set the result is either -1 or the encrypted size of the first
    segment. *)
Theorem fixedSegmentSize_ignores_last :
  (forall first l last last',
      Part (cPosition last) = Part (cPosition last') ->
      fixedSegmentSize (first :: l ++ [last]) =
      fixedSegmentSize (first :: l ++ [last'])) /\
  (forall first l,
      fixedSegmentSize (first :: l) = -1 \/
      fixedSegmentSize (first :: l) = cEncryptedSize first).
Proof.
  split.
  - intros first l last last' Hp. unfold fixedSegmentSize.
    replace (length (first :: l ++ [last'])) with (length (first :: l ++ [last]))
      by (simpl; rewrite !length_app; reflexivity).
    apply (fixedSegmentSize_loop_last _ _ last last' (first :: l) 0); [|assumption].
    simpl length. rewrite length_app. simpl. lia.
  - intros first l. unfold fixedSegmentSize. apply fixedSegmentSize_loop_range.
Qed.

(** ** Deleting twice, and how much a deletion returns *)

Lemma filter_negb_idem {X} (f : X -> bool) l :
  filter f (filter (fun x => negb (f x)) l) = [] /\
  filter (fun x => negb (f x)) (filter (fun x => negb (f x)) l) =
  filter (fun x => negb (f x)) l.
Proof.
  induction l as [|x l [IH1 IH2]]; simpl; [split; reflexivity|].
  destruct (f x) eqn:E; simpl; rewrite ?E; simpl; [tauto|].
  rewrite IH2. tauto.
Qed.

Lemma scan_deleted_length rows : forall acc,
  (length (scan_deleted rows acc) <= length acc + length rows)%nat.
Proof.
  induction rows as [|r rows IH]; intros acc; simpl; [lia|].
  destruct (IsZero (seg_root_piece_id r)).
  - specialize (IH acc). lia.
  - specialize (IH (acc ++ [mkDeleted (seg_root_piece_id r) (seg_remote_pieces r)])).
    rewrite length_app in IH. simpl in IH. lia.
Qed.

(** X10 (deleting twice; how much is returned).  After a deletion that
    succeeded, a second deletion of the same positions returns nothing and
    leaves the table as the first one left it.  On a table with one row per
    position in the stream, the deletion removed at most one row per listed
    position and so returned at most as many entries as positions were
    listed. *)
Theorem deleteSegmentsNotInCommit_twice streamID segs tx deletedSegments tx' :
  deleteSegmentsNotInCommit streamID segs tx = (inr deletedSegments, tx') ->
  deleteSegmentsNotInCommit streamID segs tx' = (inr [], tx') /\
  (segments_wf streamID (segments tx) ->
   (length deletedSegments <= length segs)%nat /\
   (length (segments tx) <= length (segments tx') + length segs)%nat).
Proof.
  intros H. rewrite deleteSegmentsNotInCommit_eq in H. injection H as <- <-.
  split.
  - rewrite deleteSegmentsNotInCommit_eq. cbn [segments objects].
    destruct (filter_negb_idem (delete_matches streamID (map position_key segs))
                               (segments tx)) as [-> ->].
    reflexivity.
  - intros Hwf. cbn [segments].
    set (dm := delete_matches streamID (map position_key segs)).
    assert (Hcount : (length (filter dm (segments tx)) <= length segs)%nat).
    { rewrite <- (length_map position_key segs), <- (length_map row_key (filter dm _)).
      apply NoDup_incl_length.
      - rewrite (filter_implied _ (fun r => seg_stream_id r =? streamID)).
        + apply NoDup_map_filter. apply NoDup_stream_keys. assumption.
        + intros r Hr. unfold dm, delete_matches in Hr.
          apply andb_true_iff in Hr. tauto.
      - intros k Hk. apply in_map_iff in Hk as [r [<- Hr]].
        apply filter_In in Hr as [_ Hr]. unfold dm, delete_matches in Hr.
        apply andb_true_iff in Hr as [_ Hr].
        apply existsb_exists in Hr as [k [Hk Ek]]. apply Z.eqb_eq in Ek.
        unfold row_key. rewrite Ek. assumption. }
    split.
    + pose proof (scan_deleted_length (filter dm (segments tx)) []) as Hl.
      simpl in Hl. lia.
    + pose proof (filter_length (fun r => dm r) (segments tx)) as Hl.
      rewrite (filter_ext (fun r => dm r) dm) in Hl by reflexivity.
      lia.
Qed.

Lemma deleteSegmentsNotInCommit_twice_witness :
  exists deletedSegments tx',
    deleteSegmentsNotInCommit 7 [mkPos 0 1; mkPos 0 9] example_store =
      (inr deletedSegments, tx') /\
    deleteSegmentsNotInCommit 7 [mkPos 0 1; mkPos 0 9] tx' = (inr [], tx') /\
    (length deletedSegments <= 2)%nat /\
    length (segments tx') = 3%nat.
Proof.
  pose (res := deleteSegmentsNotInCommit 7 [mkPos 0 1; mkPos 0 9] example_store).
  assert (E : deleteSegmentsNotInCommit 7 [mkPos 0 1; mkPos 0 9] example_store = res)
    by reflexivity.
  vm_compute in (value of res).
  pose proof (deleteSegmentsNotInCommit_twice 7 [mkPos 0 1; mkPos 0 9]
                example_store _ _ E) as H.
  eexists. eexists. split; [exact E|]. split; [exact (proj1 H)|].
  split; [|reflexivity].
  exact (proj1 (proj2 H (example_segments_wf 5))).
Defined.

(** ** The snapshot of a stream *)

Lemma stream_rows_perm streamID rows rows' :
  Permutation rows rows' ->
  Permutation (stream_rows streamID rows) (stream_rows streamID rows').
Proof. apply filter_perm. Qed.

Lemma segments_wf_perm streamID rows rows' :
  Permutation rows rows' -> segments_wf streamID rows -> segments_wf streamID rows'.
Proof.
  intros Hp [Hnd Hv]. pose proof (stream_rows_perm streamID _ _ Hp) as Hs. split.
  - eapply Permutation_NoDup; [|exact Hnd]. apply Permutation_map. assumption.
  - eapply Permutation_Forall; eassumption.
Qed.

Lemma rows_ordered_strict_rows l :
  rows_ordered l ->
  Forall (fun r => valid_position (seg_position r)) l ->
  NoDup (map seg_position l) ->
  StronglySorted (fun x y => row_key x < row_key y) l.
Proof.
  unfold row_key.
  induction l as [|x l IH]; simpl; intros Ho Hv Hnd; [constructor|].
  apply rows_ordered_inv in Ho as [Hl Hx].
  inversion Hv as [|? ? Hvx Hvl]; subst.
  inversion Hnd as [|? ? Hnotin Hnd']; subst.
  constructor; [auto|].
  apply Forall_forall. intros y Hy.
  specialize (Hx y Hy). rewrite Forall_forall in Hvl.
  assert (position_key (seg_position x) <> position_key (seg_position y)).
  { intros E. apply position_key_inj in E; auto.
    apply Hnotin. rewrite E. apply in_map. assumption. }
  lia.
Qed.

(** Two lists of rows with strictly increasing keys and the same rows are
    one list. *)
Lemma rows_key_sorted_ext l1 : forall l2,
  StronglySorted (fun x y => row_key x < row_key y) l1 ->
  StronglySorted (fun x y => row_key x < row_key y) l2 ->
  (forall r, In r l1 <-> In r l2) -> l1 = l2.
Proof.
  induction l1 as [|a l1 IH]; intros [|b l2] H1 H2 Hext.
  - reflexivity.
  - exfalso. apply (proj2 (Hext b)). left. reflexivity.
  - exfalso. apply (proj1 (Hext a)). left. reflexivity.
  - inversion H1 as [|? ? Hs1 Ha]; subst. inversion H2 as [|? ? Hs2 Hb]; subst.
    rewrite Forall_forall in Ha, Hb.
    assert (Hab : a = b).
    { destruct (proj1 (Hext a) (or_introl eq_refl)) as [E | Hin1]; [congruence|].
      destruct (proj2 (Hext b) (or_introl eq_refl)) as [E | Hin2]; [congruence|].
      pose proof (Hb a Hin1). pose proof (Ha b Hin2). lia. }
    subst b. f_equal. apply IH; try assumption.
    intros r. split; intros Hr.
    + destruct (proj1 (Hext r) (or_intror Hr)) as [<- | H]; [|assumption].
      pose proof (Ha a Hr). lia.
    + destruct (proj2 (Hext r) (or_intror Hr)) as [<- | H]; [|assumption].
      pose proof (Hb a Hr). lia.
Qed.

(** X11 (the snapshot).  With one row per position in the stream, the
    result of [fetchSegmentsForCommit] holds every row of the stream once
    and no row of another stream, in strictly increasing order of the key
    [int64(Encode())] the column [position] holds.  In terms of positions:
    first the rows with a part number from [2 ^ 31] on, in ascending
    position order, then the rows with a part number below, in ascending
    position order; so the result is in ascending position order when no
    stored part number reaches [2 ^ 31].  The result does not depend on
    the order of the rows in the table. *)
Theorem fetchSegmentsForCommit_snapshot streamID tx segs tx1 :
  segments_wf streamID (segments tx) ->
  fetchSegmentsForCommit streamID tx = (inr segs, tx1) ->
  Permutation segs (map scan_segment (stream_rows streamID (segments tx))) /\
  StronglySorted (fun p q => position_key p < position_key q) (positions segs) /\
  (exists hi lo,
      segs = hi ++ lo /\
      Forall (fun p => high_part p = true) (positions hi) /\
      Forall (fun p => high_part p = false) (positions lo) /\
      ascending (positions hi) /\ ascending (positions lo)) /\
  (Forall (fun p => high_part p = false) (positions segs) ->
   ascending (positions segs)) /\
  (forall tx', Permutation (segments tx) (segments tx') ->
               fst (fetchSegmentsForCommit streamID tx') = inr segs).
Proof.
  intros Hwf H. unfold fetchSegmentsForCommit in H. injection H as <- _.
  pose proof (select_segments_ordered streamID (segments tx)) as Ho.
  pose proof (select_segments_Forall_valid streamID (segments tx) Hwf) as Hv.
  pose proof (select_segments_NoDup streamID (segments tx) Hwf) as Hnd.
  refine (conj _ (conj _ (conj _ (conj _ _)))).
  - apply Permutation_map. apply Permutation_sym. apply select_segments_perm.
  - rewrite positions_scan. apply rows_ordered_strict; assumption.
  - exists (map scan_segment
                (filter (fun r => high_part (seg_position r))
                        (select_segments streamID (segments tx)))),
           (map scan_segment
                (filter (fun r => negb (high_part (seg_position r)))
                        (select_segments streamID (segments tx)))).
    rewrite <- map_app, <- (rows_ordered_split _ Ho Hv), !positions_scan.
    assert (Hvf : forall f,
               Forall (fun r => valid_position (seg_position r))
                      (filter f (select_segments streamID (segments tx)))).
    { intros f. apply Forall_forall. intros x Hx. apply filter_In in Hx as [Hx _].
      rewrite Forall_forall in Hv. auto. }
    split; [reflexivity|]. split; [|split; [|split]].
    + apply Forall_forall. intros p Hp. apply in_map_iff in Hp as [r [<- Hr]].
      apply filter_In in Hr. tauto.
    + apply Forall_forall. intros p Hp. apply in_map_iff in Hp as [r [<- Hr]].
      apply filter_In in Hr as [_ Hr]. apply negb_true_iff. assumption.
    + apply (rows_ordered_ascending true);
        [apply rows_ordered_filter; assumption | apply Hvf
         | apply NoDup_map_filter; assumption |].
      apply Forall_forall. intros x Hx. apply filter_In in Hx. tauto.
    + apply (rows_ordered_ascending false);
        [apply rows_ordered_filter; assumption | apply Hvf
         | apply NoDup_map_filter; assumption |].
      apply Forall_forall. intros x Hx. apply filter_In in Hx as [_ Hx].
      apply negb_true_iff. assumption.
  - rewrite positions_scan. intros Hlow.
    apply (rows_ordered_ascending false); try assumption.
    apply Forall_forall. intros x Hx. rewrite Forall_forall in Hlow.
    apply Hlow. apply in_map. assumption.
  - intros tx' Hp. unfold fetchSegmentsForCommit. cbn [fst]. f_equal. f_equal.
    assert (Hwf' : segments_wf streamID (segments tx'))
      by (eapply segments_wf_perm; eassumption).
    apply rows_key_sorted_ext.
    + apply rows_ordered_strict_rows;
        [apply select_segments_ordered
        | apply select_segments_Forall_valid; assumption
        | apply select_segments_NoDup; assumption].
    + apply rows_ordered_strict_rows; assumption.
    + intros r. rewrite !In_select_segments. split; intros [Hr Hs]; split;
        try assumption.
      * eapply Permutation_in; [apply Permutation_sym|]; eassumption.
      * eapply Permutation_in; eassumption.
Qed.

Lemma fetchSegmentsForCommit_snapshot_witness :
  let tx' := mkStore [] (rev (segments high_part_store)) in
  positions (snapshot 7 (segments high_part_store)) = [mkPos (2 ^ 31) 0; mkPos 0 0] /\
  fst (fetchSegmentsForCommit 7 tx') =
  inr (snapshot 7 (segments high_part_store)).
Proof.
  intros tx'. split; [reflexivity|].
  assert (Hwf : segments_wf 7 (segments high_part_store)).
  { split.
    - simpl. repeat constructor; simpl; intuition discriminate.
    - simpl. repeat constructor; simpl; unfold is_uint32; lia. }
  refine (proj2 (proj2 (proj2 (proj2
            (fetchSegmentsForCommit_snapshot 7 high_part_store
               (snapshot 7 (segments high_part_store)) high_part_store
               Hwf eq_refl)))) tx' _).
  apply Permutation_rev.
Defined.

(** ** Committing no segment *)

Lemma staged_commit_nil streamID rows : staged_commit streamID rows [] = [].
Proof.
  unfold staged_commit, kept_segment_rows. simpl. rewrite filter_none. reflexivity.
Qed.

Lemma determineCommitActions_nil bs :
  exists fd, determineCommitActions [] bs = inr fd.
Proof.
  unfold determineCommitActions. rewrite commitWalk_calls, diff_calls_nil_l.
  cbn [invalidSegments commit toDelete].
  replace (flat_map call_invalid (map (fun b => (None, Some b)) bs))
    with (@nil SegmentPosition).
  - eexists. reflexivity.
  - induction bs; simpl; auto.
Qed.

(** X12 (committing an empty list).  A call with no segment, for a stream
    that passes [Verify] and has a pending object row, succeeds: it removes
    every row of the stream from the table, returns the information of
    those that are remote, and the returned object has segment count 0,
    fixed segment size 0 and total sizes 0. *)
Theorem CommitObjectWithSegments_no_segments Verify db opts :
  let streamID := StreamID (Stream opts) in
  segments_wf streamID (segments db) ->
  Segments opts = [] ->
  Verify (Stream opts) = None ->
  has_pending (Stream opts) (objects db) ->
  exists object db',
    CommitObjectWithSegments Verify db opts =
      (inr (object,
            map deleted_info
                (filter (fun r => (seg_stream_id r =? streamID) && is_remote r)
                        (segments db))),
       db') /\
    stream_rows streamID (segments db') = [] /\
    oSegmentCount object = 0 /\
    oFixedSegmentSize object = 0 /\
    oTotalPlainSize object = 0 /\
    oTotalEncryptedSize object = 0.
Proof.
  intros streamID Hwf HA HV [o [Ho Hp]].
  rewrite CommitObjectWithSegments_cases;
    [| assumption | assumption | rewrite HA; reflexivity].
  fold streamID. rewrite HA.
  destruct (determineCommitActions_nil (snapshot streamID (segments db))) as [fd ->].
  destruct (filter (pending_object (Stream opts)) (objects db)) as [|o' rest] eqn:Ef.
  { exfalso. assert (Hin : In o (filter (pending_object (Stream opts)) (objects db)))
      by (apply filter_In; tauto).
    rewrite Ef in Hin. contradiction. }
  rewrite staged_commit_nil, staged_deleted_orphans, staged_rows_orphans by assumption.
  rewrite (filter_ext (fun r => orphan_row streamID [] r && is_remote r)
                      (fun r => (seg_stream_id r =? streamID) && is_remote r))
    by (intros r; unfold orphan_row; simpl; rewrite andb_true_r; reflexivity).
  eexists. eexists. split; [reflexivity|]. split; [|repeat split].
  cbn [segments]. unfold stream_rows. rewrite filter_map_swap.
    rewrite (filter_ext _ (fun r => seg_stream_id r =? streamID))
      by (intros r; rewrite apply_offset_stream; reflexivity).
    rewrite (filter_ext (fun r => negb (orphan_row streamID [] r))
                        (fun r => negb (seg_stream_id r =? streamID)))
      by (intros r; unfold orphan_row; simpl; rewrite andb_true_r; reflexivity).
  destruct (filter_negb_idem (fun r => seg_stream_id r =? streamID) (segments db))
    as [-> _].
  reflexivity.
Qed.

Lemma CommitObjectWithSegments_no_segments_witness :
  exists object db',
    CommitObjectWithSegments verify_ok example_store (example_opts []) =
      (inr (object, map deleted_info
                        [example_segment 2 0 10 9; example_segment 0 0 10 8;
                         example_segment 1 0 10 5]), db') /\
    stream_rows 7 (segments db') = [] /\ oSegmentCount object = 0.
Proof.
  assert (Hp : has_pending (Stream (example_opts [])) (objects example_store)).
  { exists (example_object Pending). split; [left|]; reflexivity. }
  destruct (CommitObjectWithSegments_no_segments verify_ok example_store
              (example_opts []) (example_segments_wf 5) eq_refl eq_refl Hp)
    as [object [db' [E [Hs [Hc _]]]]].
  exists object, db'. split; [exact E|]. split; assumption.
Defined.

(** ** What the two statements on [segments] never do *)

Lemma forget_offset_set r o : forget_offset (set_plain_offset r o) = forget_offset r.
Proof. reflexivity. Qed.

(** X13 (what the offset rewrite and the deletion never do).  Whatever the
    table and the arguments, and whether it succeeds or fails,
    [updateSegmentOffsets] leaves the [objects] table alone, keeps every
    row of [segments] in place with all its columns but the plain offset,
    and does not touch the rows of other streams; the two arrays it sends
    have the same length, at most the length of the list.
    [deleteSegmentsNotInCommit] leaves the [objects] table alone, only
    removes rows, and removes no row of another stream. *)
Theorem segment_statements_frame :
  (forall streamID updates tx r tx',
      updateSegmentOffsets streamID updates tx = (r, tx') ->
      objects tx' = objects tx /\
      map forget_offset (segments tx') = map forget_offset (segments tx) /\
      filter (other_stream streamID) (segments tx') =
        filter (other_stream streamID) (segments tx)) /\
  (forall updates,
      length (Positions (offsetUpdates updates)) =
        length (PlainOffsets (offsetUpdates updates)) /\
      (length (Positions (offsetUpdates updates)) <= length updates)%nat) /\
  (forall streamID segs tx r tx',
      deleteSegmentsNotInCommit streamID segs tx = (r, tx') ->
      objects tx' = objects tx /\
      (exists f, segments tx' = filter f (segments tx)) /\
      filter (other_stream streamID) (segments tx') =
        filter (other_stream streamID) (segments tx)).
Proof.
  refine (conj _ (conj _ _)).
  - intros streamID updates tx r tx' H.
    assert (Hcases : tx' = tx \/
                     tx' = mkStore (objects tx)
                                   (map (apply_offset streamID
                                           (unnest2 (offsetUpdates updates)))
                                        (segments tx))).
    { unfold updateSegmentOffsets in H. destruct updates as [|u updates].
      - injection H as _ <-. left. reflexivity.
      - destruct (Positions (offsetUpdates (u :: updates))).
        + injection H as _ <-. left. reflexivity.
        + unfold exec_update_offsets in H.
          match type of H with context [if ?c then _ else _] => destruct c end;
            injection H as _ <-; right; reflexivity. }
    destruct Hcases as [-> | ->]; [repeat split|]. cbn [objects segments].
    split; [reflexivity|]. split.
    + rewrite map_map. apply map_ext. intros x. apply forget_offset_apply.
    + rewrite filter_map_swap.
      rewrite (filter_ext _ (other_stream streamID))
        by (intros x; unfold other_stream; rewrite apply_offset_stream; reflexivity).
      rewrite (map_ext_in _ (fun x => x)); [apply map_id|].
      intros x Hx. apply filter_In in Hx as [_ Hx]. apply apply_offset_other.
      assumption.
  - intros updates.
    destruct (unnest2_offsetUpdates_running updates) as [_ HK].
    destruct (offsets_loop_batch updates 0 (mkOffsetUpdate [] []) eq_refl) as [H1 H2].
    unfold offsetUpdates. rewrite H1, H2. simpl. rewrite !length_map. split;
      [reflexivity|].
    unfold batch_of. rewrite length_map.
    etransitivity; [apply filter_length_le|].
    rewrite length_combine, length_runningOffsets. lia.
  - intros streamID segs tx r tx' H. rewrite deleteSegmentsNotInCommit_eq in H.
    injection H as _ <-. cbn [objects segments].
    split; [reflexivity|]. split; [eexists; reflexivity|].
    rewrite filter_comm.
    rewrite (filter_ext_in _ (fun _ => true)); [apply filter_all|].
    intros x Hx. apply filter_In in Hx as [_ Hx]. unfold delete_matches.
    unfold other_stream in Hx. apply negb_true_iff in Hx. rewrite Hx. reflexivity.
Qed.

(** ** The status of object rows *)

Lemma finishCommit_objects opts finalSegments tx r tx' :
  finishCommit opts finalSegments tx = (r, tx') ->
  segments tx' = segments tx /\
  exists n p e f,
    objects tx' =
    map (fun o => if pending_object (Stream opts) o
                  then set_committed opts n p e f o else o) (objects tx).
Proof.
  unfold finishCommit. destruct (totalSizes finalSegments) as [p e].
  unfold tx_bind, updateObject.
  destruct (filter (pending_object (Stream opts)) (objects tx));
    intros H; injection H as _ <-; (split; [reflexivity|]);
    do 4 eexists; reflexivity.
Qed.

Lemma commitTx_objects opts db r tx' :
  commitTx opts db = (r, tx') ->
  objects tx' = objects db \/
  exists n p e f,
    objects tx' =
    map (fun o => if pending_object (Stream opts) o
                  then set_committed opts n p e f o else o) (objects db).
Proof.
  unfold commitTx, tx_bind at 1.
  destruct (stageSegments opts db) as [[e | [finalSegments deleted]] tx1] eqn:Es.
  - intros H. injection H as _ <-. left. eapply stageSegments_objects. eassumption.
  - pose proof (stageSegments_objects _ _ _ _ Es) as Ho. unfold tx_bind.
    destruct (finishCommit opts finalSegments tx1) as [[e | obj] tx2] eqn:Ef;
      intros H; injection H as _ <-; right;
      destruct (finishCommit_objects _ _ _ _ _ Ef) as [_ [n [p [e' [f Hobj]]]]];
      rewrite Ho in Hobj; eauto.
Qed.

(** X14 (the only transition is Pending to Committed).  Whatever the store
    holds and however the call ends, [CommitObjectWithSegments] changes no
    object row that is not pending for its stream: a Committed row stays as
    it is.  A row it changes was pending for the stream of the call and is
    Committed afterwards, with its identity unchanged; no row is added or
    removed. *)
Theorem CommitObjectWithSegments_transition Verify db opts r db' :
  CommitObjectWithSegments Verify db opts = (r, db') ->
  length (objects db') = length (objects db) /\
  (forall i o, nth_error (objects db) i = Some o ->
               exists o', nth_error (objects db') i = Some o' /\
                          (o' = o \/
                           (pending_object (Stream opts) o = true /\
                            obj_status o = Pending /\
                            obj_status o' = Committed /\
                            object_kept_columns o' = object_kept_columns o))) /\
  (forall i o, nth_error (objects db) i = Some o ->
               obj_status o = Committed ->
               nth_error (objects db') i = Some o).
Proof.
  intros H.
  assert (Hobj : objects db' = objects db \/
                 exists n p e f,
                   objects db' =
                   map (fun o => if pending_object (Stream opts) o
                                 then set_committed opts n p e f o else o)
                       (objects db)).
  { unfold CommitObjectWithSegments in H.
    destruct (Verify (Stream opts)); [injection H as _ <-; left; reflexivity|].
    destruct (verifySegmentOrder (Segments opts));
      [injection H as _ <-; left; reflexivity|].
    unfold WithTx in H.
    destruct (commitTx opts db) as [[e | res] tx] eqn:Et.
    - injection H as _ <-. left. reflexivity.
    - injection H as _ <-. eapply commitTx_objects. eassumption. }
  assert (Hpend : forall o, pending_object (Stream opts) o = true ->
                            obj_status o = Pending).
  { intros o Ho. unfold pending_object in Ho. rewrite !andb_true_iff in Ho.
    destruct (obj_status o); [reflexivity|]. simpl in Ho. destruct Ho. discriminate. }
  destruct Hobj as [-> | [n [p [e [f ->]]]]].
  - split; [reflexivity|]. split; [|auto]. intros i o Hi. exists o. auto.
  - split; [apply length_map|]. split.
    + intros i o Hi. rewrite nth_error_map, Hi. simpl.
      destruct (pending_object (Stream opts) o) eqn:Ep.
      * eexists. split; [reflexivity|]. right. repeat split. apply Hpend. assumption.
      * exists o. auto.
    + intros i o Hi Hs. rewrite nth_error_map, Hi. simpl.
      destruct (pending_object (Stream opts) o) eqn:Ep; [|reflexivity].
      apply Hpend in Ep. congruence.
Qed.

Lemma CommitObjectWithSegments_transition_witness :
  let opts := example_opts [mkPos 0 0; mkPos 0 2] in
  let db := mkStore [example_object Committed; example_object Pending]
                    (example_segments 5) in
  map obj_status (objects (snd (CommitObjectWithSegments verify_ok db opts))) =
    [Committed; Committed] /\
  nth_error (objects (snd (CommitObjectWithSegments verify_ok db opts))) 0 =
    Some (example_object Committed).
Proof.
  intros opts db.
  pose (res := CommitObjectWithSegments verify_ok db opts).
  assert (E : CommitObjectWithSegments verify_ok db opts = (fst res, snd res))
    by (unfold res; destruct (CommitObjectWithSegments verify_ok db opts); reflexivity).
  split; [reflexivity|].
  exact (proj2 (proj2 (CommitObjectWithSegments_transition verify_ok db opts _ _ E))
               0%nat (example_object Committed) eq_refl eq_refl).
Defined.

(** ** Commits of different streams *)

Lemma staged_rows_other streamID rows A :
  segments_wf streamID rows ->
  filter (other_stream streamID) (staged_rows streamID rows A) =
  filter (other_stream streamID) rows.
Proof.
  intros Hwf. rewrite staged_rows_orphans by assumption.
  rewrite filter_map_swap.
  rewrite (filter_ext (fun x => other_stream streamID (apply_offset streamID _ x))
                      (other_stream streamID))
    by (intros r; unfold other_stream; rewrite apply_offset_stream; reflexivity).
  rewrite filter_comm.
  rewrite (map_ext_in _ (fun r => r)).
  - rewrite map_id.
    rewrite (filter_ext_in _ (fun _ => true)); [apply filter_all|].
    intros r Hr. apply filter_In in Hr as [_ Hr]. unfold orphan_row.
    unfold other_stream in Hr. apply negb_true_iff in Hr. rewrite Hr. reflexivity.
  - intros r Hr. apply filter_In in Hr as [Hr _]. apply filter_In in Hr as [_ Hr].
    apply apply_offset_other. assumption.
Qed.

Lemma stream_rows_of_other id1 id2 rows rows' :
  id1 <> id2 ->
  filter (other_stream id1) rows' = filter (other_stream id1) rows ->
  stream_rows id2 rows' = stream_rows id2 rows.
Proof.
  intros Hne H. unfold stream_rows.
  rewrite (filter_implied (fun r => seg_stream_id r =? id2) (other_stream id1) rows'),
          (filter_implied (fun r => seg_stream_id r =? id2) (other_stream id1) rows).
  - rewrite H. reflexivity.
  - intros r Hr. apply Z.eqb_eq in Hr. unfold other_stream.
    apply negb_true_iff, Z.eqb_neq. congruence.
  - intros r Hr. apply Z.eqb_eq in Hr. unfold other_stream.
    apply negb_true_iff, Z.eqb_neq. congruence.
Qed.

Lemma orphans_of_stream_rows streamID A rows :
  filter (fun r => orphan_row streamID A r && is_remote r) rows =
  filter (fun r => negb (mem_pos (seg_position r) A) && is_remote r)
         (stream_rows streamID rows).
Proof.
  unfold stream_rows. rewrite filter_andb. apply filter_ext. intros r.
  unfold orphan_row. rewrite andb_assoc. reflexivity.
Qed.

Lemma pending_other_stream s1 s2 o :
  StreamID s1 <> StreamID s2 ->
  pending_object s1 o = true -> pending_object s2 o = false.
Proof.
  intros Hne H. unfold pending_object in *. rewrite !andb_true_iff in H.
  destruct H as [[[[[_ _] _] _] Hs] _]. apply Z.eqb_eq in Hs.
  assert (E : (obj_stream_id o =? StreamID s2) = false)
    by (apply Z.eqb_neq; congruence).
  rewrite E. rewrite !andb_false_r. reflexivity.
Qed.

Lemma filter_pending_after s1 s2 g l :
  StreamID s1 <> StreamID s2 ->
  (forall o, pending_object s2 (g o) = false) ->
  filter (pending_object s2)
         (map (fun o => if pending_object s1 o then g o else o) l) =
  filter (pending_object s2) l.
Proof.
  intros Hne Hg. induction l as [|o l IH]; simpl; [reflexivity|].
  destruct (pending_object s1 o) eqn:E1.
  - rewrite Hg, (pending_other_stream s1 s2 o Hne E1). assumption.
  - rewrite IH. reflexivity.
Qed.

(** X15 (commits of different streams do not interfere).  After a
    successful commit for one stream, the rows of any other stream are as
    before, and a commit for another stream ends as it would have ended
    without the first: with the same error, or with the same object and the
    same deleted segments. *)
Theorem CommitObjectWithSegments_streams_independent
        Verify db opts1 opts2 object1 deleted1 db1 :
  let id1 := StreamID (Stream opts1) in
  let id2 := StreamID (Stream opts2) in
  id1 <> id2 ->
  segments_wf id1 (segments db) ->
  segments_wf id2 (segments db) ->
  CommitObjectWithSegments Verify db opts1 = (inr (object1, deleted1), db1) ->
  stream_rows id2 (segments db1) = stream_rows id2 (segments db) /\
  fst (CommitObjectWithSegments Verify db1 opts2) =
  fst (CommitObjectWithSegments Verify db opts2).
Proof.
  intros id1 id2 Hne Hwf1 Hwf2 H.
  destruct (CommitObjectWithSegments_success_full _ _ _ _ _ _ Hwf1 H)
    as [o [rest [_ [_ Hdb1]]]]. fold id1 in Hdb1.
  assert (Hsr : stream_rows id2 (segments db1) = stream_rows id2 (segments db)).
  { rewrite Hdb1. cbn [segments]. apply (stream_rows_of_other id1 id2); [assumption|].
    apply staged_rows_other. assumption. }
  split; [exact Hsr|].
  assert (Hwf2' : segments_wf id2 (segments db1))
    by (unfold segments_wf; rewrite Hsr; exact Hwf2).
  assert (Hsel : select_segments id2 (segments db1) = select_segments id2 (segments db)).
  { unfold select_segments. fold (stream_rows id2 (segments db1)).
    fold (stream_rows id2 (segments db)). rewrite Hsr. reflexivity. }
  destruct (Verify (Stream opts2)) as [e|] eqn:HV.
  { unfold CommitObjectWithSegments. rewrite HV. reflexivity. }
  destruct (verifySegmentOrder (Segments opts2)) as [e|] eqn:HO.
  { unfold CommitObjectWithSegments. rewrite HV, HO. reflexivity. }
  rewrite !CommitObjectWithSegments_cases by assumption.
  fold id2. rewrite !staged_deleted_orphans by assumption.
  rewrite (orphans_of_stream_rows id2 (Segments opts2) (segments db1)),
          (orphans_of_stream_rows id2 (Segments opts2) (segments db)), Hsr.
  unfold staged_commit, kept_segment_rows, snapshot. rewrite Hsel.
  assert (Hf : filter (pending_object (Stream opts2)) (objects db1) =
               filter (pending_object (Stream opts2)) (objects db)).
  { rewrite Hdb1. cbn [objects]. apply filter_pending_after; [exact Hne|].
    intros x. unfold pending_object, set_committed. simpl. apply andb_false_r. }
  rewrite Hf.
  destruct (determineCommitActions _ _); [reflexivity|].
  destruct (filter (pending_object (Stream opts2)) (objects db)); reflexivity.
Qed.

Lemma other_stream_wf : segments_wf 8 (example_segments 5).
Proof.
  split.
  - simpl. repeat constructor; simpl; intuition discriminate.
  - simpl. repeat constructor; simpl; unfold is_uint32; lia.
Defined.

Lemma CommitObjectWithSegments_streams_independent_witness :
  let opts1 := example_opts [mkPos 0 0; mkPos 0 2] in
  let db1 := snd (CommitObjectWithSegments verify_ok two_stream_store opts1) in
  fst (CommitObjectWithSegments verify_ok db1 other_stream_opts) =
  fst (CommitObjectWithSegments verify_ok two_stream_store other_stream_opts).
Proof.
  intros opts1 db1.
  pose (res := CommitObjectWithSegments verify_ok two_stream_store opts1).
  assert (E : CommitObjectWithSegments verify_ok two_stream_store opts1 = res)
    by reflexivity.
  vm_compute in (value of res).
  assert (Hne : StreamID (Stream opts1) <> StreamID (Stream other_stream_opts))
    by discriminate.
  exact (proj2 (CommitObjectWithSegments_streams_independent verify_ok
                  two_stream_store opts1 other_stream_opts _ _ _
                  Hne (example_segments_wf 5) other_stream_wf E)).
Defined.
